(** * Betslip conversion: selection matching engine and resource pool

    A shallow embedding of [automation/market_matcher.py],
    [automation/bookmaker_adapters.py] and
    [automation/parallel_browser_manager.py].

    Modelling conventions.
    - Python [str] values over the code points 0..255 are Rocq [string]s;
      the text primitives below follow CPython on them.
    - A finite Python [float] is the rational [Q] it equals, and a
      decimal literal of the source or of a test is the double nearest to
      it ([Float64.literal]). The subtraction of two odds rounds to the
      nearest double, as the machine does ([Float64.sub]); the weighted
      sums and quotients of similarity scores are kept exact. The one
      non-finite float the code builds, [float('inf')], has its own
      constructor.
    - A raised exception is a [Raise] result.
    - [dict]s used as maps are [gmap]s; a [dict] that is iterated keeps
      its insertion order as an association list.
    - Clock reads ([time.time()], [datetime.now()]) and the outcome of the
      external browser agent are inputs of the operations that use them. *)

From Stdlib Require Import ZArith QArith Qabs Qround Qpower.
From Stdlib Require Import Floats.PrimFloat Floats.SpecFloat Floats.FloatOps.
From Stdlib Require Import String Ascii List Bool Lia Lqa.
From stdpp Require Import gmap strings list pretty.

Local Open Scope string_scope.
Local Open Scope nat_scope.

(** ** Text primitives of the Python runtime *)

Module Text.

Definition code (c : ascii) : N := N_of_ascii c.

Definition in_range (lo hi : N) (c : ascii) : bool :=
  (N.leb lo (code c) && N.leb (code c) hi)%bool.

(** Characters [str.lower()] changes; each moves up by 32. *)
Definition is_upper (c : ascii) : bool :=
  (in_range 65 90 c || in_range 192 214 c || in_range 216 222 c)%bool.

Definition lower_char (c : ascii) : ascii :=
  if is_upper c then ascii_of_N (code c + 32) else c.

(** [str.lower()] *)
Fixpoint lower (s : string) : string :=
  match s with
  | EmptyString => EmptyString
  | String c r => String (lower_char c) (lower r)
  end.

(** [str.isspace()] on one character; also the class [\s] of [re]. *)
Definition isspace (c : ascii) : bool :=
  (in_range 9 13 c || in_range 28 32 c || in_range 133 133 c
   || in_range 160 160 c)%bool.

(** The class [\w] of [re]. *)
Definition is_word (c : ascii) : bool :=
  (in_range 48 57 c || in_range 65 90 c || in_range 95 95 c
   || in_range 97 122 c || in_range 170 170 c || in_range 178 179 c
   || in_range 181 181 c || in_range 185 186 c || in_range 188 190 c
   || in_range 192 214 c || in_range 216 246 c || in_range 248 255 c)%bool.

Fixpoint lstrip (s : string) : string :=
  match s with
  | EmptyString => EmptyString
  | String c r => if isspace c then lstrip r else s
  end.

Fixpoint rstrip (s : string) : string :=
  match s with
  | EmptyString => EmptyString
  | String c r =>
      match rstrip r with
      | EmptyString => if isspace c then EmptyString else String c EmptyString
      | r' => String c r'
      end
  end.

(** [str.strip()] *)
Definition strip (s : string) : string := rstrip (lstrip s).

Definition is_empty (s : string) : bool :=
  match s with EmptyString => true | _ => false end.

Fixpoint starts_with (p s : string) : bool :=
  match p, s with
  | EmptyString, _ => true
  | String a p', String b s' => (Ascii.eqb a b && starts_with p' s')%bool
  | String _ _, EmptyString => false
  end.

(** [sub in s] *)
Fixpoint contains (sub s : string) : bool :=
  (starts_with sub s
   || match s with
      | EmptyString => false
      | String _ r => contains sub r
      end)%bool.

Fixpoint split_go (word : string) (s : string) : list string :=
  match s with
  | EmptyString => if is_empty word then [] else [word]
  | String c r =>
      if isspace c
      then (if is_empty word then split_go EmptyString r
            else word :: split_go EmptyString r)
      else split_go (word ++ String c EmptyString) r
  end.

(** [str.split()] with no argument: the maximal runs of non-blanks. *)
Definition split (s : string) : list string := split_go EmptyString s.

Fixpoint interleave (new s : string) : string :=
  match s with
  | EmptyString => new
  | String c r => new ++ String c (interleave new r)
  end.

Fixpoint replace_go (old new : string) (skip : nat) (s : string) : string :=
  match s with
  | EmptyString => EmptyString
  | String c r =>
      match skip with
      | S k => replace_go old new k r
      | O =>
          if starts_with old s
          then new ++ replace_go old new (String.length old - 1) r
          else String c (replace_go old new 0 r)
      end
  end.

(** [s.replace(old, new)]: leftmost non-overlapping occurrences. *)
Definition replace (old new s : string) : string :=
  if is_empty old then interleave new s else replace_go old new 0 s.

(** *** The three shapes of [re.sub] the adapters use *)

Definition word_opt (c : option ascii) : bool :=
  match c with Some c => is_word c | None => false end.

(** [\b] between the characters [prev] and [next]. *)
Definition boundary (prev next : option ascii) : bool :=
  xorb (word_opt prev) (word_opt next).

Fixpoint starts_with_ci (p s : string) : bool :=
  match p, s with
  | EmptyString, _ => true
  | String a p', String b s' =>
      (Ascii.eqb (lower_char a) (lower_char b) && starts_with_ci p' s')%bool
  | String _ _, EmptyString => false
  end.

Fixpoint sub_word_go (lit repl : string) (prev : option ascii) (skip : nat)
         (s : string) : string :=
  match s with
  | EmptyString => EmptyString
  | String c r =>
      match skip with
      | S k => sub_word_go lit repl (Some c) k r
      | O =>
          let n := String.length lit in
          if (boundary prev (Some c) && starts_with_ci lit s
              && boundary (String.get (n - 1) s) (String.get n s))%bool
          then repl ++ sub_word_go lit repl (Some c) (n - 1) r
          else String c (sub_word_go lit repl (Some c) 0 r)
      end
  end.

(** [re.sub(r'\b' + lit + r'\b', repl, s, flags=re.IGNORECASE)] for a
    non-empty literal [lit] (dots escaped in the source pattern). *)
Definition sub_word (lit repl s : string) : string :=
  sub_word_go lit repl None 0 s.

Fixpoint collapse_go (in_ws : bool) (s : string) : string :=
  match s with
  | EmptyString => EmptyString
  | String c r =>
      if isspace c
      then (if in_ws then collapse_go true r
            else String " "%char (collapse_go true r))
      else String c (collapse_go false r)
  end.

(** [re.sub(r'\s+', ' ', s)] *)
Definition collapse_spaces (s : string) : string := collapse_go false s.

(** [re.sub(r'[^\w\s]', '', s)] *)
Fixpoint drop_punct (s : string) : string :=
  match s with
  | EmptyString => EmptyString
  | String c r =>
      if (is_word c || isspace c)%bool then String c (drop_punct r)
      else drop_punct r
  end.

(** [sep.join(l)] *)
Fixpoint join (sep : string) (l : list string) : string :=
  match l with
  | [] => EmptyString
  | [s] => s
  | s :: rest => s +:+ sep +:+ join sep rest
  end.

End Text.

(** ** [difflib.SequenceMatcher(None, a, b).ratio()]

    The standard-library matcher the engine calls, with its default
    arguments: no junk predicate, [autojunk] heuristic on. *)

Module Difflib.

Definition count (c : ascii) (b : list ascii) : nat :=
  List.length (List.filter (Ascii.eqb c) b).

(** Elements dropped from the index [b2j] by [__chain_b]: those that
    occur more than [n // 100 + 1] times in a [b] of length [n >= 200]. *)
Definition popular (b : list ascii) (c : ascii) : bool :=
  ((200 <=? List.length b) && (List.length b / 100 + 1 <? count c b))%bool.

Definition block : Type := nat * nat * nat.

Section Matching.
(** [indexed c]: the element [c] is still in [b2j]. *)
Variable indexed : ascii -> bool.

(** One row of the table [j2len]: entry [j] is the length of the run
    of indexed matches ending at [(i, j)], [0] if there is none;
    [diag] is the entry [j - 1] of the previous row. *)
Fixpoint next_row (ai : ascii) (diag : nat) (prev : list nat)
         (b : list ascii) : list nat :=
  match b with
  | [] => []
  | bj :: b' =>
      (if (Ascii.eqb ai bj && indexed bj)%bool then S diag else 0)
        :: next_row ai (List.hd 0 prev) (List.tl prev) b'
  end.

Fixpoint scan_row (i j : nat) (row : list nat) (best : block) : block :=
  match row with
  | [] => best
  | k :: row' =>
      scan_row i (S j) row'
        (if snd best <? k then (S i - k, S j - k, k) else best)
  end.

Fixpoint table (a b : list ascii) (i : nat) (prev : list nat)
         (best : block) : block :=
  match a with
  | [] => best
  | ai :: a' =>
      let row := next_row ai 0 prev b in
      table a' b (S i) row (scan_row i 0 row best)
  end.

Definition same_at (a b : list ascii) (i j : nat) : bool :=
  match List.nth_error a i, List.nth_error b j with
  | Some x, Some y => Ascii.eqb x y
  | _, _ => false
  end.

Fixpoint extend_left (fuel : nat) (a b : list ascii) (m : block) : block :=
  match fuel with
  | O => m
  | S fuel' =>
      let '(i, j, k) := m in
      if ((0 <? i) && (0 <? j) && same_at a b (i - 1) (j - 1))%bool
      then extend_left fuel' a b (i - 1, j - 1, S k)
      else m
  end.

Fixpoint extend_right (fuel : nat) (a b : list ascii) (m : block) : block :=
  match fuel with
  | O => m
  | S fuel' =>
      let '(i, j, k) := m in
      if ((i + k <? List.length a) && (j + k <? List.length b)
          && same_at a b (i + k) (j + k))%bool
      then extend_right fuel' a b (i, j, S k)
      else m
  end.

(** [find_longest_match(alo, ahi, blo, bhi)] on the slices
    [a[alo:ahi]] and [b[blo:bhi]], positions relative to the slices.
    With no junk predicate the two junk-absorbing loops never run. *)
Definition find_longest_match (a b : list ascii) : block :=
  let m := table a b 0 [] (0, 0, 0) in
  extend_right (List.length a) a b (extend_left (List.length a) a b m).

(** Total size of the blocks of [get_matching_blocks]: the longest
    match, then the pieces to its left and to its right. *)
Fixpoint matches (fuel : nat) (a b : list ascii) : nat :=
  match fuel with
  | O => 0
  | S fuel' =>
      let '(i, j, k) := find_longest_match a b in
      if k =? 0 then 0
      else
        k
        + (if ((0 <? i) && (0 <? j))%bool
           then matches fuel' (List.firstn i a) (List.firstn j b) else 0)
        + (if ((i + k <? List.length a) && (j + k <? List.length b))%bool
           then matches fuel' (List.skipn (i + k) a) (List.skipn (j + k) b)
           else 0)
  end.
End Matching.

Definition matching_size (a b : list ascii) : nat :=
  matches (fun c => negb (popular b c)) (S (List.length a)) a b.

(** [ratio()]: [2.0 * matches / (len(a) + len(b))], [1.0] for two
    empty sequences. *)
Definition ratio (s t : string) : Q :=
  let a := list_ascii_of_string s in
  let b := list_ascii_of_string t in
  let total := (List.length a + List.length b)%nat in
  if total =? 0 then 1
  else (2 * Z.of_nat (matching_size a b) # Pos.of_nat total).

End Difflib.

(** ** Bookmaker adapters ([bookmaker_adapters.py]) *)

Module Adapters.
Import Text.

(** The two dictionaries of [BookmakerConfig] the matching engine
    reads, in insertion order. *)
Record BookmakerConfig : Type := {
  market_mappings : list (string * string);
  team_name_normalizations : list (string * string)
}.

(** [common_normalizations] of [_apply_common_normalizations]; each key
    [r'\bX\b'] is kept as its literal [X]. *)
Definition common_normalizations : list (string * string) :=
  [ ("FC", ""); ("F.C.", ""); ("F.C", ""); ("United", "Utd");
    ("Athletic", "Ath"); ("Athletics", "Ath"); ("Real", "R.");
    ("Club", "C."); ("Sporting", "Sport"); ("Internacional", "Int");
    ("Manchester", "Man"); ("Liverpool", "Pool") ].

Definition _apply_common_normalizations (name : string) : string :=
  let name :=
    fold_left (fun name '(pattern, replacement) =>
                 sub_word pattern replacement name)
              common_normalizations name in
  let name := strip (collapse_spaces name) in
  drop_punct name.

Definition normalize_game_name (config : BookmakerConfig)
           (game_name : string) : string :=
  let normalized := strip game_name in
  let normalized :=
    fold_left (fun normalized '(original, replacement) =>
                 replace original replacement normalized)
              (team_name_normalizations config) normalized in
  _apply_common_normalizations normalized.

Definition common_mappings : list (string * list string) :=
  [ ("match result", ["1x2"; "full time result"; "winner"; "match winner"]);
    ("1x2", ["match result"; "full time result"; "winner"]);
    ("over/under 2.5",
      ["total goals over/under 2.5"; "o/u 2.5"; "total goals o/u 2.5"]);
    ("both teams to score", ["btts"; "both teams to score - yes"; "gg"]);
    ("double chance", ["dc"; "1x"; "12"; "x2"]);
    ("handicap", ["asian handicap"; "ah"; "spread"]);
    ("correct score", ["exact score"; "final score"]) ].

Definition mem (s : string) (l : list string) : bool :=
  existsb (String.eqb s) l.

Fixpoint common_loop (market market_lower : string)
         (l : list (string * list string)) : string :=
  match l with
  | [] => market
  | (standard_market, variations) :: l' =>
      if (mem market_lower variations
          || existsb (fun var => contains var market_lower) variations)%bool
      then standard_market
      else if contains standard_market market_lower then standard_market
      else common_loop market market_lower l'
  end.

Definition _apply_common_market_mappings (market : string) : string :=
  common_loop market (strip (lower market)) common_mappings.

Fixpoint mapping_loop (market market_lower : string)
         (l : list (string * string)) : string :=
  match l with
  | [] => _apply_common_market_mappings market
  | (standard_market, bookmaker_market) :: l' =>
      if String.eqb market_lower (lower standard_market)
      then bookmaker_market
      else if (contains market_lower (lower standard_market)
               || contains (lower standard_market) market_lower)%bool
      then bookmaker_market
      else mapping_loop market market_lower l'
  end.

Definition map_market_name (config : BookmakerConfig) (market : string)
  : string :=
  mapping_loop market (strip (lower market)) (market_mappings config).

Definition Bet9jaAdapter : BookmakerConfig := {|
  market_mappings :=
    [ ("match result", "1X2"); ("1x2", "1X2");
      ("over/under 2.5", "Over/Under 2.5 Goals");
      ("both teams to score", "Both Teams To Score");
      ("double chance", "Double Chance"); ("handicap", "Handicap");
      ("correct score", "Correct Score"); ("total goals", "Total Goals");
      ("first half result", "1st Half Result");
      ("half time/full time", "Half Time/Full Time") ];
  team_name_normalizations :=
    [ ("Manchester United", "Man United"); ("Manchester City", "Man City");
      ("Tottenham Hotspur", "Tottenham");
      ("Brighton & Hove Albion", "Brighton");
      ("West Ham United", "West Ham"); ("Newcastle United", "Newcastle");
      ("Wolverhampton Wanderers", "Wolves");
      ("Leicester City", "Leicester"); ("Crystal Palace", "C Palace");
      ("Sheffield United", "Sheffield Utd"); ("Real Madrid", "R Madrid");
      ("Atletico Madrid", "A Madrid"); ("Bayern Munich", "Bayern");
      ("Borussia Dortmund", "B Dortmund"); ("Paris Saint-Germain", "PSG");
      ("AC Milan", "Milan"); ("Inter Milan", "Inter") ]
|}.

Definition SportybetAdapter : BookmakerConfig := {|
  market_mappings :=
    [ ("match result", "Match Result"); ("1x2", "Match Result");
      ("over/under 2.5", "Total Goals Over/Under 2.5");
      ("both teams to score", "Both Teams To Score");
      ("double chance", "Double Chance"); ("handicap", "Asian Handicap");
      ("correct score", "Correct Score"); ("total goals", "Total Goals");
      ("first half result", "1st Half Result");
      ("half time/full time", "Half Time/Full Time");
      ("draw no bet", "Draw No Bet"); ("goal line", "Goal Line") ];
  team_name_normalizations :=
    [ ("Manchester United", "Manchester Utd"); ("Manchester City", "Man City");
      ("Tottenham Hotspur", "Tottenham");
      ("Brighton & Hove Albion", "Brighton");
      ("West Ham United", "West Ham"); ("Newcastle United", "Newcastle");
      ("Wolverhampton Wanderers", "Wolverhampton");
      ("Leicester City", "Leicester"); ("Crystal Palace", "Crystal Palace");
      ("Sheffield United", "Sheffield Utd"); ("Real Madrid", "Real Madrid");
      ("Atletico Madrid", "Atletico Madrid");
      ("Bayern Munich", "Bayern Munich");
      ("Borussia Dortmund", "Dortmund"); ("Paris Saint-Germain", "Paris SG");
      ("AC Milan", "AC Milan"); ("Inter Milan", "Inter Milan");
      ("Juventus", "Juventus"); ("Barcelona", "Barcelona");
      ("Chelsea", "Chelsea"); ("Arsenal", "Arsenal");
      ("Liverpool", "Liverpool") ]
|}.

Definition BetwayAdapter : BookmakerConfig := {|
  market_mappings :=
    [ ("match result", "Match Result"); ("1x2", "Match Result");
      ("over/under 2.5", "Over/Under 2.5 Goals");
      ("both teams to score", "Both Teams to Score");
      ("double chance", "Double Chance"); ("handicap", "Handicap");
      ("correct score", "Correct Score"); ("total goals", "Total Goals");
      ("first half result", "First Half Result");
      ("half time/full time", "Half Time/Full Time");
      ("draw no bet", "Draw No Bet"); ("clean sheet", "Clean Sheet");
      ("anytime goalscorer", "Anytime Goalscorer") ];
  team_name_normalizations :=
    [ ("Manchester United", "Man Utd"); ("Manchester City", "Man City");
      ("Tottenham Hotspur", "Tottenham");
      ("Brighton & Hove Albion", "Brighton");
      ("West Ham United", "West Ham"); ("Newcastle United", "Newcastle");
      ("Wolverhampton Wanderers", "Wolves");
      ("Leicester City", "Leicester"); ("Crystal Palace", "Crystal Palace");
      ("Sheffield United", "Sheffield Utd"); ("Real Madrid", "Real Madrid");
      ("Atletico Madrid", "Atletico Madrid");
      ("Bayern Munich", "Bayern Munich");
      ("Borussia Dortmund", "Borussia Dortmund");
      ("Paris Saint-Germain", "PSG"); ("AC Milan", "AC Milan");
      ("Inter Milan", "Inter"); ("Juventus", "Juventus");
      ("Barcelona", "Barcelona"); ("Chelsea", "Chelsea");
      ("Arsenal", "Arsenal"); ("Liverpool", "Liverpool") ]
|}.

Definition Bet365Adapter : BookmakerConfig := {|
  market_mappings :=
    [ ("match result", "Result"); ("1x2", "Result");
      ("over/under 2.5", "Goals Over/Under");
      ("both teams to score", "Both Teams to Score");
      ("double chance", "Double Chance"); ("handicap", "Asian Handicap");
      ("correct score", "Correct Score"); ("total goals", "Total Goals");
      ("first half result", "Half Time Result");
      ("half time/full time", "Half Time/Full Time");
      ("draw no bet", "Draw No Bet");
      ("clean sheet", "To Keep a Clean Sheet");
      ("anytime goalscorer", "Goalscorer") ];
  team_name_normalizations :=
    [ ("Manchester United", "Man Utd"); ("Manchester City", "Man City");
      ("Tottenham Hotspur", "Tottenham");
      ("Brighton & Hove Albion", "Brighton");
      ("West Ham United", "West Ham"); ("Newcastle United", "Newcastle");
      ("Wolverhampton Wanderers", "Wolves");
      ("Leicester City", "Leicester"); ("Crystal Palace", "Crystal Palace");
      ("Sheffield United", "Sheffield Utd"); ("Real Madrid", "Real Madrid");
      ("Atletico Madrid", "Atletico Madrid");
      ("Bayern Munich", "Bayern Munich");
      ("Borussia Dortmund", "Borussia Dortmund");
      ("Paris Saint-Germain", "Paris SG"); ("AC Milan", "AC Milan");
      ("Inter Milan", "Inter Milan"); ("Juventus", "Juventus");
      ("Barcelona", "Barcelona"); ("Chelsea", "Chelsea");
      ("Arsenal", "Arsenal"); ("Liverpool", "Liverpool") ]
|}.

Definition adapters : list (string * BookmakerConfig) :=
  [ ("bet9ja", Bet9jaAdapter); ("sportybet", SportybetAdapter);
    ("betway", BetwayAdapter); ("bet365", Bet365Adapter) ].

Fixpoint assoc {A : Type} (k : string) (l : list (string * A)) : option A :=
  match l with
  | [] => None
  | (k', v) :: l' => if String.eqb k k' then Some v else assoc k l'
  end.

(** [get_bookmaker_adapter]: [None] stands for the [ValueError] raised
    on an unsupported bookmaker. *)
Definition get_bookmaker_adapter (bookmaker_id : string)
  : option BookmakerConfig :=
  assoc (lower bookmaker_id) adapters.

End Adapters.

(** ** Python values shared by the two subsystems *)

(** Exceptions the modelled code can raise. *)
Inductive exn : Type :=
| ValueError (msg : string)      (* unsupported bookmaker *)
| AttributeError (msg : string)  (* a method called on [None] *)
| KeyError (key : string)
| Exception (msg : string).      (* a bare [Exception(msg)] *)

Inductive result (A : Type) : Type :=
| Ok (a : A)
| Raise (e : exn).
Arguments Ok {A} a.
Arguments Raise {A} e.

(** A float that is either finite or [float('inf')]. *)
Inductive pyfloat : Type :=
| Fin (q : Q)
| Inf.

Definition Qlt_bool (x y : Q) : bool := negb (Qle_bool y x).

(** [min(x, y)] of Python: [y] only when [y < x]. *)
Definition py_min (x y : Q) : Q := if Qlt_bool y x then y else x.

Definition round_half_even (q : Q) : Z :=
  let n := Qnum q in
  let d := Z.pos (Qden q) in
  match (2 * (n mod d) ?= d)%Z with
  | Lt => (n / d)%Z
  | Gt => (n / d + 1)%Z
  | Eq => if Z.even (n / d) then (n / d)%Z else (n / d + 1)%Z
  end.

Definition pad3 (s : string) : string :=
  match String.length s with
  | 1 => "00" +:+ s
  | 2 => "0" +:+ s
  | _ => s
  end.

(** [f"{x:.3f}"]. *)
Definition format_3f (x : pyfloat) : string :=
  match x with
  | Inf => "inf"
  | Fin q =>
      let n := round_half_even (Qabs q * 1000) in
      (if Qlt_bool q 0 then "-" else "")
        +:+ pretty (n / 1000)%Z +:+ "." +:+ pad3 (pretty (n mod 1000)%Z)
  end.

(** ** Double-precision arithmetic (IEEE 754 binary64)

    Rounding to the nearest double, ties to the even significand, on
    rationals below the overflow threshold [2^1024]. *)

Module Float64.
Local Open Scope Q_scope.

Definition pow2 (e : Z) : Q := 2 ^ e.

(** For [0 < a]: the [e] with [2^e <= a < 2^(e+1)]. *)
Definition exponent (a : Q) : Z :=
  let e := (Z.log2 (Qnum a) - Z.log2 (Z.pos (Qden a)))%Z in
  if Qle_bool (pow2 e) a then e else (e - 1)%Z.

(** The spacing of the doubles at [a]: 52 binary places below the
    leading one, and [2^-1074] in the subnormal range. *)
Definition ulp (a : Q) : Q := pow2 (Z.max (exponent a - 52) (-1074)).

(** The double nearest to a positive [a]. *)
Definition nearest (a : Q) : Q :=
  inject_Z (round_half_even (a / ulp a)) * ulp a.

Definition round (q : Q) : Q :=
  if Qeq_bool q 0 then 0
  else if Qle_bool 0 q then nearest (Qabs q) else - nearest (Qabs q).

(** The rationals that are doubles. *)
Definition is_float (q : Q) : Prop := round q == q.

(** A decimal literal, read as Python reads it. *)
Definition literal (q : Q) : Q := round q.

(** [x - y] on doubles *)
Definition sub (x y : Q) : Q := round (x - y).

(** [abs(x)] on doubles, which is exact *)
Definition abs (x : Q) : Q := Qabs x.

End Float64.

(** ** The selection matching engine ([market_matcher.py]) *)

Module Matcher.
Import Text Adapters.
Local Open Scope Q_scope.

(** [models.Selection]; [event_date] plays no part in matching. *)
Record Selection : Type := {
  game_id : string;
  home_team : string;
  away_team : string;
  market : string;
  odds : Q;
  league : string;
  original_text : string
}.

(** A market [dict] of a candidate game, seen through the two reads the
    engine makes: [m.get('name', '')] and [m.get('odds', 0.0)]. *)
Record CandidateMarket : Type := {
  name : string;
  listed_odds : Q
}.

(** A game [dict], seen through [game.get('home_team', '')],
    [game.get('away_team', '')] and [game.get('markets', [])]. *)
Record CandidateGame : Type := {
  game_home : string;
  game_away : string;
  game_markets : list CandidateMarket
}.

Record MatchResult : Type := {
  success : bool;
  confidence : Q;
  matched_game : option string;
  matched_market : option string;
  matched_odds : option Q;
  original_odds : option Q;
  odds_difference : option pyfloat;
  warnings : list string
}.

Record GameAvailability : Type := {
  available : bool;
  game_name : option string;
  ga_home_team : option string;
  ga_away_team : option string;
  markets : list CandidateMarket;
  ga_confidence : Q
}.

(** The fields of [MarketMatcher] the engine reads or writes. *)
Record MarketMatcher : Type := {
  odds_tolerance : Q;
  _market_mapping_cache : gmap string (string * Q)
}.

Definition create_market_matcher (odds_tolerance : Q) : MarketMatcher :=
  {| odds_tolerance := odds_tolerance; _market_mapping_cache := ∅ |}.

Definition abbreviations : list (string * list string) :=
  [ ("manchester united", ["man utd"; "man united"; "mufc"]);
    ("manchester city", ["man city"; "mcfc"]);
    ("tottenham hotspur", ["tottenham"; "spurs"; "thfc"]);
    ("arsenal", ["arsenal fc"; "afc"]);
    ("chelsea", ["chelsea fc"; "cfc"]);
    ("liverpool", ["liverpool fc"; "lfc"]);
    ("real madrid", ["r madrid"; "real"; "rmcf"]);
    ("barcelona", ["barca"; "fcb"; "fc barcelona"]);
    ("bayern munich", ["bayern"; "fcb munich"]);
    ("paris saint-germain", ["psg"; "paris sg"]);
    ("ac milan", ["milan"; "acm"]);
    ("inter milan", ["inter"; "internazionale"]);
    ("atletico madrid", ["atletico"; "atm"; "a madrid"]);
    ("borussia dortmund", ["dortmund"; "bvb"; "b dortmund"]) ].

Definition _check_abbreviation_match (team1 team2 : string) : Q :=
  let team1_lower := strip (lower team1) in
  let team2_lower := strip (lower team2) in
  if existsb
       (fun '(full_name, abbrevs) =>
          (String.eqb team1_lower full_name && mem team2_lower abbrevs)
          || (String.eqb team2_lower full_name && mem team1_lower abbrevs)
          || (mem team1_lower abbrevs && mem team2_lower abbrevs))%bool
       abbreviations
  then 0.9
  else if ((String.length team1_lower <=? 4)%nat
           && contains team1_lower team2_lower)%bool then 0.7
  else if ((String.length team2_lower <=? 4)%nat
           && contains team2_lower team1_lower)%bool then 0.7
  else 0.

Definition word_set (s : string) : gset string := list_to_set (split s).

Definition _calculate_team_similarity (team1 team2 : string) : Q :=
  if (is_empty team1 || is_empty team2)%bool then 0
  else if String.eqb (lower team1) (lower team2) then 1
  else
    let sequence_similarity := Difflib.ratio (lower team1) (lower team2) in
    let words1 := word_set (lower team1) in
    let words2 := word_set (lower team2) in
    let word_similarity :=
      if (bool_decide (words1 = ∅) || bool_decide (words2 = ∅))%bool then 0
      else
        let intersection := size (words1 ∩ words2) in
        let union := size (words1 ∪ words2) in
        if (0 <? union)%nat
        then inject_Z (Z.of_nat intersection) / inject_Z (Z.of_nat union)
        else 0 in
    let substring_similarity :=
      if (contains (lower team1) (lower team2)
          || contains (lower team2) (lower team1))%bool then 0.8 else 0 in
    let abbrev_similarity := _check_abbreviation_match team1 team2 in
    let total_similarity :=
      sequence_similarity * 0.4 + word_similarity * 0.3
      + substring_similarity * 0.2 + abbrev_similarity * 0.1 in
    py_min total_similarity 1.

(** The [ValueError] of [get_bookmaker_adapter]. *)
Definition unsupported (bookmaker : string) : exn :=
  ValueError ("Unsupported bookmaker: " +:+ bookmaker
              +:+ ". Supported bookmakers: "
              +:+ join ", " (List.map fst adapters)).

Definition adapter_of (bookmaker : string) : result BookmakerConfig :=
  match get_bookmaker_adapter bookmaker with
  | Some a => Ok a
  | None => Raise (unsupported bookmaker)
  end.

Definition fuzzy_match_team_names
           (source_home source_away target_home target_away : string)
           (source_bookmaker target_bookmaker : string)
  : result (Q * bool) :=
  match adapter_of source_bookmaker with
  | Raise e => Raise e
  | Ok source_adapter =>
  match adapter_of target_bookmaker with
  | Raise e => Raise e
  | Ok target_adapter =>
      let norm_source_home := normalize_game_name source_adapter source_home in
      let norm_source_away := normalize_game_name source_adapter source_away in
      let norm_target_home := normalize_game_name target_adapter target_home in
      let norm_target_away := normalize_game_name target_adapter target_away in
      let normal_score :=
        (_calculate_team_similarity norm_source_home norm_target_home
         + _calculate_team_similarity norm_source_away norm_target_away) / 2 in
      let swapped_score :=
        (_calculate_team_similarity norm_source_home norm_target_away
         + _calculate_team_similarity norm_source_away norm_target_home) / 2 in
      if Qle_bool swapped_score normal_score
      then Ok (normal_score, false)
      else Ok (swapped_score, true)
  end
  end.

Definition compare_odds (self : MarketMatcher) (original_odds target_odds : Q)
           (tolerance : option Q) : bool * pyfloat :=
  let tolerance :=
    match tolerance with
    | None => odds_tolerance self
    | Some t => t
    end in
  if (Qle_bool original_odds 0 || Qle_bool target_odds 0)%bool
  then (false, Inf)
  else
    let difference := Float64.abs (Float64.sub original_odds target_odds) in
    let within_tolerance := Qle_bool difference tolerance in
    (within_tolerance, Fin difference).

Definition _calculate_market_mapping_confidence
           (original normalized mapped : string) : Q :=
  if (String.eqb original normalized && String.eqb normalized mapped)%bool
  then 0.6
  else if negb (String.eqb original mapped) then 0.9
  else if negb (String.eqb original normalized) then 0.8
  else 0.7.

Definition cache_key (source_bookmaker target_bookmaker market : string)
  : string :=
  source_bookmaker +:+ "_" +:+ target_bookmaker +:+ "_" +:+ lower market.

(** The computation below the cache test of
    [map_market_across_bookmakers]. *)
Definition compute_market_mapping (market source_bookmaker target_bookmaker : string)
  : result (string * Q) :=
  match adapter_of source_bookmaker with
  | Raise e => Raise e
  | Ok source_adapter =>
  match adapter_of target_bookmaker with
  | Raise e => Raise e
  | Ok target_adapter =>
      let normalized_market := map_market_name source_adapter market in
      let target_market := map_market_name target_adapter normalized_market in
      let confidence :=
        _calculate_market_mapping_confidence
          market normalized_market target_market in
      Ok (target_market, confidence)
  end
  end.

Definition map_market_across_bookmakers (self : MarketMatcher)
           (market source_bookmaker target_bookmaker : string)
  : result (string * Q) * MarketMatcher :=
  let key := cache_key source_bookmaker target_bookmaker market in
  match _market_mapping_cache self !! key with
  | Some cached => (Ok cached, self)
  | None =>
      match compute_market_mapping market source_bookmaker target_bookmaker with
      | Raise e => (Raise e, self)
      | Ok r =>
          (Ok r,
           {| odds_tolerance := odds_tolerance self;
              _market_mapping_cache := <[key := r]> (_market_mapping_cache self) |})
      end
  end.

Definition game_label (game : CandidateGame) : string :=
  game_home game +:+ " vs " +:+ game_away game.

(** The loop of [check_game_availability]; [best] is the pair
    ([best_match], [best_confidence]). *)
Fixpoint best_game_loop (selection : Selection) (bookmaker : string)
         (games : list CandidateGame) (best : option CandidateGame * Q)
  : result (option CandidateGame * Q) :=
  match games with
  | [] => Ok best
  | game :: rest =>
      if (is_empty (game_home game) || is_empty (game_away game))%bool
      then best_game_loop selection bookmaker rest best
      else
        match fuzzy_match_team_names
                (home_team selection) (away_team selection)
                (game_home game) (game_away game) "bet9ja" bookmaker with
        | Raise e => Raise e
        | Ok (confidence, _) =>
            best_game_loop selection bookmaker rest
              (if Qlt_bool (snd best) confidence
               then (Some game, confidence) else best)
        end
  end.

Definition unavailable (confidence : Q) : GameAvailability :=
  {| available := false; game_name := None; ga_home_team := None;
     ga_away_team := None; markets := []; ga_confidence := confidence |}.

Definition check_game_availability (selection : Selection)
           (bookmaker : string) (available_games : list CandidateGame)
  : result GameAvailability :=
  match available_games with
  | [] => Ok (unavailable 0)
  | _ :: _ =>
      match adapter_of bookmaker with
      | Raise e => Raise e
      | Ok _ =>
          match best_game_loop selection bookmaker available_games (None, 0) with
          | Raise e => Raise e
          | Ok (best_match, best_confidence) =>
              match Qle_bool 0.7 best_confidence, best_match with
              | true, Some game =>
                  Ok {| available := true;
                        game_name := Some (game_label game);
                        ga_home_team := Some (game_home game);
                        ga_away_team := Some (game_away game);
                        markets := game_markets game;
                        ga_confidence := best_confidence |}
              | _, _ => Ok (unavailable best_confidence)
              end
          end
      end
  end.

(** The loop of [check_market_availability]: [inl] is the early return
    on a direct match, [inr] the pair ([best_match], [best_confidence])
    left when the loop runs to its end. *)
Fixpoint market_loop (mapped_market : string) (available_markets : list string)
         (best : option string * Q) : string + (option string * Q) :=
  match available_markets with
  | [] => inr best
  | available_market :: rest =>
      if String.eqb (lower mapped_market) (lower available_market)
      then inl available_market
      else
        let similarity :=
          Difflib.ratio (lower mapped_market) (lower available_market) in
        market_loop mapped_market rest
          (if Qlt_bool (snd best) similarity
           then (Some available_market, similarity) else best)
  end.

(** The second component is [None] where Python would return [None]
    for the market name. *)
Definition check_market_availability (self : MarketMatcher)
           (selection : Selection) (bookmaker : string)
           (available_markets : list string)
  : result (bool * option string * Q) * MarketMatcher :=
  match available_markets with
  | [] => (Ok (false, Some (market selection), 0), self)
  | _ :: _ =>
      match map_market_across_bookmakers self (market selection)
              "bet9ja" bookmaker with
      | (Raise e, self') => (Raise e, self')
      | (Ok (mapped_market, mapping_confidence), self') =>
          match market_loop mapped_market available_markets (None, 0) with
          | inl available_market => (Ok (true, Some available_market, 1), self')
          | inr (best_match, best_confidence) =>
              let available := Qle_bool 0.8 best_confidence in
              let final_market :=
                if available then best_match else Some mapped_market in
              let final_confidence := best_confidence * mapping_confidence in
              (Ok (available, final_market, final_confidence), self')
          end
      end
  end.

(** "Find the matching game data": the first game scoring at least 0.7. *)
Fixpoint find_matching_game (selection : Selection) (bookmaker : string)
         (games : list CandidateGame) : result (option CandidateGame) :=
  match games with
  | [] => Ok None
  | game :: rest =>
      match fuzzy_match_team_names
              (home_team selection) (away_team selection)
              (game_home game) (game_away game) "bet9ja" bookmaker with
      | Raise e => Raise e
      | Ok (confidence, _) =>
          if Qle_bool 0.7 confidence then Ok (Some game)
          else find_matching_game selection bookmaker rest
      end
  end.

(** "Find odds for the matched market": the odds of the first market
    whose name equals [mapped_market] up to letter case. *)
Fixpoint find_odds (mapped_market : string)
         (available_markets : list CandidateMarket) : option Q :=
  match available_markets with
  | [] => None
  | m :: rest =>
      if String.eqb (lower (name m)) (lower mapped_market)
      then Some (listed_odds m)
      else find_odds mapped_market rest
  end.

Definition failure (confidence : Q) (game mkt : option string)
           (warnings : list string) : MatchResult :=
  {| success := false; confidence := confidence; matched_game := game;
     matched_market := mkt; matched_odds := None; original_odds := None;
     odds_difference := None; warnings := warnings |}.

Definition game_not_found (selection : Selection) : string :=
  "Game not found: " +:+ home_team selection +:+ " vs "
    +:+ away_team selection.

Definition odds_warning (odds_difference : pyfloat) : string :=
  "Odds difference too large: " +:+ format_3f odds_difference.

Definition overall_confidence (game_confidence market_confidence : Q)
           (odds_within_tolerance : bool) : Q :=
  game_confidence * 0.4 + market_confidence * 0.4
  + (if odds_within_tolerance then 1 else 0.5) * 0.2.

Definition match_selection (self : MarketMatcher) (selection : Selection)
           (bookmaker : string) (available_games : list CandidateGame)
           (tolerance : option Q) : result MatchResult * MarketMatcher :=
  match check_game_availability selection bookmaker available_games with
  | Raise e => (Raise e, self)
  | Ok game_availability =>
  if negb (available game_availability)
  then (Ok (failure (ga_confidence game_availability) None None
                    [game_not_found selection]), self)
  else
  match find_matching_game selection bookmaker available_games with
  | Raise e => (Raise e, self)
  | Ok None =>
      (Ok (failure 0 None None ["Could not find matching game data"]), self)
  | Ok (Some matching_game) =>
  let available_markets := game_markets matching_game in
  match check_market_availability self selection bookmaker
          (List.map name available_markets) with
  | (Raise e, self') => (Raise e, self')
  | (Ok (market_available, mapped_market, market_confidence), self') =>
  if negb market_available
  then (Ok (failure market_confidence (game_name game_availability) None
                    ["Market not available: " +:+ market selection]), self')
  else
  match mapped_market with
  | None => (Raise (AttributeError "lower"), self')
  | Some mapped =>
  let matched := find_odds mapped available_markets in
  match matched with
  | Some o =>
      if Qle_bool o 0
      then (Ok (failure market_confidence (game_name game_availability)
                        mapped_market ["No valid odds found for market"]),
            self')
      else
        let '(odds_within_tolerance, difference) :=
          compare_odds self' (odds selection) o tolerance in
        let warnings :=
          if odds_within_tolerance then [] else [odds_warning difference] in
        (Ok {| success := true;
               confidence :=
                 overall_confidence (ga_confidence game_availability)
                   market_confidence odds_within_tolerance;
               matched_game := game_name game_availability;
               matched_market := mapped_market;
               matched_odds := Some o;
               original_odds := Some (odds selection);
               odds_difference := Some difference;
               warnings := warnings |}, self')
  | None =>
      (Ok (failure market_confidence (game_name game_availability)
                   mapped_market ["No valid odds found for market"]), self')
  end
  end
  end
  end
  end.

End Matcher.

(** ** The browser instance pool ([parallel_browser_manager.py]) *)

Module Pool.
Local Open Scope list_scope.

(** Identity of a [BrowserInstance] object. The pool's [dict] and the
    callers hold references to the same mutable objects, so the objects
    live in a store indexed by reference. *)
Abbreviation ref := nat (only parsing).

(** The id [f"browser_{len(self.instances)}_{int(time.time())}"], kept as
    the pair of numbers the format string renders; two ids are the same
    string exactly when the pairs are equal. *)
Abbreviation instance_id := (nat * Z)%type (only parsing).

Definition render_id (i : instance_id) : string :=
  "browser_" +:+ pretty (fst i) +:+ "_" +:+ pretty (snd i).

(** [BrowserInstance], without the opaque [agent]. Times are clock
    readings in whole seconds. *)
Record BrowserInstance : Type := {
  id : instance_id;
  in_use : bool;
  created_at : Z;
  last_used : Z;
  usage_count : nat;
  max_usage : nat
}.

Record BrowserInstancePool : Type := {
  max_instances : nat;
  objects : gmap ref BrowserInstance;
  instances : gmap instance_id ref;
  available_instances : list instance_id;   (* FIFO [Queue] *)
  cleanup_interval : Z;
  last_cleanup : Z
}.

(** [BrowserInstancePool(max_instances)] built at clock reading [now]. *)
Definition new_pool (max_instances : nat) (now : Z) : BrowserInstancePool :=
  {| max_instances := max_instances; objects := ∅; instances := ∅;
     available_instances := []; cleanup_interval := 300;
     last_cleanup := now |}.

Definition set_objects (o : gmap ref BrowserInstance)
           (p : BrowserInstancePool) : BrowserInstancePool :=
  {| max_instances := max_instances p; objects := o;
     instances := instances p;
     available_instances := available_instances p;
     cleanup_interval := cleanup_interval p;
     last_cleanup := last_cleanup p |}.

Definition set_instances (i : gmap instance_id ref)
           (p : BrowserInstancePool) : BrowserInstancePool :=
  {| max_instances := max_instances p; objects := objects p;
     instances := i;
     available_instances := available_instances p;
     cleanup_interval := cleanup_interval p;
     last_cleanup := last_cleanup p |}.

Definition set_available (a : list instance_id)
           (p : BrowserInstancePool) : BrowserInstancePool :=
  {| max_instances := max_instances p; objects := objects p;
     instances := instances p;
     available_instances := a;
     cleanup_interval := cleanup_interval p;
     last_cleanup := last_cleanup p |}.

Definition set_last_cleanup (t : Z)
           (p : BrowserInstancePool) : BrowserInstancePool :=
  {| max_instances := max_instances p; objects := objects p;
     instances := instances p;
     available_instances := available_instances p;
     cleanup_interval := cleanup_interval p;
     last_cleanup := t |}.

(** [instance.in_use = True; instance.last_used = datetime.now()] *)
Definition check_out (now : Z) (i : BrowserInstance) : BrowserInstance :=
  {| id := id i; in_use := true; created_at := created_at i;
     last_used := now; usage_count := usage_count i;
     max_usage := max_usage i |}.

(** [instance.in_use = False; instance.usage_count += 1] *)
Definition check_in (i : BrowserInstance) : BrowserInstance :=
  {| id := id i; in_use := false; created_at := created_at i;
     last_used := last_used i; usage_count := S (usage_count i);
     max_usage := max_usage i |}.

Definition _create_instance (now : Z) (p : BrowserInstancePool)
  : ref * BrowserInstancePool :=
  let instance_id := (size (instances p), now) in
  let instance :=
    {| id := instance_id; in_use := true; created_at := now;
       last_used := now; usage_count := 0; max_usage := 50 |} in
  let r : ref := fresh (dom (objects p)) in
  (r, set_instances (<[instance_id := r]> (instances p))
        (set_objects (<[r := instance]> (objects p)) p)).

Definition exhausted : exn :=
  Exception
    "No browser instances available and pool is at maximum capacity".

(** [get_instance], called at clock reading [now]. *)
Definition get_instance (now : Z) (p : BrowserInstancePool)
  : result ref * BrowserInstancePool :=
  match available_instances p with
  | instance_id :: rest =>
      let p := set_available rest p in
      match instances p !! instance_id with
      | None => (Raise (KeyError (render_id instance_id)), p)
      | Some r =>
          (Ok r, set_objects (alter (check_out now) r (objects p)) p)
      end
  | [] =>
      if size (instances p) <? max_instances p
      then let '(r, p') := _create_instance now p in (Ok r, p')
      else (Raise exhausted, p)
  end.

(** [_recycle_instance]. [close_fails] tells whether scheduling the
    close of the agent's browser raises; the handler then swallows the
    exception before the [del] is reached. A [del] of an absent key
    raises [KeyError], swallowed as well. *)
Definition _recycle_instance (close_fails : bool) (instance : BrowserInstance)
           (p : BrowserInstancePool) : BrowserInstancePool :=
  if close_fails then p
  else set_instances (delete (id instance) (instances p)) p.

(** [release_instance(instance)] for the object behind [r]. *)
Definition release_instance (close_fails : bool) (r : ref)
           (p : BrowserInstancePool) : BrowserInstancePool :=
  match objects p !! r with
  | None => p
  | Some instance =>
      let instance := check_in instance in
      let p := set_objects (<[r := instance]> (objects p)) p in
      if max_usage instance <=? usage_count instance
      then _recycle_instance close_fails instance p
      else set_available (available_instances p ++ [id instance]) p
  end.

(** [(datetime.now() - instance.last_used).seconds]: the seconds field
    of a [timedelta], which leaves whole days out. *)
Definition idle_seconds (now last_used : Z) : Z :=
  ((now - last_used) mod 86400)%Z.

Definition stale (now : Z) (p : BrowserInstancePool)
           (entry : instance_id * ref) : bool :=
  match objects p !! snd entry with
  | Some instance =>
      (negb (in_use instance)
       && (1800 <? idle_seconds now (last_used instance))%Z)%bool
  | None => false
  end.

(** [cleanup_instances], called at clock reading [now]. *)
Definition cleanup_instances (now : Z) (close_fails : instance_id -> bool)
           (p : BrowserInstancePool) : BrowserInstancePool :=
  if (now - last_cleanup p <? cleanup_interval p)%Z then p
  else
    let instances_to_remove :=
      List.filter (stale now p) (map_to_list (instances p)) in
    let p :=
      fold_left
        (fun p entry =>
           match objects p !! snd entry with
           | Some instance =>
               _recycle_instance (close_fails (fst entry)) instance p
           | None => p
           end)
        instances_to_remove p in
    set_last_cleanup now p.

Definition shutdown (p : BrowserInstancePool) : BrowserInstancePool :=
  set_available [] (set_instances ∅ p).

(** *** Runs of the pool *)

Inductive operation : Type :=
| Acquire (now : Z)
| Release (close_fails : bool) (r : ref).

(** What an acquisition answered, or [None] for a release. *)
Definition step (op : operation) (p : BrowserInstancePool)
  : option (result ref) * BrowserInstancePool :=
  match op with
  | Acquire now => let '(r, p') := get_instance now p in (Some r, p')
  | Release close_fails r => (None, release_instance close_fails r p)
  end.

Fixpoint run (ops : list operation) (p : BrowserInstancePool)
  : list (option (result ref)) * BrowserInstancePool :=
  match ops with
  | [] => ([], p)
  | op :: ops' =>
      let '(a, p') := step op p in
      let '(answers, p'') := run ops' p' in
      (a :: answers, p'')
  end.

(** [n] rounds of "acquire, then release what was acquired", all at
    clock reading [now]. *)
Fixpoint cycles (n : nat) (now : Z) (p : BrowserInstancePool)
  : list instance_id * BrowserInstancePool :=
  match n with
  | O => ([], p)
  | S n' =>
      match get_instance now p with
      | (Ok r, p1) =>
          let used :=
            match objects p1 !! r with
            | Some instance => [id instance]
            | None => []
            end in
          let '(ids, p2) := cycles n' now (release_instance false r p1) in
          (used ++ ids, p2)
      | (Raise _, p1) => ([], p1)
      end
  end.

End Pool.

(** ** The conversion queue and the worker loop *)

Module Worker.
Import Pool.
Local Open Scope list_scope.

Record ConversionTask : Type := {
  task_id : string;
  betslip_code : string;
  source_bookmaker : string;
  destination_bookmaker : string;
  priority : Z;
  created_at : Z
}.

(** The two shapes of result [dict] a worker stores. *)
Inductive task_result : Type :=
| Converted (new_betslip_code : string)
            (converted_selections : list Matcher.Selection)
            (task : string) (processing_time : Z)
| Failed (error : string) (task : string).

Record ConversionQueue : Type := {
  max_size : Z;
  queue : list ConversionTask;                    (* [Queue(maxsize)] *)
  processing_tasks : gmap string ConversionTask;
  completed_tasks : gmap string task_result
}.

Definition new_queue (max_size : Z) : ConversionQueue :=
  {| max_size := max_size; queue := []; processing_tasks := ∅;
     completed_tasks := ∅ |}.

(** [add_task]: [put(block=False)] raises [Full] when [maxsize > 0] and
    the queue holds [maxsize] items; the handler answers [False]. *)
Definition add_task (task : ConversionTask) (q : ConversionQueue)
  : bool * ConversionQueue :=
  if ((0 <? max_size q)%Z && (max_size q <=? Z.of_nat (length (queue q)))%Z)%bool
  then (false, q)
  else (true,
        {| max_size := max_size q; queue := queue q ++ [task];
           processing_tasks := processing_tasks q;
           completed_tasks := completed_tasks q |}).

(** [get_task]: [None] when the queue stays empty for the timeout. *)
Definition get_task (q : ConversionQueue)
  : option ConversionTask * ConversionQueue :=
  match queue q with
  | [] => (None, q)
  | task :: rest =>
      (Some task,
       {| max_size := max_size q; queue := rest;
          processing_tasks := <[task_id task := task]> (processing_tasks q);
          completed_tasks := completed_tasks q |})
  end.

Definition complete_task (task : string) (result : task_result)
           (q : ConversionQueue) : ConversionQueue :=
  {| max_size := max_size q; queue := queue q;
     processing_tasks := delete task (processing_tasks q);
     completed_tasks := <[task := result]> (completed_tasks q) |}.

Definition get_result (task : string) (q : ConversionQueue)
  : option task_result :=
  completed_tasks q !! task.

Definition get_queue_size (q : ConversionQueue) : nat := length (queue q).

Definition get_processing_count (q : ConversionQueue) : nat :=
  size (processing_tasks q).

(** The calls a worker makes on the pool and on the queue, in order. *)
Inductive call : Type :=
| GetInstance (r : ref)
| ReleaseInstance (r : ref)
| CompleteTask (task : string) (result : task_result).

(** How a delegated call to the external agent ends. *)
Inductive outcome (A : Type) : Type :=
| Returned (a : A)
| Raised (message : string).
Arguments Returned {A} a.
Arguments Raised {A} message.

(** What the surroundings supply to one pass of [_process_conversion_task]:
    the clock, the end of [_extract_selections_with_instance] and of
    [_create_betslip_with_instance], and whether closing a recycled
    browser fails. *)
Record agent_run : Type := {
  started_at : Z;
  extraction : outcome (list Matcher.Selection);
  creation : outcome string;
  close_fails : bool;
  finished_at : Z
}.

Definition str (e : exn) : string :=
  match e with
  | ValueError msg | AttributeError msg | Exception msg => msg
  | KeyError key => "'" +:+ key +:+ "'"
  end.

Definition _process_conversion_task (env : agent_run) (task : ConversionTask)
           (pool : BrowserInstancePool)
  : task_result * BrowserInstancePool * list call :=
  match get_instance (started_at env) pool with
  | (Raise e, pool) => (Failed (str e) (task_id task), pool, [])
  | (Ok instance, pool) =>
      let result :=
        match extraction env with
        | Raised message => Failed message (task_id task)
        | Returned [] =>
            Failed "No selections found in betslip" (task_id task)
        | Returned selections =>
            match creation env with
            | Raised message => Failed message (task_id task)
            | Returned new_betslip_code =>
                Converted new_betslip_code selections (task_id task)
                  ((finished_at env - created_at task) * 1000)
            end
        end in
      (* finally *)
      (result, release_instance (close_fails env) instance pool,
       [GetInstance instance; ReleaseInstance instance])
  end.

Record ParallelBrowserManager : Type := {
  browser_pool : BrowserInstancePool;
  conversion_queue : ConversionQueue
}.

(** One pass of the loop body of [_worker_loop]. [run_fails] is the
    message of an exception raised by [asyncio.run] itself, before the
    task is processed. *)
Record iteration : Type := {
  run_fails : option string;
  agent : agent_run;
  cleanup_at : Z;
  cleanup_close_fails : instance_id -> bool
}.

Definition worker_iteration (env : iteration) (m : ParallelBrowserManager)
  : ParallelBrowserManager * list call :=
  match get_task (conversion_queue m) with
  | (None, q) =>
      (* continue *)
      ({| browser_pool := browser_pool m; conversion_queue := q |}, [])
  | (Some task, q) =>
      let '(result, pool, calls) :=
        match run_fails env with
        | Some message =>
            (* except Exception *)
            (Failed message (task_id task), browser_pool m, [])
        | None => _process_conversion_task (agent env) task (browser_pool m)
        end in
      let q := complete_task (task_id task) result q in
      let pool :=
        cleanup_instances (cleanup_at env) (cleanup_close_fails env) pool in
      ({| browser_pool := pool; conversion_queue := q |},
       calls ++ [CompleteTask (task_id task) result])
  end.

(** The loop, one element of [envs] per pass until shutdown. *)
Fixpoint _worker_loop (envs : list iteration) (m : ParallelBrowserManager)
  : ParallelBrowserManager * list call :=
  match envs with
  | [] => (m, [])
  | env :: envs' =>
      let '(m', calls) := worker_iteration env m in
      let '(m'', calls') := _worker_loop envs' m' in
      (m'', calls ++ calls')
  end.

Definition queue_full : exn :=
  Exception "Conversion queue is full. Please try again later.".

(** [convert_betslip_parallel], called at clock reading [now]. *)
Definition convert_betslip_parallel (now : Z)
           (betslip_code source_bookmaker destination_bookmaker : string)
           (m : ParallelBrowserManager)
  : result string * ParallelBrowserManager :=
  let task_id :=
    "task_" +:+ pretty now +:+ "_" +:+ betslip_code +:+ "_"
      +:+ source_bookmaker +:+ "_" +:+ destination_bookmaker in
  let task :=
    {| task_id := task_id; betslip_code := betslip_code;
       source_bookmaker := source_bookmaker;
       destination_bookmaker := destination_bookmaker;
       priority := 0; created_at := now |} in
  match add_task task (conversion_queue m) with
  | (false, _) => (Raise queue_full, m)
  | (true, q) =>
      (Ok task_id, {| browser_pool := browser_pool m; conversion_queue := q |})
  end.

Definition completions (task : string) (calls : list call) : nat :=
  length (List.filter
            (fun c => match c with
                      | CompleteTask t _ => String.eqb t task
                      | _ => false
                      end) calls).

Definition acquisitions (r : ref) (calls : list call) : nat :=
  length (List.filter
            (fun c => match c with
                      | GetInstance r' => Nat.eqb r' r
                      | _ => false
                      end) calls).

Definition releases (r : ref) (calls : list call) : nat :=
  length (List.filter
            (fun c => match c with
                      | ReleaseInstance r' => Nat.eqb r' r
                      | _ => false
                      end) calls).

Definition occurrences (task : string) (ids : list string) : nat :=
  length (List.filter (String.eqb task) ids).

(** The tasks a worker takes off the queue in [n] passes. *)
Definition dequeued (n : nat) (q : ConversionQueue) : list string :=
  List.map task_id (List.firstn n (queue q)).

End Worker.

(** ** The remaining adapter methods ([bookmaker_adapters.py]) *)

Module AdapterTools.
Import Text Adapters.
Local Open Scope list_scope.

(** The list [variations] of [get_search_variations]. *)
Definition variations (config : BookmakerConfig)
           (home_team away_team : string) : list string :=
  let home_normalized := normalize_game_name config home_team in
  let away_normalized := normalize_game_name config away_team in
  [ home_team +:+ " vs " +:+ away_team;
    away_team +:+ " vs " +:+ home_team;
    home_team +:+ " " +:+ away_team;
    away_team +:+ " " +:+ home_team;
    home_normalized +:+ " vs " +:+ away_normalized;
    away_normalized +:+ " vs " +:+ home_normalized;
    home_normalized +:+ " " +:+ away_normalized;
    away_normalized +:+ " " +:+ home_normalized;
    home_team;
    away_team;
    home_normalized;
    away_normalized ].

(** "Remove duplicates while preserving order": the loop over
    [variations] with its set [seen] and its list [unique_variations]. *)
Fixpoint unique_loop (variations : list string) (seen : gset string)
         (unique_variations : list string) : list string :=
  match variations with
  | [] => unique_variations
  | variation :: rest =>
      if bool_decide (variation ∈ seen)
      then unique_loop rest seen unique_variations
      else unique_loop rest ({[variation]} ∪ seen)
                       (unique_variations ++ [variation])
  end.

Definition get_search_variations (config : BookmakerConfig)
           (home_team away_team : string) : list string :=
  unique_loop (variations config home_team away_team) ∅ [].

(** [validate_odds_range(odds, expected_odds, tolerance=0.10)] *)
Definition validate_odds_range (odds expected_odds : Q)
           (tolerance : option Q) : bool :=
  let tolerance :=
    match tolerance with
    | None => Float64.literal 0.10
    | Some t => t
    end in
  if (Qle_bool odds 0 || Qle_bool expected_odds 0)%bool then false
  else
    let difference := Float64.abs (Float64.sub odds expected_odds) in
    Qle_bool difference tolerance.

(** [s[n:]] *)
Fixpoint drop_chars (n : nat) (s : string) : string :=
  match n, s with
  | S n', String _ r => drop_chars n' r
  | _, _ => s
  end.

(** [s.split(sep, 1)] for a non-empty [sep]: the text before and the
    text after the leftmost occurrence of [sep]; [None] when [sep] does
    not occur and the split has a single element. *)
Fixpoint split_once (sep s : string) : option (string * string) :=
  match s with
  | EmptyString => None
  | String c r =>
      if starts_with sep s
      then Some (EmptyString, drop_chars (String.length sep) s)
      else
        match split_once sep r with
        | Some (before, after) => Some (String c before, after)
        | None => None
        end
  end.

Definition separators : list string := [" vs "; " v "; " - "; " x "].

(** The loop of [extract_teams_from_game_name] over [separators]. *)
Fixpoint separator_loop (game_name : string) (separators : list string)
  : option string * option string :=
  match separators with
  | [] => (None, None)
  | separator :: rest =>
      if contains separator game_name
      then
        match split_once separator game_name with
        | Some (before, after) =>            (* len(teams) == 2 *)
            let home_team := strip before in
            let away_team := strip after in
            if (negb (is_empty home_team) && negb (is_empty away_team))%bool
            then (Some home_team, Some away_team)
            else separator_loop game_name rest
        | None => separator_loop game_name rest
        end
      else separator_loop game_name rest
  end.

Definition extract_teams_from_game_name (game_name : string)
  : option string * option string :=
  separator_loop game_name separators.

(** The [ValueError] of [get_bookmaker_adapter], with its full text. *)
Definition unsupported_bookmaker (bookmaker_id : string) : exn :=
  ValueError ("Unsupported bookmaker: " +:+ bookmaker_id
              +:+ ". Supported bookmakers: "
              +:+ join ", " (List.map fst adapters)).

End AdapterTools.

(** ** The remaining methods of the matching engine ([market_matcher.py]) *)

Module MatcherTools.
Import Text Adapters Matcher.

(** [MarketMatcher.get_search_variations] *)
Definition get_search_variations (home_team away_team bookmaker : string)
  : result (list string) :=
  match get_bookmaker_adapter bookmaker with
  | Some adapter =>
      Ok (AdapterTools.get_search_variations adapter home_team away_team)
  | None => Raise (AdapterTools.unsupported_bookmaker bookmaker)
  end.

(** [MarketMatcher.validate_odds_range] *)
Definition validate_odds_range (self : MarketMatcher)
           (odds expected_odds : Q) (tolerance : option Q) : bool :=
  let tolerance :=
    match tolerance with
    | None => odds_tolerance self
    | Some t => t
    end in
  let '(within_tolerance, _) :=
    compare_odds self expected_odds odds (Some tolerance) in
  within_tolerance.

End MatcherTools.

(** ** Callers of the queue and of the pool ([parallel_browser_manager.py]) *)

Module Manager.
Import Pool Worker.
Local Open Scope list_scope.

(** [get_conversion_result] *)
Definition get_conversion_result (task : string) (m : ParallelBrowserManager)
  : option task_result :=
  get_result task (conversion_queue m).

(** The [task_id] entry of a stored result. *)
Definition result_task (r : task_result) : string :=
  match r with
  | Converted _ _ task _ => task
  | Failed _ task => task
  end.

(** The entries of the status [dict] computed from the manager's own
    state; [memory_usage_mb] is read from the operating system. *)
Record queue_status : Type := {
  queue_size : nat;
  processing_count : nat;
  active_instances : nat;
  total_instances : nat
}.

(** [i.in_use] for the object stored under a key of [instances]. *)
Definition busy (p : BrowserInstancePool) (entry : instance_id * ref) : bool :=
  match objects p !! snd entry with
  | Some instance => in_use instance
  | None => false
  end.

Definition get_queue_status (m : ParallelBrowserManager) : queue_status :=
  {| queue_size := get_queue_size (conversion_queue m);
     processing_count := get_processing_count (conversion_queue m);
     active_instances :=
       length (List.filter (busy (browser_pool m))
                           (map_to_list (instances (browser_pool m))));
     total_instances := size (instances (browser_pool m)) |}.

(** *** [process_multiple_selections_parallel] *)

Section Selections.
(** What [_process_single_selection] answers for a selection: the
    value under "success" in the agent's reply, [no] (Python's
    [False]) on any failure. *)
Variable value : Type.
Variable no : value.

(** What the surroundings supply for one selection: the clock at the
    acquisition of its instance, how its task ends under
    [asyncio.gather(..., return_exceptions=True)], and whether closing
    the browser fails should the release recycle the instance. *)
Record selection_run : Type := {
  acquired_at : Z;
  task_outcome : outcome value;
  release_close_fails : bool
}.

(** [False if isinstance(result, Exception) else result] *)
Definition status (env : selection_run) : value :=
  match task_outcome env with
  | Returned result => result
  | Raised _ => no
  end.

(** [for _ in batch: instances.append(await get_instance())] *)
Fixpoint acquire_loop (batch : list (Matcher.Selection * selection_run))
         (pool : BrowserInstancePool) (instances : list ref)
  : option exn * list ref * BrowserInstancePool :=
  match batch with
  | [] => (None, instances, pool)
  | (_, env) :: rest =>
      match get_instance (acquired_at env) pool with
      | (Raise e, pool) => (Some e, instances, pool)
      | (Ok instance, pool) => acquire_loop rest pool (instances ++ [instance])
      end
  end.

(** [finally: for instance in instances: release_instance(instance)] *)
Fixpoint release_loop (batch : list (Matcher.Selection * selection_run))
         (instances : list ref) (pool : BrowserInstancePool)
  : BrowserInstancePool :=
  match instances, batch with
  | instance :: instances', (_, env) :: batch' =>
      release_loop batch' instances'
        (release_instance (release_close_fails env) instance pool)
  | _, _ => pool
  end.

(** The body of the loop over [batches]: the exception that leaves it,
    if any, the pairs appended to [results], the pool, and the calls
    made on the pool. *)
Definition process_batch (batch : list (Matcher.Selection * selection_run))
           (pool : BrowserInstancePool)
  : option exn * list (Matcher.Selection * value) * BrowserInstancePool
    * list call :=
  let '(raised, instances, pool) := acquire_loop batch pool [] in
  let pool := release_loop batch instances pool in
  let calls :=
    List.map GetInstance instances ++ List.map ReleaseInstance instances in
  match raised with
  | Some e => (Some e, [], pool, calls)
  | None =>
      (None,
       List.map (fun '(selection, env) => (selection, status env)) batch,
       pool, calls)
  end.

(** [[selections[i:i + batch_size] for i in range(0, len(selections),
    batch_size)]] for a positive [batch_size]; [fuel] bounds the
    number of slices. *)
Fixpoint batches_of {A : Type} (fuel batch_size : nat) (selections : list A)
  : list (list A) :=
  match fuel with
  | O => []
  | S fuel' =>
      match selections with
      | [] => []
      | _ :: _ =>
          List.firstn batch_size selections
            :: batches_of fuel' batch_size (List.skipn batch_size selections)
      end
  end.

Fixpoint batch_loop (batches : list (list (Matcher.Selection * selection_run)))
         (pool : BrowserInstancePool)
         (results : list (Matcher.Selection * value))
  : result (list (Matcher.Selection * value)) * BrowserInstancePool
    * list call :=
  match batches with
  | [] => (Ok results, pool, [])
  | batch :: rest =>
      match process_batch batch pool with
      | (Some e, _, pool, calls) => (Raise e, pool, calls)
      | (None, batch_results, pool, calls) =>
          let '(answer, pool, calls') :=
            batch_loop rest pool (results ++ batch_results) in
          (answer, pool, calls ++ calls')
      end
  end.

(** [process_multiple_selections_parallel]; each selection comes with
    what the surroundings supply for it. A zero [batch_size] makes
    [range] raise, a negative one makes it empty. *)
Definition process_multiple_selections_parallel (max_concurrent : Z)
           (selections : list (Matcher.Selection * selection_run))
           (pool : BrowserInstancePool)
  : result (list (Matcher.Selection * value)) * BrowserInstancePool
    * list call :=
  match selections with
  | [] => (Ok [], pool, [])
  | _ :: _ =>
      let batch_size :=
        Z.min (Z.of_nat (length selections)) max_concurrent in
      if (batch_size =? 0)%Z
      then (Raise (ValueError "range() arg 3 must not be zero"), pool, [])
      else if (batch_size <? 0)%Z then (Ok [], pool, [])
      else
        batch_loop
          (batches_of (length selections) (Z.to_nat batch_size) selections)
          pool []
  end.
End Selections.

End Manager.

(** ** Sequences of operations on the queue and on the pool *)

Module QueueRuns.
Import Worker.
Local Open Scope list_scope.

Inductive operation : Type :=
| Adds (task : ConversionTask)
| Gets
| Completes (task : string) (result : task_result).

(** What the caller of an operation gets back. *)
Inductive answer : Type :=
| Added (accepted : bool)
| Got (task : option ConversionTask)
| Done.

Definition queue_step (op : operation) (q : ConversionQueue)
  : answer * ConversionQueue :=
  match op with
  | Adds task => let '(accepted, q') := add_task task q in (Added accepted, q')
  | Gets => let '(task, q') := get_task q in (Got task, q')
  | Completes task result => (Done, complete_task task result q)
  end.

Fixpoint queue_run (ops : list operation) (q : ConversionQueue)
  : list answer * ConversionQueue :=
  match ops with
  | [] => ([], q)
  | op :: ops' =>
      let '(a, q') := queue_step op q in
      let '(answers, q'') := queue_run ops' q' in
      (a :: answers, q'')
  end.

End QueueRuns.

Module PoolClients.
Import Pool.
Local Open Scope list_scope.

(** What the holders of instances do to a pool. A release names the
    instance by its position among the instances checked out and not
    yet released, oldest first: clients release what they hold, once. *)
Inductive event : Type :=
| Acquires (now : Z)
| Releases (close_fails : bool) (position : nat)
| CleansUp (now : Z) (close_fails : instance_id -> bool).

Definition without {A : Type} (position : nat) (l : list A) : list A :=
  List.firstn position l ++ List.skipn (S position) l.

(** One event on a pool and on the list of instances held. *)
Definition client_step (e : event) (p : BrowserInstancePool) (held : list ref)
  : BrowserInstancePool * list ref :=
  match e with
  | Acquires now =>
      match get_instance now p with
      | (Ok r, p') => (p', held ++ [r])
      | (Raise _, p') => (p', held)
      end
  | Releases close_fails position =>
      match List.nth_error held position with
      | Some r => (release_instance close_fails r p, without position held)
      | None => (p, held)
      end
  | CleansUp now close_fails => (cleanup_instances now close_fails p, held)
  end.

Fixpoint client_run (events : list event) (p : BrowserInstancePool)
         (held : list ref) : BrowserInstancePool * list ref :=
  match events with
  | [] => (p, held)
  | e :: events' =>
      let '(p', held') := client_step e p held in
      client_run events' p' held'
  end.

End PoolClients.
(** ** Auxiliary predicates used in the proofs *)

Module DifflibInv.
Import Difflib.

(** Entry [p] of a row is at most [n] and at most [c + p]. *)
Fixpoint bounded (n c : nat) (row : list nat) : Prop :=
  match row with
  | [] => True
  | k :: r => k <= n /\ k <= c /\ bounded n (S c) r
  end.

Definition fits (la lb : nat) (m : block) : Prop :=
  fst (fst m) + snd m <= la /\ snd (fst m) + snd m <= lb.

End DifflibInv.

Module MatcherAux.
Import Matcher.
Local Open Scope Q_scope.

(** The tolerance [compare_odds] works with. *)
Definition tolerance_used (self : MarketMatcher) (tolerance : option Q) : Q :=
  match tolerance with
  | None => odds_tolerance self
  | Some t => t
  end.

(** The orientation property read literally: any two non-empty names,
    one supported bookmaker on both sides. *)
Definition orientation_for_all_non_empty_names : Prop :=
  forall (a b bookmaker : string) (cfg : Adapters.BookmakerConfig),
    Adapters.get_bookmaker_adapter bookmaker = Some cfg ->
    a <> EmptyString -> b <> EmptyString ->
    (exists c, fuzzy_match_team_names a b a b bookmaker bookmaker
               = Ok (c, false) /\ c == 1)
    /\ (exists c, fuzzy_match_team_names a b b a bookmaker bookmaker
                  = Ok (c, true) /\ c == 1).

(** The confidence rule read literally: on every return of
    [check_market_availability] the confidence is some similarity score
    in [0, 1] times the mapping confidence. *)
Definition confidence_is_product_in_every_case : Prop :=
  forall (self self1 self2 : MarketMatcher) (selection : Selection)
         (bookmaker : string) (names : list string)
         (mapped : string) (mapping_confidence : Q)
         (available : bool) (final : option string) (confidence : Q),
    names <> [] ->
    map_market_across_bookmakers self (market selection) "bet9ja" bookmaker
    = (Ok (mapped, mapping_confidence), self1) ->
    check_market_availability self selection bookmaker names
    = (Ok (available, final, confidence), self2) ->
    exists similarity,
      0 <= similarity <= 1 /\ confidence == similarity * mapping_confidence.


(** Sample inputs: the selection and the candidate game of the
    engine's own test-suite; odds are written as the tests write them
    and read as Python reads a decimal literal. *)
Definition sample_selection : Selection :=
  {| game_id := "test_game_1"; home_team := "Manchester United";
     away_team := "Liverpool"; market := "Match Result"; odds := 2.50;
     league := "Premier League";
     original_text := "Manchester United vs Liverpool - Match Result @ 2.50" |}.

Definition sample_games (o : Q) : list CandidateGame :=
  [ {| game_home := "Man Utd"; game_away := "Liverpool";
       game_markets :=
         [ {| name := "Match Result"; listed_odds := Float64.literal o |};
           {| name := "Over/Under 2.5";
              listed_odds := Float64.literal 1.85 |} ] |} ].

(** Two candidates for the sample selection: a reserves fixture listed
    first, scoring 0.78, and the fixture itself, scoring 1.0. *)
Definition reserves_first : list CandidateGame :=
  [ {| game_home := "Man Utd"; game_away := "Liverpool Reserves";
       game_markets := [ {| name := "Match Result"; listed_odds := 1.50 |} ] |};
    {| game_home := "Man Utd"; game_away := "Liverpool";
       game_markets :=
         [ {| name := "Match Result";
              listed_odds := Float64.literal 2.48 |} ] |} ].

(** The same two fixtures, the reserves fixture listing corners only. *)
Definition corners_first : list CandidateGame :=
  [ {| game_home := "Man Utd"; game_away := "Liverpool Reserves";
       game_markets := [ {| name := "Corners"; listed_odds := 1.50 |} ] |};
    {| game_home := "Man Utd"; game_away := "Liverpool";
       game_markets :=
         [ {| name := "Match Result";
              listed_odds := Float64.literal 2.48 |} ] |} ].

End MatcherAux.

Module PoolAux.
Import Pool.

(** A pool on which [k] instances were created and nothing else
    happened: all [k] are checked out, unused so far, and carry the
    creation ranks [0 .. k-1] in their ids. *)
Definition fresh_pool_state (capacity k : nat) (p : BrowserInstancePool)
  : Prop :=
  max_instances p = capacity
  /\ available_instances p = []
  /\ size (instances p) = k
  /\ forall iid r,
       instances p !! iid = Some r ->
       fst iid < k
       /\ exists instance,
            objects p !! r = Some instance
            /\ id instance = iid
            /\ usage_count instance = 0
            /\ max_usage instance = 50.

End PoolAux.

Module WorkerAux.
Import Pool Worker.

(** The lifecycle property read literally: whatever the queue holds, no
    task id is completed twice. *)
Definition no_task_id_completed_twice : Prop :=
  forall (envs : list iteration) (m : ParallelBrowserManager) (t : string),
    completions t (snd (_worker_loop envs m)) <= 1.

(** A pass in which the extraction fails at once. *)
Definition failing_pass : iteration :=
  {| run_fails := None;
     agent := {| started_at := 1700000000;
                 extraction := Raised "Betslip not found";
                 creation := Raised "unused";
                 close_fails := false;
                 finished_at := 1700000000 |};
     cleanup_at := 1700000000;
     cleanup_close_fails := fun _ => false |}.

Definition new_manager (max_concurrent : nat) (now : Z)
  : ParallelBrowserManager :=
  {| browser_pool := new_pool max_concurrent now;
     conversion_queue := new_queue 100 |}.

(** The same conversion submitted twice within one clock second. *)
Definition submitted_twice : ParallelBrowserManager :=
  snd (convert_betslip_parallel 1700000000 "ABC123" "bet9ja" "sportybet"
         (snd (convert_betslip_parallel 1700000000 "ABC123" "bet9ja"
                 "sportybet" (new_manager 3 1700000000)))).

End WorkerAux.

(** ** The tables of the repository's own tests *)

Module TestTables.
Import Matcher MatcherAux Pool Worker.
Local Open Scope Q_scope.

(** [test_fuzzy_team_name_matching]: names, bookmakers, the expected
    confidence range and the expected swapped flag. *)
Definition fuzzy_cases
  : list (string * string * string * string * string * string * Q * Q * bool) :=
  [ ("Manchester United", "Liverpool", "Man Utd", "Liverpool",
     "bet9ja", "sportybet", 0.8, 1.0, false);
    ("Real Madrid", "Barcelona", "R Madrid", "Barcelona",
     "bet9ja", "sportybet", 0.8, 1.0, false);
    ("Arsenal", "Chelsea", "Chelsea", "Arsenal",
     "bet9ja", "sportybet", 0.8, 1.0, true);
    ("Manchester City", "Liverpool", "Man City", "Liverpool",
     "bet9ja", "sportybet", 0.9, 1.0, false);
    ("PSG", "Liverpool", "Paris Saint-Germain", "Liverpool",
     "bet9ja", "sportybet", 0.6, 0.8, false);
    ("Random Team A", "Random Team B", "Unknown Team X", "Unknown Team Y",
     "bet9ja", "sportybet", 0.0, 0.3, false) ].

Definition fuzzy_case_passes
           (c : string * string * string * string * string * string * Q * Q * bool)
  : bool :=
  let '(sh, sa, th, ta, sb, tb, lo, hi, swapped) := c in
  match fuzzy_match_team_names sh sa th ta sb tb with
  | Ok (confidence, teams_swapped) =>
      (Qle_bool lo confidence && Qle_bool confidence hi
       && Bool.eqb teams_swapped swapped)%bool
  | Raise _ => false
  end.

(** [test_odds_comparison]: the two odds, the tolerance and the
    expected answer, the numbers as the test writes them. *)
Definition odds_cases : list (Q * Q * option Q * bool) :=
  [ (2.50, 2.45, None, true); (2.50, 2.55, None, true);
    (2.50, 2.60, None, false); (2.50, 2.40, None, false);
    (2.50, 2.60, Some 0.15, true); (2.50, 2.65, Some 0.10, false);
    (1.50, 1.50, None, true); (0, 2.50, None, false);
    (2.50, 0, None, false) ].

(** [test_odds_comparison_edge_cases] of [test_integration_e2e.py] *)
Definition odds_edge_cases : list (Q * Q * option Q * bool) :=
  [ (1.01, 1.01, None, true); (999.99, 999.99, None, true);
    (2.50, 2.55, None, true); (2.50, 2.551, None, false);
    (1.50, 1.45, None, false); (1.50, 1.449, None, false);
    (2.00, 2.10, Some 0.15, true); (2.00, 2.20, Some 0.15, false) ].

Definition odds_case_passes (c : Q * Q * option Q * bool) : bool :=
  let '(original, target, tolerance, expected) := c in
  Bool.eqb (fst (compare_odds (create_market_matcher (Float64.literal 0.05))
                   (Float64.literal original) (Float64.literal target)
                   (option_map Float64.literal tolerance))) expected.

(** The odds validation of [test_bookmaker_adapters.py]: odds, expected
    odds, tolerance and the asserted answer. *)
Definition validation_cases : list (Q * Q * Q * bool) :=
  [ (2.50, 2.55, 0.10, true); (1.80, 1.85, 0.10, true);
    (2.50, 2.70, 0.10, false); (1.50, 1.80, 0.10, false);
    (0, 2.50, 0.10, false); (2.50, -1.0, 0.10, false) ].

Definition validation_case_passes (c : Q * Q * Q * bool) : bool :=
  let '(odds, expected_odds, tolerance, expected) := c in
  Bool.eqb (AdapterTools.validate_odds_range
              (Float64.literal odds) (Float64.literal expected_odds)
              (Some (Float64.literal tolerance))) expected.

(** The kernel's binary64 numbers, to compare [Float64] with: the
    integer [z] as a double, the double a decimal literal denotes (the
    correctly rounded quotient of its numerator and denominator), and
    the rational a finite double equals. *)
Definition machine_integer (z : Z) : float :=
  SF2Prim (binary_normalize prec emax z 0 false).

Definition machine_literal (q : Q) : float :=
  PrimFloat.div (machine_integer (Qnum q))
                (machine_integer (Z.pos (Qden q))).

Definition machine_value (x : float) : option Q :=
  match Prim2SF x with
  | S754_zero _ => Some 0
  | S754_finite s m e =>
      Some ((if s then - 1 else 1) * inject_Z (Z.pos m) * Float64.pow2 e)
  | _ => None
  end.

(** The double a literal denotes is the one [Float64.literal] gives. *)
Definition same_literal (q : Q) : bool :=
  match machine_value (machine_literal q) with
  | Some d => Qeq_bool d (Float64.literal q)
  | None => false
  end.

(** [abs(x - y)] on the machine and in [Float64] are the same number. *)
Definition same_difference (c : float * float) : bool :=
  let '(x, y) := c in
  match machine_value x, machine_value y,
        machine_value (PrimFloat.abs (PrimFloat.sub x y)) with
  | Some a, Some b, Some d =>
      Qeq_bool d (Float64.abs (Float64.sub a b))
  | _, _, _ => false
  end.

(** Pairs of odds to compare on: those of the two odds tests, and
    pairs far apart and close together. *)
Definition literal_samples : list (Q * Q) :=
  List.map (fun '(a, b, _, _) => (a, b)) (odds_cases ++ odds_edge_cases)
  ++ [ (10000000000000002, 1); (3.24, 1.07); (0.3, 0.1); (1.1, 2.2);
       (123456789012345678, 0.000001); (4.35, 4.349999);
       (1e22, 0.1); (9007199254740993, 9007199254740992) ].

(** Doubles in the subnormal range and at the top of the range, given
    by significand and exponent. *)
Definition extreme_samples : list (float * float) :=
  List.map
    (fun '(m, e, m', e') =>
       (SF2Prim (S754_finite false m e), SF2Prim (S754_finite false m' e')))
    [ (1%positive, (-1074)%Z, 3%positive, (-1074)%Z);
      (4503599627370496%positive, (-1074)%Z,
       4503599627370495%positive, (-1074)%Z);
      (4503599627370497%positive, (-1074)%Z,
       4503599627370496%positive, (-1073)%Z);
      (9007199254740991%positive, 971%Z, 1%positive, (-1074)%Z);
      (9007199254740991%positive, 971%Z, 9007199254740991%positive, 970%Z) ].

(** [test_market_mapping]: the mapped name must contain the expected
    text, letter case aside, with a confidence in [0, 1]. *)
Definition mapping_cases : list (string * string * string * string) :=
  [ ("Match Result", "bet9ja", "sportybet", "Match Result");
    ("1X2", "bet9ja", "sportybet", "Match Result");
    ("Over/Under 2.5", "bet9ja", "sportybet", "Over/Under");
    ("Both Teams to Score", "bet9ja", "sportybet", "Both Teams");
    ("Unknown Market", "bet9ja", "sportybet", "Unknown Market") ].

Definition mapping_case_passes (c : string * string * string * string)
  : bool :=
  let '(mkt, source, target, expected) := c in
  match fst (map_market_across_bookmakers (create_market_matcher (Float64.literal 0.05))
               mkt source target) with
  | Ok (mapped, confidence) =>
      (Text.contains (Text.lower expected) (Text.lower mapped)
       && Qle_bool 0 confidence && Qle_bool confidence 1)%bool
  | Raise _ => false
  end.

(** The candidate list of [test_game_availability_checking]. *)
Definition available_games : list CandidateGame :=
  [ {| game_home := "Man Utd"; game_away := "Liverpool";
       game_markets :=
         [ {| name := "Match Result"; listed_odds := Float64.literal 2.45 |};
           {| name := "Over/Under 2.5"; listed_odds := Float64.literal 1.85 |};
           {| name := "Both Teams to Score";
              listed_odds := Float64.literal 1.75 |} ] |};
    {| game_home := "Arsenal"; game_away := "Chelsea";
       game_markets :=
         [ {| name := "Match Result"; listed_odds := Float64.literal 2.10 |};
           {| name := "Over/Under 2.5";
              listed_odds := Float64.literal 1.90 |} ] |} ].

Definition is_available (r : result GameAvailability) : option bool :=
  match r with
  | Ok ga => Some (available ga)
  | Raise _ => None
  end.

Definition succeeded (r : result MatchResult * MarketMatcher) : option bool :=
  match fst r with
  | Ok m => Some (success m)
  | Raise _ => None
  end.

Definition task (id code source destination : string) : ConversionTask :=
  {| task_id := id; betslip_code := code; source_bookmaker := source;
     destination_bookmaker := destination; priority := 0;
     created_at := 0 |}.

End TestTables.


(** ** Notions used to state further properties *)

Module ExtractionAux.
Import Text AdapterTools.

(** A separator that [extract_teams_from_game_name] passes over: it
    does not occur in the game name, or the text before or after its
    leftmost occurrence is blank. *)
Definition unusable (separator game_name : string) : Prop :=
  contains separator game_name = false
  \/ exists before after,
       split_once separator game_name = Some (before, after)
       /\ (strip before = EmptyString \/ strip after = EmptyString).

End ExtractionAux.

Module EngineAux.
Import Matcher.
Local Open Scope Q_scope.

(** Every confidence held by the market-mapping cache is one that
    [_calculate_market_mapping_confidence] can produce; a new matcher's
    empty cache is such a cache. *)
Definition cache_sound (self : MarketMatcher) : Prop :=
  forall key entry,
    _market_mapping_cache self !! key = Some entry ->
    0.6 <= snd entry <= 0.9.

End EngineAux.

Module QueueAux.
Import Worker QueueRuns.
Local Open Scope list_scope.

(** The tasks the queue accepted, in the order of their submission. *)
Fixpoint accepted (ops : list operation) (answers : list answer)
  : list ConversionTask :=
  match ops, answers with
  | Adds task :: ops', Added true :: answers' => task :: accepted ops' answers'
  | _ :: ops', _ :: answers' => accepted ops' answers'
  | _, _ => []
  end.

(** The tasks [get_task] handed out, in order. *)
Fixpoint handed_out (answers : list answer) : list ConversionTask :=
  match answers with
  | Got (Some task) :: answers' => task :: handed_out answers'
  | _ :: answers' => handed_out answers'
  | [] => []
  end.

(** The result of the latest [complete_task] for [task] among [ops],
    [earlier] if there is none. *)
Fixpoint last_result (task : string) (ops : list operation)
         (earlier : option task_result) : option task_result :=
  match ops with
  | [] => earlier
  | Completes t r :: ops' =>
      last_result task ops' (if String.eqb t task then Some r else earlier)
  | _ :: ops' => last_result task ops' earlier
  end.

(** The task with id [task] that was handed out and not completed
    since, [earlier] if [ops] neither hand out nor complete that id. *)
Fixpoint in_progress (task : string) (ops : list operation)
         (answers : list answer) (earlier : option ConversionTask)
  : option ConversionTask :=
  match ops, answers with
  | Gets :: ops', Got (Some t) :: answers' =>
      in_progress task ops' answers'
        (if String.eqb (task_id t) task then Some t else earlier)
  | Completes t _ :: ops', _ :: answers' =>
      in_progress task ops' answers'
        (if String.eqb t task then None else earlier)
  | _ :: ops', _ :: answers' => in_progress task ops' answers' earlier
  | _, _ => earlier
  end.

End QueueAux.

Module PoolClientsAux.
Import Pool PoolClients.
Local Open Scope list_scope.

(** The clock readings of the acquisitions among [events] increase
    strictly, starting above [last]. *)
Fixpoint increasing (last : Z) (events : list event) : Prop :=
  match events with
  | [] => True
  | Acquires now :: rest => (last < now)%Z /\ increasing now rest
  | _ :: rest => increasing last rest
  end.

(** The latest acquisition among [events], [last] if there is none. *)
Fixpoint latest (last : Z) (events : list event) : Z :=
  match events with
  | [] => last
  | Acquires now :: rest => latest now rest
  | _ :: rest => latest last rest
  end.

(** What holds between a pool and the instances its clients hold. *)
Record consistent (bound : Z) (p : BrowserInstancePool) (held : list ref)
  : Prop := {
  tracked_own_id :
    forall iid r, instances p !! iid = Some r ->
      exists instance, objects p !! r = Some instance /\ id instance = iid;
  tracked_times :
    forall iid r, instances p !! iid = Some r -> (snd iid <= bound)%Z;
  queue_times :
    forall iid, In iid (available_instances p) -> (snd iid <= bound)%Z;
  queue_nodup : List.NoDup (available_instances p);
  queue_idle :
    forall iid r, In iid (available_instances p) ->
      instances p !! iid = Some r -> ~ In r held;
  held_nodup : List.NoDup held;
  held_tracked :
    forall r, In r held ->
      exists instance,
        objects p !! r = Some instance /\ in_use instance = true
        /\ instances p !! id instance = Some r
        /\ ~ In (id instance) (available_instances p);
  busy_held :
    forall iid r instance,
      instances p !! iid = Some r -> objects p !! r = Some instance ->
      in_use instance = true -> In r held;
  within_capacity : size (instances p) <= max_instances p
}.

End PoolClientsAux.
(** * Properties *)

(** ** The sequence matcher stays within its inputs *)

Module DifflibFacts.
Import Difflib DifflibInv.

Lemma next_row_length indexed ai b : forall diag prev,
  List.length (next_row indexed ai diag prev b) = List.length b.
Proof.
  induction b as [|bj b IH]; intros diag prev; simpl; [reflexivity|].
  now rewrite IH.
Qed.

Lemma next_row_bounded indexed ai b : forall diag prev n c,
  diag <= n -> diag <= c -> bounded n (S c) prev ->
  bounded (S n) (S c) (next_row indexed ai diag prev b).
Proof.
  induction b as [|bj b IH]; intros diag prev n c Hn Hc Hprev; simpl.
  - exact I.
  - split; [|split].
    + destruct (_ && _)%bool; lia.
    + destruct (_ && _)%bool; lia.
    + apply IH.
      * destruct prev as [|k r]; simpl in *; [lia | tauto].
      * destruct prev as [|k r]; simpl in *; [lia | tauto].
      * destruct prev as [|k r]; simpl in *; [exact I | tauto].
Qed.

Lemma scan_row_fits lb : forall row i j best,
  bounded (S i) (S j) row -> j + List.length row <= lb ->
  fits (S i) lb best -> fits (S i) lb (scan_row i j row best).
Proof.
  induction row as [|k row IH]; intros i j best Hrow Hlen Hbest; simpl.
  - exact Hbest.
  - simpl in Hrow, Hlen. destruct Hrow as (Hk1 & Hk2 & Hrow).
    apply IH; [exact Hrow | lia |].
    destruct (snd best <? k); [|exact Hbest].
    unfold fits; simpl. lia.
Qed.

Lemma fits_mono la la' lb m : la <= la' -> fits la lb m -> fits la' lb m.
Proof. unfold fits. lia. Qed.

Lemma table_fits indexed b : forall a i prev best,
  bounded i 1 prev -> fits i (List.length b) best ->
  fits (i + List.length a) (List.length b) (table indexed a b i prev best).
Proof.
  induction a as [|ai a IH]; intros i prev best Hprev Hbest; simpl.
  - now rewrite Nat.add_0_r.
  - replace (i + S (List.length a)) with (S i + List.length a) by lia.
    apply IH.
    + apply next_row_bounded; [lia | lia | exact Hprev].
    + apply scan_row_fits.
      * apply next_row_bounded; [lia | lia | exact Hprev].
      * rewrite next_row_length. lia.
      * eapply fits_mono; [|exact Hbest]. lia.
Qed.

Lemma extend_left_fits a b la lb : forall fuel m,
  fits la lb m -> fits la lb (extend_left fuel a b m).
Proof.
  induction fuel as [|fuel IH]; intros [[i j] k] Hm; simpl; [exact Hm|].
  destruct (_ && _)%bool eqn:E; [|exact Hm].
  apply IH. apply andb_prop in E as [E _]. apply andb_prop in E as [Ei Ej].
  apply Nat.ltb_lt in Ei, Ej. unfold fits in *; simpl in *. lia.
Qed.

Lemma extend_right_fits a b : forall fuel m,
  fits (List.length a) (List.length b) m ->
  fits (List.length a) (List.length b) (extend_right fuel a b m).
Proof.
  induction fuel as [|fuel IH]; intros [[i j] k] Hm; simpl; [exact Hm|].
  destruct (_ && _)%bool eqn:E; [|exact Hm].
  apply IH. apply andb_prop in E as [E _]. apply andb_prop in E as [Ei Ej].
  apply Nat.ltb_lt in Ei, Ej. unfold fits in *; simpl in *. lia.
Qed.

Lemma find_longest_match_fits indexed a b :
  fits (List.length a) (List.length b) (find_longest_match indexed a b).
Proof.
  unfold find_longest_match.
  apply extend_right_fits, extend_left_fits.
  apply (table_fits indexed b a 0 [] (0, 0, 0)); [exact I|].
  unfold fits; simpl; lia.
Qed.

(** The matched characters never outnumber either input. *)
Lemma matches_le indexed : forall fuel a b,
  matches indexed fuel a b <= List.length a
  /\ matches indexed fuel a b <= List.length b.
Proof.
  induction fuel as [|fuel IH]; intros a b; simpl; [lia|].
  pose proof (find_longest_match_fits indexed a b) as Hfit.
  destruct (find_longest_match indexed a b) as [[i j] k].
  unfold fits in Hfit; simpl in Hfit.
  destruct (k =? 0); [lia|].
  pose proof (IH (List.firstn i a) (List.firstn j b)) as [L1 L2].
  pose proof (IH (List.skipn (i + k) a) (List.skipn (j + k) b)) as [R1 R2].
  rewrite List.length_firstn in L1, L2. rewrite List.length_skipn in R1, R2.
  destruct (_ && _)%bool; destruct (_ && _)%bool; lia.
Qed.

(** The fuel [S (len a)] of [matching_size] is enough: more fuel gives
    the same total. *)
Lemma matches_fuel indexed : forall f1 f2 a b,
  List.length a < f1 -> List.length a < f2 ->
  matches indexed f1 a b = matches indexed f2 a b.
Proof.
  induction f1 as [|f1 IH]; intros f2 a b H1 H2; [lia|].
  destruct f2 as [|f2]; [lia|]. simpl.
  pose proof (find_longest_match_fits indexed a b) as Hfit.
  destruct (find_longest_match indexed a b) as [[i j] k].
  unfold fits in Hfit; simpl in Hfit.
  destruct (k =? 0) eqn:Ek; [reflexivity|].
  apply Nat.eqb_neq in Ek.
  rewrite (IH f2 (List.firstn i a) (List.firstn j b))
    by (rewrite List.length_firstn; lia).
  rewrite (IH f2 (List.skipn (i + k) a) (List.skipn (j + k) b))
    by (rewrite List.length_skipn; lia).
  reflexivity.
Qed.

Lemma ratio_range s t : (0 <= ratio s t <= 1)%Q.
Proof.
  unfold ratio.
  set (a := list_ascii_of_string s). set (b := list_ascii_of_string t).
  destruct (List.length a + List.length b =? 0) eqn:E.
  - split; unfold Qle; simpl; lia.
  - apply Nat.eqb_neq in E.
    pose proof (matches_le (fun c => negb (popular b c))
                           (S (List.length a)) a b) as [Ha Hb].
    fold (matching_size a b) in Ha, Hb.
    split; unfold Qle; simpl.
    + lia.
    + rewrite Z.mul_1_r.
      destruct (List.length a + List.length b) as [|n] eqn:En; [lia|].
      rewrite <- En.
      assert (Z.pos (Pos.of_nat (List.length a + List.length b))
              = Z.of_nat (List.length a + List.length b)) as ->.
      { rewrite En, <- Pos.of_nat_succ, Znat.Zpos_P_of_succ_nat. lia. }
      lia.
Qed.

End DifflibFacts.

(** ** Rounding to the nearest double *)

Module Float64Facts.
Import Float64.
Local Open Scope Q_scope.

Lemma pow2_pos e : 0 < pow2 e.
Proof. apply Qpower_0_lt. reflexivity. Qed.

Lemma pow2_plus a b : pow2 (a + b) == pow2 a * pow2 b.
Proof. apply Qpower_plus. discriminate. Qed.

Lemma pow2_le a b : (a <= b)%Z -> pow2 a <= pow2 b.
Proof. intros H. apply Qpower_le_compat_l; [exact H|]. discriminate. Qed.

Lemma pow2_lt_inv a b : pow2 a < pow2 b -> (a < b)%Z.
Proof. intros H. apply (Qpower_lt_compat_l_inv 2); [exact H|reflexivity]. Qed.

Lemma pow2_Z e : (0 <= e)%Z -> pow2 e == inject_Z (2 ^ e).
Proof. intros H. unfold pow2. now rewrite Zpower_Qpower. Qed.

Lemma pow2_succ e : pow2 (e + 1) == 2 * pow2 e.
Proof. rewrite pow2_plus. change (pow2 1) with 2. ring. Qed.

(** A positive integer lies between two consecutive powers of two. *)
Lemma log2_bounds n :
  (0 < n)%Z ->
  pow2 (Z.log2 n) <= inject_Z n < 2 * pow2 (Z.log2 n).
Proof.
  intros H. pose proof (Z.log2_spec n H) as [Hlo Hhi].
  pose proof (Z.log2_nonneg n) as Hnn.
  rewrite <- pow2_succ, !pow2_Z by lia.
  rewrite <- Zle_Qle, <- Zlt_Qlt. split; [exact Hlo|].
  now rewrite <- Z.add_1_r in Hhi.
Qed.

Lemma exponent_spec a :
  0 < a -> pow2 (exponent a) <= a < pow2 (exponent a + 1).
Proof.
  intros Ha. unfold exponent.
  destruct a as [n d]. assert (0 < n)%Z as Hn.
  { unfold Qlt in Ha. simpl in Ha. lia. }
  cbn [Qnum Qden].
  set (k := (Z.log2 n - Z.log2 (Z.pos d))%Z).
  pose proof (log2_bounds n Hn) as [Hn1 Hn2].
  pose proof (log2_bounds (Z.pos d) eq_refl) as [Hd1 Hd2].
  pose proof (pow2_pos (Z.log2 n)) as Pn.
  pose proof (pow2_pos (Z.log2 (Z.pos d))) as Pd.
  pose proof (pow2_pos k) as Pk.
  assert (pow2 k * pow2 (Z.log2 (Z.pos d)) == pow2 (Z.log2 n)) as Hk.
  { rewrite <- pow2_plus. unfold k.
    now replace (Z.log2 n - Z.log2 (Z.pos d) + Z.log2 (Z.pos d))%Z
      with (Z.log2 n) by lia. }
  assert ((n # d) * inject_Z (Z.pos d) == inject_Z n) as Hq.
  { rewrite (Qmake_Qdiv n d). field. discriminate. }
  assert (0 < inject_Z (Z.pos d)) as HD by reflexivity.
  set (x := n # d) in *. set (A := inject_Z n) in *.
  set (D := inject_Z (Z.pos d)) in *.
  set (pn := pow2 (Z.log2 n)) in *.
  set (pd := pow2 (Z.log2 (Z.pos d))) in *.
  destruct (Qle_bool (pow2 k) x) eqn:E.
  - apply Qle_bool_iff in E. split; [exact E|].
    rewrite pow2_succ. set (pk := pow2 k) in *. clearbody x A D pn pd pk.
    nra.
  - assert (x < pow2 k) as E'.
    { apply Qnot_le_lt. intros Hle. apply Qle_bool_iff in Hle. congruence. }
    replace (k - 1 + 1)%Z with k by lia. split; [|exact E'].
    assert (pow2 k == 2 * pow2 (k - 1)) as Hk1.
    { rewrite <- pow2_succ. now replace (k - 1 + 1)%Z with k by lia. }
    pose proof (pow2_pos (k - 1)) as Pk1.
    set (pk := pow2 k) in *. set (pk1 := pow2 (k - 1)) in *.
    clearbody x A D pn pd pk pk1. nra.
Qed.

Lemma exponent_mono a b : 0 < a -> a <= b -> (exponent a <= exponent b)%Z.
Proof.
  intros Ha Hab.
  pose proof (exponent_spec a Ha) as [Ha1 _].
  pose proof (exponent_spec b ltac:(lra)) as [_ Hb2].
  assert (pow2 (exponent a) < pow2 (exponent b + 1)) as H by lra.
  apply pow2_lt_inv in H. lia.
Qed.

(** [round_half_even] through the floor and the fractional part. *)
Lemma round_half_even_compare x :
  (2 * (Qnum x mod Z.pos (Qden x)) ?= Z.pos (Qden x))%Z
  = (x - inject_Z (Qfloor x) ?= 1 # 2).
Proof.
  destruct x as [n d].
  unfold Qcompare, Qfloor, Qminus, Qplus, Qopp, inject_Z.
  cbn [Qnum Qden]. rewrite Pos.mul_1_r.
  rewrite Z.mod_eq by discriminate.
  set (f := (n / Z.pos d)%Z).
  rewrite (Z.compare_sub (2 * _)), (Z.compare_sub ((_ + _) * _)).
  f_equal. lia.
Qed.

Lemma round_half_even_cases x :
  let f := Qfloor x in
  (x - inject_Z f < 1 # 2 /\ round_half_even x = f)
  \/ (1 # 2 < x - inject_Z f /\ round_half_even x = (f + 1)%Z)
  \/ (x - inject_Z f == 1 # 2
      /\ round_half_even x = if Z.even f then f else (f + 1)%Z).
Proof.
  intros f. unfold round_half_even. rewrite round_half_even_compare.
  fold f. replace (Qnum x / Z.pos (Qden x))%Z with f by now destruct x.
  destruct (x - inject_Z f ?= 1 # 2) eqn:E.
  - apply Qeq_alt in E. right. right. auto.
  - apply Qlt_alt in E. left. auto.
  - apply Qgt_alt in E. right. left. auto.
Qed.

Lemma round_half_even_mono x y :
  x <= y -> (round_half_even x <= round_half_even y)%Z.
Proof.
  intros Hxy.
  pose proof (Qfloor_resp_le x y Hxy) as Hf.
  pose proof (Qfloor_le x) as Hx1. pose proof (Qlt_floor x) as Hx2.
  pose proof (Qfloor_le y) as Hy1. pose proof (Qlt_floor y) as Hy2.
  rewrite inject_Z_plus in Hx2, Hy2.
  destruct (round_half_even_cases x) as [[Hx ->]|[[Hx ->]|[Hx ->]]];
    destruct (round_half_even_cases y) as [[Hy ->]|[[Hy ->]|[Hy ->]]];
    set (fx := Qfloor x) in *; set (fy := Qfloor y) in *;
    destruct (Z.eq_dec fx fy) as [E|E];
    try rewrite E in *;
    repeat match goal with |- context [Z.even ?f] => destruct (Z.even f) eqn:? end;
    try lia; try (exfalso; lra); try congruence.
Qed.

Lemma round_half_even_Z x k : x == inject_Z k -> round_half_even x = k.
Proof.
  intros H. pose proof (Qfloor_comp _ _ H) as Hf. rewrite Qfloor_Z in Hf.
  destruct (round_half_even_cases x) as [[Hx ->]|[[Hx ->]|[Hx ->]]];
    rewrite Hf in *; [reflexivity| |]; exfalso; lra.
Qed.



Lemma ulp_pos a : 0 < ulp a.
Proof. apply pow2_pos. Qed.

Lemma nearest_nonneg a : 0 < a -> 0 <= nearest a.
Proof.
  intros Ha. unfold nearest. pose proof (ulp_pos a) as Hu.
  apply Qmult_le_0_compat; [|lra].
  change 0 with (inject_Z 0). rewrite <- Zle_Qle.
  rewrite <- (round_half_even_Z 0 0) by reflexivity.
  apply round_half_even_mono.
  apply Qle_shift_div_l; [exact Hu | lra].
Qed.

Lemma nearest_mono a b : 0 < a -> a <= b -> nearest a <= nearest b.
Proof.
  intros Ha Hab. assert (0 < b) as Hb by lra.
  pose proof (exponent_mono a b Ha Hab) as He.
  pose proof (exponent_spec a Ha) as [_ Ha2].
  pose proof (exponent_spec b Hb) as [Hb1 _].
  unfold nearest, ulp.
  set (ea := exponent a) in *. set (eb := exponent b) in *.
  set (ua := Z.max (ea - 52) (-1074)). set (ub := Z.max (eb - 52) (-1074)).
  pose proof (pow2_pos ua) as Pa. pose proof (pow2_pos ub) as Pb.
  destruct (Z.eq_dec ua ub) as [E|E].
  - rewrite E. apply Qmult_le_compat_r; [|lra].
    rewrite <- Zle_Qle. apply round_half_even_mono.
    apply Qmult_le_compat_r; [exact Hab|].
    apply Qlt_le_weak, Qinv_lt_0_compat, Pb.
  - assert (ub = eb - 52)%Z as Hub by lia.
    assert (ea + 1 <= eb)%Z as Hlt by lia.
    assert (0 <= eb - ua)%Z as Hd by lia.
    apply (Qle_trans _ (pow2 eb)).
    + assert (pow2 eb == inject_Z (2 ^ (eb - ua)) * pow2 ua) as ->.
      { rewrite <- pow2_Z, <- pow2_plus by exact Hd.
        now replace (eb - ua + ua)%Z with eb by lia. }
      apply Qmult_le_compat_r; [|lra].
      rewrite <- Zle_Qle.
      rewrite <- (round_half_even_Z (pow2 (eb - ua)) (2 ^ (eb - ua)))
        by (now apply pow2_Z).
      apply round_half_even_mono.
      apply Qle_shift_div_r; [exact Pa|].
      rewrite <- pow2_plus. replace (eb - ua + ua)%Z with eb by lia.
      pose proof (pow2_le (ea + 1) eb Hlt). lra.
    + assert (pow2 eb == inject_Z (2 ^ 52) * pow2 ub) as ->.
      { rewrite <- pow2_Z, <- pow2_plus by lia.
        now replace (52 + ub)%Z with eb by lia. }
      apply Qmult_le_compat_r; [|lra].
      rewrite <- Zle_Qle.
      rewrite <- (round_half_even_Z (pow2 52) (2 ^ 52)) at 1
        by (now apply pow2_Z).
      apply round_half_even_mono.
      apply Qle_shift_div_l; [exact Pb|].
      rewrite <- pow2_plus. replace (52 + ub)%Z with eb by lia.
      exact Hb1.
Qed.

Lemma Qabs_of_pos q : 0 < q -> Qabs q = q.
Proof.
  destruct q as [[|n|n] d]; unfold Qlt; simpl; intros H;
    [lia | reflexivity | lia].
Qed.

Lemma round_cases q :
  (q == 0 /\ round q = 0)
  \/ (0 < q /\ round q = nearest q)
  \/ (q < 0 /\ round q = - nearest (Qabs q) /\ 0 < Qabs q).
Proof.
  unfold round. destruct (Qeq_bool q 0) eqn:E0.
  - left. apply Qeq_bool_iff in E0. auto.
  - assert (~ q == 0) as Hne.
    { intros H. apply Qeq_bool_iff in H. congruence. }
    destruct (Qle_bool 0 q) eqn:E1.
    + apply Qle_bool_iff in E1. right. left.
      assert (0 < q) as Hpos.
      { apply Qle_lteq in E1 as [H|H]; [exact H|]. exfalso. apply Hne.
        now symmetry. }
      now rewrite (Qabs_of_pos q Hpos).
    + right. right.
      assert (q < 0) as Hneg.
      { apply Qnot_le_lt. intros H. apply Qle_bool_iff in H. congruence. }
      split; [exact Hneg|]. split; [reflexivity|].
      rewrite (Qabs_neg q) by lra. lra.
Qed.

(** Rounding never reverses an order. *)
Lemma round_mono x y : x <= y -> round x <= round y.
Proof.
  intros Hxy.
  destruct (round_cases x) as [[Hx ->]|[[Hx ->]|(Hx & -> & Hax)]];
    destruct (round_cases y) as [[Hy ->]|[[Hy ->]|(Hy & -> & Hay)]];
    try (exfalso; lra).
  - apply Qle_refl.
  - now apply nearest_nonneg.
  - now apply nearest_mono.
  - pose proof (nearest_nonneg _ Hax). lra.
  - pose proof (nearest_nonneg _ Hax). pose proof (nearest_nonneg _ Hy). lra.
  - assert (Qabs y <= Qabs x) as H.
    { rewrite (Qabs_neg x), (Qabs_neg y) by lra. lra. }
    pose proof (nearest_mono _ _ Hay H). lra.
Qed.

Lemma round_abs q : Qabs (round q) == round (Qabs q).
Proof.
  destruct (round_cases q) as [[Hq Hr]|[[Hq Hr]|(Hq & Hr & Haq)]].
  - assert (Qabs q == 0) as H by (rewrite Hq; reflexivity).
    rewrite Hr.
    destruct (round_cases (Qabs q)) as [[_ ->]|[[H' _]|[H' _]]];
      [reflexivity | exfalso; lra | exfalso; lra].
  - rewrite (Qabs_of_pos q Hq), Hr.
    apply Qabs_pos. now apply nearest_nonneg.
  - rewrite Hr, Qabs_opp, (Qabs_pos (nearest _)) by now apply nearest_nonneg.
    destruct (round_cases (Qabs q)) as [[H' _]|[[_ Hr']|[H' _]]];
      [exfalso; lra | | exfalso; lra].
    rewrite Hr'. reflexivity.
Qed.

(** [abs(a - b)] and [abs(b - a)] are the same double. *)
Lemma abs_sub_swap a b : abs (sub a b) = abs (sub b a).
Proof.
  unfold abs, sub, round.
  assert (Qabs (a - b) = Qabs (b - a)) as Habs.
  { destruct a as [an ad], b as [bn bd].
    unfold Qabs, Qminus, Qplus, Qopp; simpl.
    f_equal; [lia | apply Pos.mul_comm]. }
  assert (Qeq_bool (a - b) 0 = Qeq_bool (b - a) 0) as Hz.
  { destruct (Qeq_bool (a - b) 0) eqn:E1, (Qeq_bool (b - a) 0) eqn:E2;
      try reflexivity; exfalso.
    - apply Qeq_bool_iff in E1. apply Qeq_bool_neq in E2. apply E2. lra.
    - apply Qeq_bool_iff in E2. apply Qeq_bool_neq in E1. apply E1. lra. }
  rewrite Hz, Habs. destruct (Qeq_bool (b - a) 0); [reflexivity|].
  assert (forall m, Qabs (- m) = Qabs m) as Hopp.
  { intros [n d]. unfold Qabs, Qopp. simpl. now rewrite Z.abs_opp. }
  destruct (Qle_bool 0 (a - b)), (Qle_bool 0 (b - a));
    rewrite ?Hopp; reflexivity.
Qed.


(** What is within a representable tolerance exactly is within it as
    the machine computes the difference. *)
Lemma abs_sub_le a b t :
  round t == t -> Qabs (a - b) <= t -> abs (sub a b) <= t.
Proof.
  intros Ht H. unfold abs, sub. rewrite round_abs, <- Ht.
  now apply round_mono.
Qed.

End Float64Facts.
(** ** Odds comparison *)

Module OddsFacts.
Import Matcher MatcherAux.
Local Open Scope Q_scope.

Lemma Qlt_bool_iff x y : Qlt_bool x y = true <-> x < y.
Proof.
  unfold Qlt_bool. rewrite negb_true_iff.
  split; intros H.
  - apply Qnot_le_lt. intros Hle. apply Qle_bool_iff in Hle. congruence.
  - destruct (Qle_bool y x) eqn:E; [|reflexivity].
    apply Qle_bool_iff in E. exfalso. exact (Qlt_not_le _ _ H E).
Qed.

Lemma Qle_bool_false x y : Qle_bool x y = false <-> y < x.
Proof.
  rewrite <- (Qlt_bool_iff y x). unfold Qlt_bool.
  destruct (Qle_bool x y); simpl; split; congruence.
Qed.

Lemma Qabs_minus_swap a b : Qabs (a - b) = Qabs (b - a).
Proof.
  destruct a as [an ad], b as [bn bd].
  unfold Qabs, Qminus, Qplus, Qopp; simpl.
  f_equal; [lia | apply Pos.mul_comm].
Qed.




(** C10. Whatever the tolerance, a non-positive odds value on either
    side makes [compare_odds] return, without raising, the pair
    (not within tolerance, infinite difference). *)
Theorem compare_odds_non_positive :
  forall (self : MarketMatcher) (a b : Q) (tolerance : option Q),
    a <= 0 \/ b <= 0 ->
    compare_odds self a b tolerance = (false, Inf).
Proof.
  intros self a b tolerance H. unfold compare_odds.
  destruct H as [H|H]; apply Qle_bool_iff in H; rewrite H;
    [|rewrite orb_true_r]; reflexivity.
Qed.

Lemma compare_odds_non_positive_witness :
  compare_odds (create_market_matcher (Float64.literal 0.05)) 0 2.50 (Some 10)
  = (false, Inf).
Proof.
  apply (compare_odds_non_positive
           (create_market_matcher (Float64.literal 0.05)) 0 2.50 (Some 10)).
  left. unfold Qle; simpl; lia.
Defined.

End OddsFacts.

(** ** Team-name similarity *)

Module SimilarityFacts.
Import Text Adapters Matcher MatcherAux OddsFacts.
Local Open Scope Q_scope.

Lemma is_empty_true s : is_empty s = true <-> s = EmptyString.
Proof. destruct s; simpl; split; congruence. Qed.

Lemma is_empty_false s : is_empty s = false <-> s <> EmptyString.
Proof. destruct s; simpl; split; congruence. Qed.

Lemma py_min_le_l x y : py_min x y <= x.
Proof.
  unfold py_min. destruct (Qlt_bool y x) eqn:E.
  - apply Qlt_bool_iff in E. now apply Qlt_le_weak.
  - apply Qle_refl.
Qed.

Lemma py_min_le_r x y : py_min x y <= y.
Proof.
  unfold py_min. destruct (Qlt_bool y x) eqn:E.
  - apply Qle_refl.
  - unfold Qlt_bool in E. apply negb_false_iff in E.
    now apply Qle_bool_iff in E.
Qed.

Lemma py_min_ge x y z : z <= x -> z <= y -> z <= py_min x y.
Proof. unfold py_min. now destruct (Qlt_bool y x). Qed.

Lemma nat_quotient_range (a b : nat) :
  (0 < b)%nat -> (a <= b)%nat ->
  0 <= inject_Z (Z.of_nat a) / inject_Z (Z.of_nat b) <= 1.
Proof.
  intros Hb Hab.
  assert (0 < inject_Z (Z.of_nat b)) as Hpos.
  { change 0 with (inject_Z 0). rewrite <- Zlt_Qlt. lia. }
  split.
  - apply Qle_shift_div_l; [exact Hpos|]. rewrite Qmult_0_l.
    change 0 with (inject_Z 0). rewrite <- Zle_Qle. lia.
  - apply Qle_shift_div_r; [exact Hpos|]. rewrite Qmult_1_l.
    rewrite <- Zle_Qle. lia.
Qed.

Lemma abbreviation_range s t :
  0 <= _check_abbreviation_match s t <= 0.9.
Proof.
  unfold _check_abbreviation_match.
  destruct (existsb _ _); [split; unfold Qle; simpl; lia|].
  destruct (_ && _)%bool; [split; unfold Qle; simpl; lia|].
  destruct (_ && _)%bool; split; unfold Qle; simpl; lia.
Qed.

Lemma word_sets_range (w1 w2 : gset string) :
  (0 < size (w1 ∪ w2))%nat ->
  0 <= inject_Z (Z.of_nat (size (w1 ∩ w2)))
       / inject_Z (Z.of_nat (size (w1 ∪ w2))) <= 1.
Proof.
  intros H. apply nat_quotient_range; [exact H|].
  apply subseteq_size. intros x Hx. apply elem_of_intersection in Hx.
  apply elem_of_union. left. tauto.
Qed.

Lemma similarity_empty_l t : _calculate_team_similarity EmptyString t = 0.
Proof. reflexivity. Qed.

Lemma similarity_empty_r s : _calculate_team_similarity s EmptyString = 0.
Proof.
  unfold _calculate_team_similarity. simpl. now rewrite orb_true_r.
Qed.

Lemma similarity_same s t :
  s <> EmptyString -> t <> EmptyString -> lower s = lower t ->
  _calculate_team_similarity s t = 1.
Proof.
  intros Hs Ht Heq. unfold _calculate_team_similarity.
  apply is_empty_false in Hs, Ht. rewrite Hs, Ht. simpl.
  rewrite Heq, String.eqb_refl. reflexivity.
Qed.

Lemma blend_bounds seq word sub abb :
  0 <= seq <= 1 -> 0 <= word <= 1 -> 0 <= sub <= 0.8 -> 0 <= abb <= 0.9 ->
  0 <= seq * 0.4 + word * 0.3 + sub * 0.2 + abb * 0.1 <= 0.95.
Proof. intros. lra. Qed.

(** Two names that differ beyond letter case score at most 0.95. *)
Lemma similarity_distinct s t :
  lower s <> lower t ->
  0 <= _calculate_team_similarity s t <= 0.95.
Proof.
  intros Hne. unfold _calculate_team_similarity.
  destruct (_ || _)%bool; [split; unfold Qle; simpl; lia|].
  destruct (String.eqb (lower s) (lower t)) eqn:E.
  { apply String.eqb_eq in E. contradiction. }
  match goal with
  | |- _ <= py_min ?x 1 <= _ =>
      assert (0 <= x <= 0.95) as [Hlo Hhi]
  end.
  { apply blend_bounds.
    - apply DifflibFacts.ratio_range.
    - destruct (_ || _)%bool; [split; unfold Qle; simpl; lia|].
      destruct (0 <? _)%nat eqn:Epos; [|split; unfold Qle; simpl; lia].
      apply Nat.ltb_lt in Epos. now apply word_sets_range.
    - destruct (_ || _)%bool; split; unfold Qle; simpl; lia.
    - apply abbreviation_range. }
  split.
  - apply py_min_ge; [exact Hlo | unfold Qle; simpl; lia].
  - eapply Qle_trans; [apply py_min_le_l | exact Hhi].
Qed.

Lemma similarity_range s t : 0 <= _calculate_team_similarity s t <= 1.
Proof.
  destruct (string_dec (lower s) (lower t)) as [Heq|Hne].
  - unfold _calculate_team_similarity.
    destruct (_ || _)%bool; [split; unfold Qle; simpl; lia|].
    rewrite Heq, String.eqb_refl. split; unfold Qle; simpl; lia.
  - destruct (similarity_distinct s t Hne) as [Hlo Hhi].
    split; [exact Hlo|]. eapply Qle_trans; [exact Hhi|].
    unfold Qle; simpl; lia.
Qed.

End SimilarityFacts.

(** ** Orientation of the fuzzy team match *)

Module OrientationFacts.
Import Text Adapters Matcher MatcherAux OddsFacts SimilarityFacts.
Local Open Scope Q_scope.

Lemma adapter_of_some bookmaker cfg :
  get_bookmaker_adapter bookmaker = Some cfg -> adapter_of bookmaker = Ok cfg.
Proof. intros H. unfold adapter_of. now rewrite H. Qed.

Lemma half_sum_le_one x y : x <= 1 -> y <= 1 -> (x + y) / 2 <= (1 + 1) / 2.
Proof. intros. unfold Qdiv. change (/ 2) with (1 # 2). lra. Qed.

Lemma half_sum_lt_one x y : x <= 0.95 -> y <= 0.95 -> (x + y) / 2 < (1 + 1) / 2.
Proof. intros. unfold Qdiv. change (/ 2) with (1 # 2). lra. Qed.

(** C6, as the code has it. With the same bookmaker rules on both sides
    and names whose normalised forms are non-empty, the identical pair
    scores 1.0 unswapped; the fully swapped pair scores 1.0 too, and is
    reported swapped exactly when the two normalised names differ beyond
    letter case. *)
Theorem fuzzy_match_orientation :
  forall (a b source target : string) (cfg : BookmakerConfig),
    get_bookmaker_adapter source = Some cfg ->
    get_bookmaker_adapter target = Some cfg ->
    normalize_game_name cfg a <> EmptyString ->
    normalize_game_name cfg b <> EmptyString ->
    (exists c, fuzzy_match_team_names a b a b source target = Ok (c, false)
               /\ c == 1)
    /\ (exists c,
           fuzzy_match_team_names a b b a source target
           = Ok (c, negb (String.eqb (lower (normalize_game_name cfg a))
                                     (lower (normalize_game_name cfg b))))
           /\ c == 1).
Proof.
  intros a b source target cfg Hs Ht Ha Hb.
  unfold fuzzy_match_team_names.
  rewrite (adapter_of_some _ _ Hs), (adapter_of_some _ _ Ht).
  set (na := normalize_game_name cfg a) in *.
  set (nb := normalize_game_name cfg b) in *.
  clearbody na nb.
  rewrite (similarity_same na na Ha Ha eq_refl).
  rewrite (similarity_same nb nb Hb Hb eq_refl).
  pose proof (similarity_range na nb) as [_ Hab].
  pose proof (similarity_range nb na) as [_ Hba].
  split.
  - exists ((1 + 1) / 2). split; [|reflexivity].
    assert (Qle_bool ((_calculate_team_similarity na nb
                       + _calculate_team_similarity nb na) / 2)
                     ((1 + 1) / 2) = true) as ->; [|reflexivity].
    apply Qle_bool_iff. now apply half_sum_le_one.
  - exists ((1 + 1) / 2). split; [|reflexivity].
    destruct (String.eqb (lower na) (lower nb)) eqn:E; cbn [negb].
    + apply String.eqb_eq in E.
      rewrite (similarity_same na nb Ha Hb E).
      rewrite (similarity_same nb na Hb Ha (eq_sym E)). reflexivity.
    + apply String.eqb_neq in E.
      pose proof (similarity_distinct na nb E) as [_ H1].
      assert (lower nb <> lower na) as E' by congruence.
      pose proof (similarity_distinct nb na E') as [_ H2].
      assert (Qle_bool ((1 + 1) / 2)
                       ((_calculate_team_similarity na nb
                         + _calculate_team_similarity nb na) / 2) = false)
        as ->; [|reflexivity].
      apply Qle_bool_false. now apply half_sum_lt_one.
Qed.

Lemma fuzzy_match_orientation_witness :
  (exists c, fuzzy_match_team_names "Arsenal" "Chelsea" "Arsenal" "Chelsea"
               "bet9ja" "bet9ja" = Ok (c, false) /\ c == 1)
  /\ (exists c, fuzzy_match_team_names "Arsenal" "Chelsea" "Chelsea" "Arsenal"
                  "bet9ja" "bet9ja" = Ok (c, true) /\ c == 1).
Proof.
  apply (fuzzy_match_orientation "Arsenal" "Chelsea" "bet9ja" "bet9ja"
           Bet9jaAdapter); vm_compute; congruence.
Defined.

(** C6 as stated fails: a non-empty name can normalise to the empty
    string ("FC" is stripped as a club suffix), which scores 0; and a
    fully swapped pair of two equal names is reported unswapped. With
    different bookmakers on the two sides even an identical pair can
    score below 1.0. *)
Lemma fuzzy_match_orientation_counterexample :
  ~ orientation_for_all_non_empty_names
  /\ fuzzy_match_team_names "FC" "Arsenal" "FC" "Arsenal" "bet9ja" "bet9ja"
     = Ok (1 # 2, false)
  /\ fuzzy_match_team_names "Arsenal" "Arsenal" "Arsenal" "Arsenal"
       "bet9ja" "bet9ja" = Ok (2 # 2, false)
  /\ fuzzy_match_team_names "Crystal Palace" "Arsenal"
       "Crystal Palace" "Arsenal" "bet9ja" "sportybet"
     = Ok (918000 # 1320000, false).
Proof.
  split; [|repeat split; vm_compute; reflexivity].
  intros H.
  destruct (H "FC" "Arsenal" "bet9ja" Bet9jaAdapter eq_refl) as [[c [E Hc]] _];
    [discriminate | discriminate |].
  vm_compute in E. injection E as <-. discriminate Hc.
Qed.

End OrientationFacts.

(** ** Best-game selection *)

Module GameFacts.
Import Text Adapters Matcher MatcherAux OddsFacts SimilarityFacts
       OrientationFacts.
Local Open Scope Q_scope.

Lemma adapter_cases bookmaker cfg :
  get_bookmaker_adapter bookmaker = Some cfg ->
  cfg = Bet9jaAdapter \/ cfg = SportybetAdapter
  \/ cfg = BetwayAdapter \/ cfg = Bet365Adapter.
Proof.
  unfold get_bookmaker_adapter, adapters, assoc.
  repeat (destruct (String.eqb _ _);
          [intros [= <-]; tauto|]).
  discriminate.
Qed.

Lemma normalize_empty bookmaker cfg :
  get_bookmaker_adapter bookmaker = Some cfg ->
  normalize_game_name cfg EmptyString = EmptyString.
Proof.
  intros H. destruct (adapter_cases _ _ H) as [->|[->|[->| ->]]];
    vm_compute; reflexivity.
Qed.

(** With a supported target bookmaker the fuzzy match against the
    default source ["bet9ja"] returns, with a score in [0, 1]; a
    candidate with a blank team name scores at most one half. *)
Lemma fuzzy_match_returns bookmaker cfg sh sa th ta :
  get_bookmaker_adapter bookmaker = Some cfg ->
  exists c sw,
    fuzzy_match_team_names sh sa th ta "bet9ja" bookmaker = Ok (c, sw)
    /\ 0 <= c <= 1
    /\ (th = EmptyString \/ ta = EmptyString -> c <= 1 # 2).
Proof.
  intros H. unfold fuzzy_match_team_names.
  change (adapter_of "bet9ja") with (Ok Bet9jaAdapter).
  rewrite (adapter_of_some _ _ H).
  pose proof (normalize_empty _ _ H) as Hempty.
  set (nsh := normalize_game_name Bet9jaAdapter sh).
  set (nsa := normalize_game_name Bet9jaAdapter sa).
  set (nth := normalize_game_name cfg th) in *.
  set (nta := normalize_game_name cfg ta) in *.
  pose proof (similarity_range nsh nth) as [? ?].
  pose proof (similarity_range nsa nta) as [? ?].
  pose proof (similarity_range nsh nta) as [? ?].
  pose proof (similarity_range nsa nth) as [? ?].
  assert (th = EmptyString \/ ta = EmptyString ->
          (_calculate_team_similarity nsh nth
           + _calculate_team_similarity nsa nta) / 2 <= 1 # 2
          /\ (_calculate_team_similarity nsh nta
              + _calculate_team_similarity nsa nth) / 2 <= 1 # 2) as Hblank.
  { intros [E|E]; subst th || subst ta; unfold nth, nta in *;
      rewrite Hempty in *; rewrite !similarity_empty_r;
      unfold Qdiv; change (/ 2) with (1 # 2); split; lra. }
  clearbody nsh nsa nth nta.
  destruct (Qle_bool _ _); eexists; eexists; (split; [reflexivity|]);
    (split; [unfold Qdiv; change (/ 2) with (1 # 2); lra | tauto]).
Qed.

Lemma not_blank g :
  (is_empty (game_home g) || is_empty (game_away g))%bool = false ->
  game_home g <> EmptyString /\ game_away g <> EmptyString.
Proof.
  intros H. apply orb_false_elim in H as [H1 H2].
  now apply is_empty_false in H1, H2.
Qed.

Lemma blank g :
  (is_empty (game_home g) || is_empty (game_away g))%bool = true ->
  game_home g = EmptyString \/ game_away g = EmptyString.
Proof.
  intros H. apply orb_prop in H as [H|H]; apply is_empty_true in H; tauto.
Qed.

(** The loop keeps the first candidate of strictly greatest score. *)
Lemma best_game_loop_spec selection bookmaker cfg :
  get_bookmaker_adapter bookmaker = Some cfg ->
  forall games bm bc,
  exists bm' bc',
    best_game_loop selection bookmaker games (bm, bc) = Ok (bm', bc')
    /\ bc <= bc'
    /\ (forall g c sw, In g games ->
          game_home g <> EmptyString -> game_away g <> EmptyString ->
          fuzzy_match_team_names (home_team selection) (away_team selection)
            (game_home g) (game_away g) "bet9ja" bookmaker = Ok (c, sw) ->
          c <= bc')
    /\ ((bm' = bm /\ bc' = bc)
        \/ exists g sw,
             In g games /\ bm' = Some g
             /\ fuzzy_match_team_names
                  (home_team selection) (away_team selection)
                  (game_home g) (game_away g) "bet9ja" bookmaker
                = Ok (bc', sw)).
Proof.
  intros Hcfg. induction games as [|game rest IH]; intros bm bc.
  - exists bm, bc. simpl. repeat split.
    + apply Qle_refl.
    + intros g c sw [].
    + now left.
  - simpl. destruct (_ || _)%bool eqn:Eblank.
    + destruct (IH bm bc) as (bm' & bc' & Hrun & Hle & Hmax & Hsrc).
      exists bm', bc'. repeat split; [exact Hrun | exact Hle | |].
      * intros g c sw [<-|Hin] Hh Ha Hf; [|eauto].
        apply blank in Eblank. tauto.
      * destruct Hsrc as [?|(g & sw & Hin & ? & ?)]; [now left|].
        right. exists g, sw. tauto.
    + destruct (fuzzy_match_returns bookmaker cfg
                  (home_team selection) (away_team selection)
                  (game_home game) (game_away game) Hcfg)
        as (c0 & sw0 & Hf0 & _ & _).
      rewrite Hf0. cbn [snd].
      destruct (Qlt_bool bc c0) eqn:Elt.
      * destruct (IH (Some game) c0) as (bm' & bc' & Hrun & Hle & Hmax & Hsrc).
        apply Qlt_bool_iff in Elt.
        exists bm', bc'. repeat split; [exact Hrun | | |].
        -- apply Qlt_le_weak. eapply Qlt_le_trans; eauto.
        -- intros g c sw [<-|Hin] Hh Ha Hf; [|eauto].
           rewrite Hf0 in Hf. injection Hf as <- <-. exact Hle.
        -- right. destruct Hsrc as [[-> ->]|(g & sw & Hin & ? & ?)].
           ++ exists game, sw0. auto.
           ++ exists g, sw. tauto.
      * destruct (IH bm bc) as (bm' & bc' & Hrun & Hle & Hmax & Hsrc).
        exists bm', bc'. repeat split; [exact Hrun | exact Hle | |].
        -- intros g c sw [<-|Hin] Hh Ha Hf; [|eauto].
           rewrite Hf0 in Hf. injection Hf as <- <-.
           unfold Qlt_bool in Elt. apply negb_false_iff in Elt.
           apply Qle_bool_iff in Elt. eapply Qle_trans; eauto.
        -- destruct Hsrc as [?|(g & sw & Hin & ? & ?)]; [now left|].
           right. exists g, sw. tauto.
Qed.

Lemma starts_with_append s q : starts_with s (s +:+ q) = true.
Proof.
  induction s as [|c s IH]; simpl; [reflexivity|].
  now rewrite Ascii.eqb_refl, IH.
Qed.

Lemma starts_with_refl s : starts_with s s = true.
Proof.
  induction s as [|c s IH]; simpl; [reflexivity|].
  now rewrite Ascii.eqb_refl, IH.
Qed.

Lemma contains_prefix s q : contains s (s +:+ q) = true.
Proof.
  destruct s; simpl; [now destruct q|].
  now rewrite Ascii.eqb_refl, starts_with_append.
Qed.

Lemma contains_refl s : contains s s = true.
Proof.
  destruct s; simpl; [reflexivity|].
  now rewrite Ascii.eqb_refl, starts_with_refl.
Qed.

Lemma contains_append_r s p t :
  contains s t = true -> contains s (p +:+ t) = true.
Proof.
  intros H. induction p as [|c p IH]; simpl; [exact H|].
  rewrite IH. apply orb_true_r.
Qed.

(** The warning of a rejected game names both teams of the selection. *)
Lemma game_not_found_mentions selection :
  contains (home_team selection) (game_not_found selection) = true
  /\ contains (away_team selection) (game_not_found selection) = true.
Proof.
  unfold game_not_found. split.
  - apply contains_append_r, contains_prefix.
  - do 3 apply contains_append_r. apply contains_refl.
Qed.

Lemma check_game_availability_spec selection bookmaker games ga :
  check_game_availability selection bookmaker games = Ok ga ->
  games = [] /\ ga = unavailable 0
  \/ exists cfg bm bc,
       get_bookmaker_adapter bookmaker = Some cfg
       /\ best_game_loop selection bookmaker games (None, 0) = Ok (bm, bc)
       /\ (Qle_bool 0.7 bc = false /\ ga = unavailable bc
           \/ exists game,
                Qle_bool 0.7 bc = true /\ bm = Some game
                /\ ga = {| available := true;
                           game_name := Some (game_label game);
                           ga_home_team := Some (game_home game);
                           ga_away_team := Some (game_away game);
                           markets := game_markets game;
                           ga_confidence := bc |}).
Proof.
  unfold check_game_availability.
  destruct games as [|g0 rest]; [intros [= <-]; now left|].
  unfold adapter_of.
  destruct (get_bookmaker_adapter bookmaker) as [cfg|] eqn:Hcfg; [|discriminate].
  destruct (best_game_loop_spec selection bookmaker cfg Hcfg (g0 :: rest) None 0)
    as (bm & bc & Hrun & _ & _ & Hsrc).
  rewrite Hrun. intros H. right. exists cfg, bm, bc.
  split; [reflexivity|]. split; [reflexivity|].
  destruct (Qle_bool 0.7 bc) eqn:E.
  - destruct bm as [game|].
    + right. exists game. injection H as <-. auto.
    + exfalso. destruct Hsrc as [[_ ->]|(g & sw & _ & ? & _)]; discriminate.
  - left. injection H as <-. auto.
Qed.

(** What [check_game_availability] answers: the first candidate of
    highest score when that score reaches 0.7, nothing otherwise. *)
Lemma game_availability_facts selection bookmaker games ga :
  check_game_availability selection bookmaker games = Ok ga ->
  let score g :=
    fuzzy_match_team_names (home_team selection) (away_team selection)
      (game_home g) (game_away g) "bet9ja" bookmaker in
  (available ga = true ->
   exists game sw,
     In game games
     /\ game_name ga = Some (game_label game)
     /\ score game = Ok (ga_confidence ga, sw)
     /\ forall g c sw', In g games -> score g = Ok (c, sw') ->
                        c <= ga_confidence ga)
  /\ (available ga = true <-> 0.7 <= ga_confidence ga)
  /\ (available ga = true <->
      exists g c sw, In g games /\ score g = Ok (c, sw) /\ 0.7 <= c)
  /\ (games = [] -> available ga = false).
Proof.
  intros Hcheck score.
  destruct (check_game_availability_spec _ _ _ _ Hcheck)
    as [[-> ->]|(cfg & bm & bc & Hcfg & Hrun & Hcase)].
  - simpl. split; [discriminate|]. split; [|split].
    + split; [discriminate|]. intros H. exfalso. lra.
    + split; [discriminate|]. intros (g & _ & _ & [] & _).
    + reflexivity.
  - destruct (best_game_loop_spec selection bookmaker cfg Hcfg games None 0)
      as (bm' & bc' & Hrun' & _ & Hmax & Hsrc).
    rewrite Hrun in Hrun'. injection Hrun' as <- <-.
    assert (forall g c sw, In g games -> score g = Ok (c, sw) ->
                           0.7 <= c -> c <= bc) as Hhigh.
    { intros g c sw Hin Hs Hc.
      destruct (is_empty (game_home g) || is_empty (game_away g))%bool eqn:Eb.
      - exfalso. apply blank in Eb.
        destruct (fuzzy_match_returns bookmaker cfg
                    (home_team selection) (away_team selection)
                    (game_home g) (game_away g) Hcfg)
          as (c0 & sw0 & Hf0 & _ & Hhalf).
        unfold score in Hs. rewrite Hf0 in Hs. injection Hs as <- <-.
        specialize (Hhalf Eb). lra.
      - apply not_blank in Eb as [Hh Ha]. eauto. }
    destruct Hcase as [[Elow ->]|(game & Ehigh & -> & ->)]; simpl.
    + pose proof Elow as Hlt. apply Qle_bool_false in Hlt.
      split; [discriminate|]. split; [|split].
      * split; [discriminate|]. intros H. exfalso. lra.
      * split; [discriminate|]. intros (g & c & sw & Hin & Hs & Hc).
        exfalso. pose proof (Hhigh g c sw Hin Hs Hc). lra.
      * reflexivity.
    + pose proof Ehigh as Hge. apply Qle_bool_iff in Hge.
      destruct Hsrc as [[? _]|(g & sw & Hin & [= <-] & Hs)]; [discriminate|].
      split; [|split; [|split]].
      * intros _. exists game, sw. repeat split; auto.
        intros g c sw' Hin' Hs'.
        destruct (Qlt_le_dec c 0.7) as [Hlt|Hle]; [lra|]. eauto.
      * tauto.
      * split; [|reflexivity]. intros _. exists game, bc, sw. auto.
      * intros ->. destruct Hin.
Qed.

End GameFacts.

(** ** Market availability *)

Module MarketFacts.
Import Text Adapters Matcher MatcherAux OddsFacts SimilarityFacts.
Local Open Scope Q_scope.

Lemma market_loop_spec mapped : forall names bm bc,
  match market_loop mapped names (bm, bc) with
  | inl n =>
      exists before after,
        names = (before ++ n :: after)%list
        /\ lower mapped = lower n
        /\ forall n', In n' before -> lower mapped <> lower n'
  | inr (bm', bc') =>
      (forall n, In n names -> lower mapped <> lower n)
      /\ bc <= bc'
      /\ (forall n, In n names ->
            Difflib.ratio (lower mapped) (lower n) <= bc')
      /\ ((bm' = bm /\ bc' = bc)
          \/ exists n, In n names /\ bm' = Some n
                       /\ bc' = Difflib.ratio (lower mapped) (lower n))
  end.
Proof.
  induction names as [|n0 rest IH]; intros bm bc; simpl.
  - repeat split; [intros n [] | apply Qle_refl | intros n [] | now left].
  - destruct (String.eqb (lower mapped) (lower n0)) eqn:E.
    + apply String.eqb_eq in E. exists [], rest. repeat split; auto; intros n' [].
    + apply String.eqb_neq in E. cbn [snd].
      set (s0 := Difflib.ratio (lower mapped) (lower n0)).
      destruct (Qlt_bool bc s0) eqn:Elt.
      * specialize (IH (Some n0) s0).
        destruct (market_loop mapped rest (Some n0, s0)) as [n|[bm' bc']].
        -- destruct IH as (before & after & -> & Heq & Hbefore).
           exists (n0 :: before), after. repeat split; auto.
           intros n' [<-|Hin]; auto.
        -- destruct IH as (Hne & Hle & Hmax & Hsrc).
           apply Qlt_bool_iff in Elt.
           repeat split.
           ++ intros n [<-|Hin]; auto.
           ++ apply Qlt_le_weak. eapply Qlt_le_trans; eauto.
           ++ intros n [<-|Hin]; auto.
           ++ right. destruct Hsrc as [[-> ->]|(n & Hin & ? & ?)].
              ** exists n0. auto.
              ** exists n. auto.
      * specialize (IH bm bc).
        destruct (market_loop mapped rest (bm, bc)) as [n|[bm' bc']].
        -- destruct IH as (before & after & -> & Heq & Hbefore).
           exists (n0 :: before), after. repeat split; auto.
           intros n' [<-|Hin]; auto.
        -- destruct IH as (Hne & Hle & Hmax & Hsrc).
           unfold Qlt_bool in Elt. apply negb_false_iff in Elt.
           apply Qle_bool_iff in Elt.
           repeat split; auto.
           ++ intros n [<-|Hin]; auto.
           ++ intros n [<-|Hin]; auto. eapply Qle_trans; eauto.
           ++ destruct Hsrc as [?|(n & Hin & ? & ?)]; [now left|].
              right. exists n. auto.
Qed.

(** C3, as the code has it. For a non-empty list of market names: a
    name equal to the mapped market up to letter case gives
    (available, that name, 1.0), the first such name winning; with no
    such name, the highest similarity ratio over the list decides
    availability (exactly when it is at least 0.8), and the confidence
    returned is that ratio times the mapping confidence. *)
Theorem market_availability :
  forall (self self' : MarketMatcher) (selection : Selection)
         (bookmaker : string) (names : list string)
         (mapped : string) (mapping_confidence : Q),
    names <> [] ->
    map_market_across_bookmakers self (market selection) "bet9ja" bookmaker
    = (Ok (mapped, mapping_confidence), self') ->
    let ratio n := Difflib.ratio (lower mapped) (lower n) in
    ((exists n, In n names /\ lower mapped = lower n) ->
     exists n,
       In n names /\ lower mapped = lower n
       /\ check_market_availability self selection bookmaker names
          = (Ok (true, Some n, 1), self'))
    /\ ((forall n, In n names -> lower mapped <> lower n) ->
        exists top final,
          check_market_availability self selection bookmaker names
          = (Ok (Qle_bool 0.8 top, final, top * mapping_confidence), self')
          /\ (exists n, In n names /\ top == ratio n)
          /\ (forall n, In n names -> ratio n <= top)
          /\ (0.8 <= top ->
              exists n, In n names /\ final = Some n /\ top = ratio n)
          /\ (top < 0.8 -> final = Some mapped)).
Proof.
  intros self self' selection bookmaker names mapped mapping_confidence
         Hnames Hmap ratio.
  unfold check_market_availability.
  destruct names as [|n0 rest]; [congruence|]. rewrite Hmap.
  pose proof (market_loop_spec mapped (n0 :: rest) None 0) as Hloop.
  destruct (market_loop mapped (n0 :: rest) (None, 0)) as [n|[bm bc]].
  - destruct Hloop as (before & after & Hsplit & Heq & Hbefore).
    assert (In n (n0 :: rest)) as Hin.
    { rewrite Hsplit. apply in_or_app. right. now left. }
    split.
    + intros _. exists n. auto.
    + intros Hnone. exfalso. exact (Hnone n Hin Heq).
  - destruct Hloop as (Hne & Hle & Hmax & Hsrc).
    split.
    + intros (n & Hin & Heq). exfalso. exact (Hne n Hin Heq).
    + intros _. exists bc. eexists. split; [reflexivity|].
      split; [|split; [exact Hmax|split]].
      * destruct Hsrc as [[_ ->]|(n & Hin & _ & ->)].
        -- exists n0. split; [now left|].
           pose proof (Hmax n0 (or_introl eq_refl)) as Hup.
           pose proof (DifflibFacts.ratio_range (lower mapped) (lower n0))
             as [Hlo _].
           apply Qle_antisym; assumption.
        -- exists n. split; [exact Hin | reflexivity].
      * intros Htop. apply Qle_bool_iff in Htop. rewrite Htop.
        destruct Hsrc as [[_ ->]|(n & Hin & -> & ->)].
        -- discriminate Htop.
        -- exists n. auto.
      * intros Htop. apply Qle_bool_false in Htop. now rewrite Htop.
Qed.

Lemma market_availability_witness :
  (exists n,
      In n ["Match Result"; "Over/Under 2.5"]
      /\ lower "Match Result" = lower n
      /\ check_market_availability (create_market_matcher (Float64.literal 0.05))
           sample_selection "sportybet" ["Match Result"; "Over/Under 2.5"]
         = (Ok (true, Some n, 1),
            snd (map_market_across_bookmakers (create_market_matcher (Float64.literal 0.05))
                   "Match Result" "bet9ja" "sportybet")))
  /\ (exists top final,
         check_market_availability (create_market_matcher (Float64.literal 0.05))
           sample_selection "sportybet" ["Match Results"; "Over/Under 2.5"]
         = (Ok (Qle_bool 0.8 top, final, top * 0.8),
            snd (map_market_across_bookmakers (create_market_matcher (Float64.literal 0.05))
                   "Match Result" "bet9ja" "sportybet"))
         /\ (0.8 <= top ->
             exists n, In n ["Match Results"; "Over/Under 2.5"]
                       /\ final = Some n)).
Proof.
  split.
  - refine (proj1 (market_availability (create_market_matcher (Float64.literal 0.05)) _
                     sample_selection "sportybet"
                     ["Match Result"; "Over/Under 2.5"] "Match Result" 0.8
                     _ _) _).
    + discriminate.
    + vm_compute. reflexivity.
    + exists "Match Result". split; [now left | reflexivity].
  - destruct (proj2 (market_availability (create_market_matcher (Float64.literal 0.05))
                       (snd (map_market_across_bookmakers
                               (create_market_matcher (Float64.literal 0.05))
                               "Match Result" "bet9ja" "sportybet"))
                       sample_selection "sportybet"
                       ["Match Results"; "Over/Under 2.5"] "Match Result" 0.8
                       ltac:(discriminate) ltac:(vm_compute; reflexivity)))
      as (top & final & Hrun & _ & _ & Hhigh & _).
    + intros n [<-|[<-|[]]]; vm_compute; discriminate.
    + exists top, final. split; [exact Hrun|].
      intros Htop. destruct (Hhigh Htop) as (n & Hin & Hfinal & _).
      exists n. auto.
Defined.

(** C3 as stated fails on the direct-match path: the confidence
    returned there is the constant 1.0, not a product with the mapping
    confidence (0.8 for "Match Result" towards Betway). *)
Lemma market_availability_counterexample :
  ~ confidence_is_product_in_every_case
  /\ fst (map_market_across_bookmakers (create_market_matcher (Float64.literal 0.05))
            "Match Result" "bet9ja" "betway")
     = Ok ("Match Result", 0.8)
  /\ fst (check_market_availability (create_market_matcher (Float64.literal 0.05))
            sample_selection "betway" ["Match Result"])
     = Ok (true, Some "Match Result", 1).
Proof.
  split; [|split; vm_compute; reflexivity].
  intros H.
  destruct (H (create_market_matcher (Float64.literal 0.05))
              (snd (map_market_across_bookmakers (create_market_matcher (Float64.literal 0.05))
                      "Match Result" "bet9ja" "betway"))
              (snd (check_market_availability (create_market_matcher (Float64.literal 0.05))
                      sample_selection "betway" ["Match Result"]))
              sample_selection "betway" ["Match Result"]
              "Match Result" 0.8 true (Some "Match Result") 1)
    as (s & [Hlo Hhi] & Hprod).
  - discriminate.
  - vm_compute. reflexivity.
  - vm_compute. reflexivity.
  - lra.
Qed.

End MarketFacts.

(** ** Composite scoring *)

Module ScoringFacts.
Import Text Adapters Matcher MatcherAux OddsFacts SimilarityFacts
       OrientationFacts GameFacts.
Local Open Scope Q_scope.

Lemma map_market_keeps_tolerance self market source target r self' :
  map_market_across_bookmakers self market source target = (r, self') ->
  odds_tolerance self' = odds_tolerance self.
Proof.
  unfold map_market_across_bookmakers.
  destruct (_ !! _); [now intros [= _ <-]|].
  destruct (compute_market_mapping _ _ _); now intros [= _ <-].
Qed.

Lemma check_market_keeps_tolerance self selection bookmaker names r self' :
  check_market_availability self selection bookmaker names = (r, self') ->
  odds_tolerance self' = odds_tolerance self.
Proof.
  unfold check_market_availability.
  destruct names as [|n0 rest]; [now intros [= _ <-]|].
  destruct (map_market_across_bookmakers _ _ _ _) as [[[mm mc]|e] s] eqn:E;
    apply map_market_keeps_tolerance in E.
  - destruct (market_loop _ _ _) as [n|[bm bc]]; now intros [= _ <-].
  - now intros [= _ <-].
Qed.

Lemma find_matching_game_first selection bookmaker cfg :
  get_bookmaker_adapter bookmaker = Some cfg ->
  forall games g c sw,
    In g games ->
    fuzzy_match_team_names (home_team selection) (away_team selection)
      (game_home g) (game_away g) "bet9ja" bookmaker = Ok (c, sw) ->
    0.7 <= c ->
    exists game,
      find_matching_game selection bookmaker games = Ok (Some game)
      /\ In game games.
Proof.
  intros Hcfg. induction games as [|g0 rest IH]; intros g c sw Hin Hs Hc;
    [destruct Hin|]. simpl.
  destruct (fuzzy_match_returns bookmaker cfg
              (home_team selection) (away_team selection)
              (game_home g0) (game_away g0) Hcfg)
    as (c0 & sw0 & Hf0 & _ & _).
  rewrite Hf0. destruct (Qle_bool 0.7 c0) eqn:E.
  - exists g0. split; [reflexivity | now left].
  - destruct Hin as [<-|Hin].
    + rewrite Hf0 in Hs. injection Hs as <- <-.
      apply Qle_bool_iff in Hc. congruence.
    + destruct (IH g c sw Hin Hs Hc) as (game & Hfound & Hin').
      exists game. split; [exact Hfound | now right].
Qed.

(** Once the game is available, the lookup of its data finds a game: the
    "Could not find matching game data" return is never taken. *)
Lemma find_matching_game_found selection bookmaker games ga :
  check_game_availability selection bookmaker games = Ok ga ->
  available ga = true ->
  exists game,
    find_matching_game selection bookmaker games = Ok (Some game)
    /\ In game games.
Proof.
  intros Hcheck Hav.
  destruct (game_availability_facts selection bookmaker games ga Hcheck)
    as (_ & _ & [Hex _] & _).
  destruct (Hex Hav) as (g & c & sw & Hin & Hs & Hc). clear Hex.
  destruct (check_game_availability_spec _ _ _ _ Hcheck)
    as [[_ ->]|(cfg & _ & _ & Hcfg & _)]; [discriminate|].
  eapply find_matching_game_first; eauto.
Qed.

(** Every result of [match_selection] names the game
    [check_game_availability] reported, and no game when it reported
    none. *)
Lemma match_selection_names_reported_game self selection bookmaker games
      tolerance ga r self' :
  check_game_availability selection bookmaker games = Ok ga ->
  match_selection self selection bookmaker games tolerance = (Ok r, self') ->
  matched_game r = game_name ga.
Proof.
  intros Hcheck. unfold match_selection. rewrite Hcheck.
  destruct (available ga) eqn:Hav; cbn [negb].
  - destruct (find_matching_game_found _ _ _ _ Hcheck Hav)
      as (game & -> & _).
    destruct (check_market_availability _ _ _ _) as [[[[ma mm] mc]|e] s'];
      [|discriminate].
    destruct (negb ma); [now intros [= <- _]|].
    destruct mm as [mapped|]; [|discriminate].
    destruct (find_odds _ _) as [o|]; [|now intros [= <- _]].
    destruct (Qle_bool o 0); [now intros [= <- _]|].
    destruct (compare_odds _ _ _ _) as [within d].
    now intros [= <- _].
  - intros [= <- _]. cbn.
    destruct (check_game_availability_spec _ _ _ _ Hcheck)
      as [[_ ->]|(cfg & bm & bc & _ & _ & [[_ ->]|(game & _ & _ & ->)])];
      [reflexivity | reflexivity | discriminate].
Qed.

(** X22. [check_game_availability] reports a candidate of highest
    team-similarity score, with its name, its markets and that score;
    the game is available exactly when that score is at least 0.7,
    that is, when some candidate scores at least 0.7. When it is not -
    always for an empty candidate list - [match_selection] returns the
    failure with no matched game, market or odds and the single warning
    that names both teams; and every result of [match_selection]
    carries in [matched_game] the name of the candidate reported. *)
Theorem best_candidate_is_reported :
  forall (self : MarketMatcher) (selection : Selection) (bookmaker : string)
         (games : list CandidateGame) (tolerance : option Q)
         (ga : GameAvailability),
    check_game_availability selection bookmaker games = Ok ga ->
    let score g :=
      fuzzy_match_team_names (home_team selection) (away_team selection)
        (game_home g) (game_away g) "bet9ja" bookmaker in
    (available ga = true ->
     exists game sw,
       In game games
       /\ game_name ga = Some (game_label game)
       /\ score game = Ok (ga_confidence ga, sw)
       /\ forall g c sw', In g games -> score g = Ok (c, sw') ->
                          c <= ga_confidence ga)
    /\ (available ga = true <-> 0.7 <= ga_confidence ga)
    /\ (available ga = true <->
        exists g c sw, In g games /\ score g = Ok (c, sw) /\ 0.7 <= c)
    /\ (available ga = false ->
        match_selection self selection bookmaker games tolerance
        = (Ok (failure (ga_confidence ga) None None
                       [game_not_found selection]), self)
        /\ contains (home_team selection) (game_not_found selection) = true
        /\ contains (away_team selection) (game_not_found selection) = true)
    /\ (forall r self',
          match_selection self selection bookmaker games tolerance
          = (Ok r, self') ->
          matched_game r = game_name ga)
    /\ (games = [] -> available ga = false).
Proof.
  intros self selection bookmaker games tolerance ga Hcheck score.
  destruct (game_availability_facts _ _ _ _ Hcheck)
    as (Hbest & Hthreshold & Hsome & Hempty).
  pose proof (game_not_found_mentions selection) as [Hhome Haway].
  split; [exact Hbest|]. split; [exact Hthreshold|]. split; [exact Hsome|].
  split; [|split; [|exact Hempty]].
  - intros Hav. split; [|auto].
    unfold match_selection. rewrite Hcheck, Hav. reflexivity.
  - intros r self'. now apply match_selection_names_reported_game.
Qed.

Lemma best_candidate_is_reported_witness :
  (exists game sw,
      In game reserves_first
      /\ Some "Man Utd vs Liverpool" = Some (game_label game)
      /\ fuzzy_match_team_names "Manchester United" "Liverpool"
           (game_home game) (game_away game) "bet9ja" "sportybet"
         = Ok (2 # 2, sw)
      /\ forall g c sw',
           In g reserves_first ->
           fuzzy_match_team_names "Manchester United" "Liverpool"
             (game_home g) (game_away g) "bet9ja" "sportybet"
           = Ok (c, sw') ->
           c <= 2 # 2)
  /\ forall r self',
       match_selection (create_market_matcher (Float64.literal 0.05))
         sample_selection "sportybet" reserves_first None = (Ok r, self') ->
       matched_game r = Some "Man Utd vs Liverpool".
Proof.
  pose proof (best_candidate_is_reported
                (create_market_matcher (Float64.literal 0.05))
                sample_selection "sportybet" reserves_first None
                {| available := true;
                   game_name := Some "Man Utd vs Liverpool";
                   ga_home_team := Some "Man Utd";
                   ga_away_team := Some "Liverpool";
                   markets :=
                     [ {| name := "Match Result";
                          listed_odds := Float64.literal 2.48 |} ];
                   ga_confidence := 2 # 2 |})
    as Hspec.
  destruct Hspec as (Hbest & _ & _ & _ & Hnames & _);
    [vm_compute; reflexivity|].
  split; [exact (Hbest eq_refl) | exact Hnames].
Defined.

(** C2 fails on the code. The reserves fixture is listed first and
    scores 0.78, the fixture itself scores 1.0:
    [check_game_availability] chooses the fixture, and the result names
    it, but the game [match_selection] goes on with - its
    [matching_game] - is the first candidate scoring at least 0.7, the
    reserves fixture, and the result carries the odds listed for that
    one. *)
Theorem market_data_of_first_acceptable_game :
  exists ga r self',
    check_game_availability sample_selection "sportybet" reserves_first
    = Ok ga
    /\ game_name ga = Some "Man Utd vs Liverpool"
    /\ ga_confidence ga == 1
    /\ markets ga = game_markets (List.nth 1 reserves_first
                                    (Build_CandidateGame "" "" []))
    /\ fuzzy_match_team_names "Manchester United" "Liverpool"
         "Man Utd" "Liverpool Reserves" "bet9ja" "sportybet"
       = Ok (53320000 # 68000000, false)
    /\ find_matching_game sample_selection "sportybet" reserves_first
       = Ok (List.nth_error reserves_first 0)
    /\ match_selection (create_market_matcher (Float64.literal 0.05))
         sample_selection "sportybet" reserves_first None = (Ok r, self')
    /\ success r = true
    /\ matched_game r = Some "Man Utd vs Liverpool"
    /\ matched_market r = Some "Match Result"
    /\ matched_odds r = Some 1.50
    /\ warnings r = ["Odds difference too large: 1.000"].
Proof.
  eexists. eexists. eexists. split; [vm_compute; reflexivity|].
  split; [reflexivity|]. split; [vm_compute; reflexivity|].
  split; [reflexivity|]. split; [vm_compute; reflexivity|].
  split; [vm_compute; reflexivity|]. split; [vm_compute; reflexivity|].
  repeat split.
Qed.

(** C1 fails on the code. The fixture is the best game, scoring 1.0,
    its market check succeeds and its market lists positive odds; but
    [match_selection] checks the market on the first candidate scoring
    at least 0.7, the reserves fixture, which lists corners only, and
    returns a failure. *)
Theorem best_game_market_is_not_the_one_checked :
  exists ga self1 r self2,
    check_game_availability sample_selection "sportybet" corners_first
    = Ok ga
    /\ available ga = true
    /\ game_name ga = Some "Man Utd vs Liverpool"
    /\ ga_confidence ga == 1
    /\ check_market_availability
         (create_market_matcher (Float64.literal 0.05)) sample_selection
         "sportybet" (List.map name (markets ga))
       = (Ok (true, Some "Match Result", 1), self1)
    /\ find_odds "Match Result" (markets ga) = Some (Float64.literal 2.48)
    /\ 0 < Float64.literal 2.48
    /\ find_matching_game sample_selection "sportybet" corners_first
       = Ok (List.nth_error corners_first 0)
    /\ match_selection (create_market_matcher (Float64.literal 0.05))
         sample_selection "sportybet" corners_first None = (Ok r, self2)
    /\ success r = false
    /\ matched_game r = Some "Man Utd vs Liverpool"
    /\ matched_odds r = None
    /\ warnings r = ["Market not available: Match Result"].
Proof.
  eexists. eexists. eexists. eexists. split; [vm_compute; reflexivity|].
  split; [reflexivity|]. split; [reflexivity|].
  split; [vm_compute; reflexivity|]. split; [vm_compute; reflexivity|].
  split; [vm_compute; reflexivity|]. split; [vm_compute; reflexivity|].
  split; [vm_compute; reflexivity|]. split; [vm_compute; reflexivity|].
  repeat split.
Qed.

(** What [compare_odds] answers inside [match_selection]. *)
Lemma compare_odds_cases self a b tolerance :
  0 < b ->
  let difference := Float64.abs (Float64.sub a b) in
  (0 < a -> difference <= tolerance_used self tolerance ->
   compare_odds self a b tolerance = (true, Fin difference))
  /\ (0 < a -> tolerance_used self tolerance < difference ->
      compare_odds self a b tolerance = (false, Fin difference))
  /\ (a <= 0 -> compare_odds self a b tolerance = (false, Inf)).
Proof.
  intros Hb difference. unfold compare_odds.
  fold (tolerance_used self tolerance). fold difference.
  apply Qle_bool_false in Hb. rewrite Hb, orb_false_r.
  split; [|split].
  - intros Ha Hle. apply Qle_bool_false in Ha. rewrite Ha.
    apply Qle_bool_iff in Hle. now rewrite Hle.
  - intros Ha Hlt. apply Qle_bool_false in Ha. rewrite Ha.
    apply Qle_bool_false in Hlt. now rewrite Hlt.
  - intros Ha. apply Qle_bool_iff in Ha. now rewrite Ha.
Qed.

(** X21. When the game is available, the market check on the game
    [match_selection] looks up (the first candidate scoring at least
    0.7) succeeds and the market's listed odds are positive,
    [match_selection] succeeds and carries the game's name, the market
    and the listed odds. Its confidence is 0.4 x game confidence + 0.4
    x market confidence + 0.2 x (1.0 within tolerance, else 0.5): with
    positive odds whose difference, as [compare_odds] computes it, is
    at most the tolerance there is no warning; with a larger
    difference, or with non-positive odds in the selection, the result
    is still a success whose one warning is the odds-difference
    message. *)
Theorem successful_match_confidence :
  forall (self self' : MarketMatcher) (selection : Selection)
         (bookmaker : string) (games : list CandidateGame)
         (tolerance : option Q) (ga : GameAvailability)
         (matching_game : CandidateGame) (mapped : string)
         (market_confidence o : Q),
    check_game_availability selection bookmaker games = Ok ga ->
    available ga = true ->
    find_matching_game selection bookmaker games = Ok (Some matching_game) ->
    check_market_availability self selection bookmaker
      (List.map name (game_markets matching_game))
    = (Ok (true, Some mapped, market_confidence), self') ->
    find_odds mapped (game_markets matching_game) = Some o ->
    0 < o ->
    let difference := Float64.abs (Float64.sub (odds selection) o) in
    let base := 0.4 * ga_confidence ga + 0.4 * market_confidence in
    exists r,
      match_selection self selection bookmaker games tolerance = (Ok r, self')
      /\ success r = true
      /\ matched_game r = game_name ga
      /\ matched_market r = Some mapped
      /\ matched_odds r = Some o
      /\ original_odds r = Some (odds selection)
      /\ (0 < odds selection ->
          difference <= tolerance_used self tolerance ->
          confidence r == base + 0.2 * 1
          /\ warnings r = []
          /\ odds_difference r = Some (Fin difference))
      /\ (0 < odds selection ->
          tolerance_used self tolerance < difference ->
          confidence r == base + 0.2 * 0.5
          /\ warnings r = [odds_warning (Fin difference)]
          /\ odds_difference r = Some (Fin difference))
      /\ (odds selection <= 0 ->
          confidence r == base + 0.2 * 0.5
          /\ warnings r = [odds_warning Inf]
          /\ odds_difference r = Some Inf).
Proof.
  intros self self' selection bookmaker games tolerance ga matching_game
         mapped market_confidence o Hcheck Hav Hfind Hmarket Hodds Hpos
         difference base.
  pose proof (check_market_keeps_tolerance _ _ _ _ _ _ Hmarket) as Htol.
  assert (tolerance_used self' tolerance = tolerance_used self tolerance)
    as Hused by (unfold tolerance_used; now rewrite Htol).
  destruct (compare_odds_cases self' (odds selection) o tolerance Hpos)
    as (Hin & Hout & Hbad).
  rewrite Hused in Hin, Hout. fold difference in Hin, Hout.
  unfold match_selection.
  rewrite Hcheck, Hav. cbn [negb]. rewrite Hfind. rewrite Hmarket.
  cbn [negb]. rewrite Hodds.
  pose proof Hpos as Hpos'. apply Qle_bool_false in Hpos'. rewrite Hpos'.
  destruct (compare_odds self' (odds selection) o tolerance)
    as [within d] eqn:Ecmp.
  eexists. split; [reflexivity|].
  cbn [success confidence warnings matched_game matched_market matched_odds
       original_odds odds_difference].
  do 5 (split; [reflexivity|]).
  unfold overall_confidence, base. split; [|split].
  - intros Ha Hle. specialize (Hin Ha Hle). injection Hin as -> ->.
    split; [lra|]. split; reflexivity.
  - intros Ha Hlt. specialize (Hout Ha Hlt). injection Hout as -> ->.
    split; [lra|]. split; reflexivity.
  - intros Ha. specialize (Hbad Ha). injection Hbad as -> ->.
    split; [lra|]. split; reflexivity.
Qed.

Lemma successful_match_confidence_witness :
  exists r,
    match_selection (create_market_matcher (Float64.literal 0.05))
      sample_selection "sportybet" (sample_games 2.90) None
    = (Ok r, snd (map_market_across_bookmakers
                    (create_market_matcher (Float64.literal 0.05))
                    "Match Result" "bet9ja" "sportybet"))
    /\ success r = true
    /\ confidence r == 0.9
    /\ warnings r = ["Odds difference too large: 0.400"].
Proof.
  destruct (successful_match_confidence
              (create_market_matcher (Float64.literal 0.05))
              (snd (map_market_across_bookmakers
                      (create_market_matcher (Float64.literal 0.05))
                      "Match Result" "bet9ja" "sportybet"))
              sample_selection "sportybet" (sample_games 2.90) None
              {| available := true;
                 game_name := Some "Man Utd vs Liverpool";
                 ga_home_team := Some "Man Utd";
                 ga_away_team := Some "Liverpool";
                 markets := game_markets
                              (List.hd (Build_CandidateGame "" "" [])
                                       (sample_games 2.90));
                 ga_confidence := 2 # 2 |}
              (List.hd (Build_CandidateGame "" "" []) (sample_games 2.90))
              "Match Result" 1 (Float64.literal 2.90))
    as (r & Hrun & Hsuccess & _ & _ & _ & _ & _ & Hfar & _);
    try (vm_compute; reflexivity).
  destruct Hfar as (Hconf & Hwarn & _); [reflexivity | vm_compute; reflexivity|].
  exists r. split; [exact Hrun|]. split; [exact Hsuccess|].
  split.
  - rewrite Hconf. vm_compute. reflexivity.
  - rewrite Hwarn. vm_compute. reflexivity.
Defined.

End ScoringFacts.

(** ** The market-mapping cache *)

Module CacheFacts.
Import Text Adapters Matcher MatcherAux.
Local Open Scope Q_scope.

(** On a miss the mapping is computed and stored under the key. *)
Lemma map_market_miss self market source target r :
  _market_mapping_cache self !! cache_key source target market = None ->
  compute_market_mapping market source target = Ok r ->
  exists self',
    map_market_across_bookmakers self market source target = (Ok r, self')
    /\ _market_mapping_cache self' !! cache_key source target market = Some r.
Proof.
  intros Hmiss Hcompute. unfold map_market_across_bookmakers.
  rewrite Hmiss, Hcompute. eexists. split; [reflexivity|].
  cbn. apply lookup_insert_eq.
Qed.

(** On a hit the stored pair is returned as it is, whatever market
    spelling put it there. *)
Lemma map_market_hit self market source target cached :
  _market_mapping_cache self !! cache_key source target market = Some cached ->
  map_market_across_bookmakers self market source target = (Ok cached, self).
Proof.
  intros Hhit. unfold map_market_across_bookmakers. now rewrite Hhit.
Qed.

(** The key folds the market to lower case. *)
Lemma cache_key_ignores_case source target market market' :
  lower market = lower market' ->
  cache_key source target market = cache_key source target market'.
Proof. intros H. unfold cache_key. now rewrite H. Qed.

(** C4 fails on the code. "Match Result" and "MATCH RESULT" (Bet9ja to
    Betway) are two triples with one cache key; computed afresh the
    second maps with confidence 0.9, but after a call for the first it
    is answered from the cache with the first one's confidence 0.8. *)
Theorem market_cache_answers_across_spellings :
  exists self',
    map_market_across_bookmakers (create_market_matcher (Float64.literal 0.05))
      "Match Result" "bet9ja" "betway"
    = (Ok ("Match Result", 0.8), self')
    /\ map_market_across_bookmakers self' "MATCH RESULT" "bet9ja" "betway"
       = (Ok ("Match Result", 0.8), self')
    /\ compute_market_mapping "MATCH RESULT" "bet9ja" "betway"
       = Ok ("Match Result", 0.9)
    /\ fst (map_market_across_bookmakers (create_market_matcher (Float64.literal 0.05))
              "MATCH RESULT" "bet9ja" "betway")
       = Ok ("Match Result", 0.9)
    /\ cache_key "bet9ja" "betway" "Match Result"
       = cache_key "bet9ja" "betway" "MATCH RESULT".
Proof.
  eexists. split; [vm_compute; reflexivity|].
  repeat split; vm_compute; reflexivity.
Qed.

End CacheFacts.
(** ** Pool acquisition and release *)

Module PoolFacts.
Import Pool PoolAux.
Local Open Scope list_scope.

Lemma new_pool_fresh capacity start :
  fresh_pool_state capacity 0 (new_pool capacity start).
Proof.
  unfold fresh_pool_state, new_pool; simpl.
  repeat split; try reflexivity.
  - rewrite lookup_empty in H. discriminate.
  - rewrite lookup_empty in H. discriminate.
Qed.

(** An acquisition on an empty idle queue below capacity creates a new
    object, checked out at [now], under an id built from the instance
    count and the clock. *)
Lemma get_instance_creates now p :
  available_instances p = [] ->
  size (instances p) < max_instances p ->
  exists r instance,
    get_instance now p
    = (Ok r, set_instances (<[(size (instances p), now) := r]> (instances p))
               (set_objects (<[r := instance]> (objects p)) p))
    /\ objects p !! r = None
    /\ instance = {| id := (size (instances p), now); in_use := true;
                     created_at := now; last_used := now;
                     usage_count := 0; max_usage := 50 |}.
Proof.
  intros Hq Hsize. unfold get_instance. rewrite Hq.
  apply Nat.ltb_lt in Hsize. rewrite Hsize.
  unfold _create_instance.
  eexists. eexists. split; [reflexivity|]. split; [|reflexivity].
  apply not_elem_of_dom. apply is_fresh.
Qed.

Lemma acquire_fresh capacity k now p :
  fresh_pool_state capacity k p -> k < capacity ->
  exists r p',
    get_instance now p = (Ok r, p')
    /\ fresh_pool_state capacity (S k) p'
    /\ instances p' !! (k, now) = Some r
    /\ forall iid r0, instances p !! iid = Some r0 ->
                      instances p' !! iid = Some r0.
Proof.
  intros (Hmax & Hq & Hsize & Htracked) Hk.
  destruct (get_instance_creates now p Hq) as (r & instance & Hget & Hnew & Hinst);
    [lia|].
  rewrite Hsize in Hget, Hinst.
  assert (instances p !! (k, now) = None) as Hfree.
  { destruct (instances p !! (k, now)) as [r0|] eqn:E; [|reflexivity].
    destruct (Htracked _ _ E) as [Hlt _]. simpl in Hlt. lia. }
  eexists r, _. split; [exact Hget|]. split; [|split].
  - unfold fresh_pool_state; simpl. repeat split; auto.
    + rewrite map_size_insert_None; auto.
    + destruct (decide (iid = (k, now))) as [->|Hne]; [simpl; lia|].
      rewrite lookup_insert_ne in H by congruence.
      destruct (Htracked _ _ H) as [Hlt _]. lia.
    + destruct (decide (iid = (k, now))) as [->|Hne].
      * rewrite lookup_insert_eq in H. injection H as <-.
        exists instance. rewrite lookup_insert_eq. subst instance. auto.
      * rewrite lookup_insert_ne in H by congruence.
        destruct (Htracked _ _ H) as [_ (i0 & Hobj & ?)].
        exists i0. split; [|assumption].
        rewrite lookup_insert_ne; [exact Hobj|].
        intros <-. rewrite Hnew in Hobj. discriminate.
  - simpl. apply lookup_insert_eq.
  - intros iid r0 H. simpl.
    rewrite lookup_insert_ne; [exact H|].
    intros <-. rewrite Hfree in H. discriminate.
Qed.

Lemma full_pool_refuses capacity now p :
  fresh_pool_state capacity capacity p ->
  get_instance now p = (Raise exhausted, p).
Proof.
  intros (Hmax & Hq & Hsize & _). unfold get_instance.
  rewrite Hq, Hsize, Hmax, Nat.ltb_irrefl. reflexivity.
Qed.

Lemma release_then_acquire capacity k p iid r close_fails now :
  fresh_pool_state capacity k p ->
  instances p !! iid = Some r ->
  fst (get_instance now (release_instance close_fails r p)) = Ok r.
Proof.
  intros (Hmax & Hq & Hsize & Htracked) Hr.
  destruct (Htracked _ _ Hr) as [_ (instance & Hobj & Hid & Huse & Hmaxuse)].
  unfold release_instance. rewrite Hobj.
  cbn [check_in max_usage usage_count]. rewrite Hmaxuse, Huse.
  cbn [Nat.leb]. unfold get_instance. cbn. rewrite Hq, Hid. cbn.
  rewrite Hr. reflexivity.
Qed.

Lemma acquisitions_from_fresh capacity : forall clocks k p,
  fresh_pool_state capacity k p ->
  k + length clocks <= capacity ->
  exists refs p',
    run (List.map Acquire clocks) p
    = (List.map (fun r => Some (Ok r)) refs, p')
    /\ length refs = length clocks
    /\ fresh_pool_state capacity (k + length clocks) p'
    /\ (forall iid r0, instances p !! iid = Some r0 ->
                       instances p' !! iid = Some r0)
    /\ forall r, In r refs -> exists iid, instances p' !! iid = Some r.
Proof.
  induction clocks as [|now clocks IH]; intros k p Hfresh Hk; simpl in *.
  - exists [], p. rewrite Nat.add_0_r.
    split; [reflexivity|]. split; [reflexivity|]. split; [exact Hfresh|].
    split; [auto|]. intros r [].
  - destruct (acquire_fresh capacity k now p Hfresh) as (r & p1 & Hget & Hfresh1 & Hr & Hkeep);
      [lia|].
    rewrite Hget.
    destruct (IH (S k) p1 Hfresh1) as (refs & p2 & Hrun & Hlen & Hfresh2 & Hkeep2 & Hrefs);
      [lia|].
    rewrite Hrun. exists (r :: refs), p2. simpl.
    replace (k + S (length clocks)) with (S k + length clocks) by lia.
    split; [reflexivity|]. split; [now rewrite Hlen|].
    split; [exact Hfresh2|]. split; [auto|].
    intros r' [<-|Hin]; [|auto]. exists (k, now). auto.
Qed.

(** A queue head that is no longer tracked is consumed and answered
    with [KeyError]. *)
Lemma get_instance_untracked_head now p iid rest :
  available_instances p = iid :: rest ->
  instances p !! iid = None ->
  get_instance now p = (Raise (KeyError (render_id iid)), set_available rest p).
Proof.
  intros Hq Hr. unfold get_instance. rewrite Hq. cbn. now rewrite Hr.
Qed.

(** The acquisition protocol on a pool whose idle queue holds tracked
    ids. [get_instance] hands out the instance at the head of the idle
    queue, marking it busy with its last-used time updated; on an empty
    idle queue it creates a new instance (busy, last used now) while the
    instance count is below capacity, and raises the capacity error
    otherwise. So a new pool serves [capacity] acquisitions, refuses the
    next one, and after the release of any acquired instance serves the
    next acquisition with that instance. *)
Lemma acquisition_protocol :
  (forall now p iid rest r,
      available_instances p = iid :: rest ->
      instances p !! iid = Some r ->
      exists p',
        get_instance now p = (Ok r, p')
        /\ available_instances p' = rest
        /\ instances p' = instances p
        /\ objects p' !! r = check_out now <$> objects p !! r
        /\ forall i, in_use (check_out now i) = true
                     /\ last_used (check_out now i) = now)
  /\ (forall now p,
         available_instances p = [] ->
         size (instances p) < max_instances p ->
         exists r p' instance,
           get_instance now p = (Ok r, p')
           /\ objects p !! r = None
           /\ objects p' !! r = Some instance
           /\ instances p' !! id instance = Some r
           /\ in_use instance = true
           /\ last_used instance = now
           /\ usage_count instance = 0)
  /\ (forall now p,
         available_instances p = [] ->
         max_instances p <= size (instances p) ->
         get_instance now p = (Raise exhausted, p))
  /\ (forall capacity start clocks,
         length clocks = capacity ->
         exists refs p,
           run (List.map Acquire clocks) (new_pool capacity start)
           = (List.map (fun r => Some (Ok r)) refs, p)
           /\ length refs = capacity
           /\ (forall now, get_instance now p = (Raise exhausted, p))
           /\ forall r close_fails now,
                In r refs ->
                fst (get_instance now (release_instance close_fails r p))
                = Ok r).
Proof.
  split; [|split; [|split]].
  - intros now p iid rest r Hq Hr. unfold get_instance. rewrite Hq.
    cbn. rewrite Hr. eexists. split; [reflexivity|]. cbn.
    repeat split; auto. apply lookup_alter_eq.
  - intros now p Hq Hsize.
    destruct (get_instance_creates now p Hq Hsize)
      as (r & instance & Hget & Hnew & Hinst).
    eexists r, _, instance. split; [exact Hget|]. cbn.
    rewrite !lookup_insert_eq. subst instance. cbn.
    rewrite lookup_insert_eq. auto 10.
  - intros now p Hq Hsize. unfold get_instance. rewrite Hq.
    apply Nat.ltb_ge in Hsize. rewrite Hsize. reflexivity.
  - intros capacity start clocks Hlen.
    destruct (acquisitions_from_fresh capacity clocks 0
                (new_pool capacity start) (new_pool_fresh capacity start))
      as (refs & p & Hrun & Hrefs & Hfresh & _ & Htracked); [lia|].
    rewrite Hlen in *. simpl in Hfresh.
    exists refs, p. repeat split; auto.
    + intros now. eapply full_pool_refuses; eauto.
    + intros r close_fails now Hin.
      destruct (Htracked r Hin) as (iid & Hr).
      eapply release_then_acquire; eauto.
Qed.

Example acquisition_protocol_of_three :
  exists refs p,
    run (List.map Acquire [1000; 1000; 1001]%Z) (new_pool 3 1000)
    = (List.map (fun r => Some (Ok r)) refs, p)
    /\ length refs = 3
    /\ get_instance 1002 p = (Raise exhausted, p)
    /\ fst (get_instance 1003 (release_instance false (List.hd 0 refs) p))
       = Ok (List.hd 0 refs).
Proof.
  destruct (proj2 (proj2 (proj2 acquisition_protocol)) 3 1000%Z
                  [1000; 1000; 1001]%Z eq_refl)
    as (refs & p & Hrun & Hlen & Hfull & Hnext).
  exists refs, p. repeat split; auto.
  apply Hnext. destruct refs; [discriminate | now left].
Qed.

(** C7 fails on the code after an idle cleanup. An instance acquired at
    second 0 and released is recycled by [cleanup_instances] at second
    1801, which drops it from [instances] but leaves its id in the idle
    queue. No idle instance exists then and the count (0) is below the
    capacity (2), yet the next acquisition neither creates an instance
    nor raises the capacity error: it raises [KeyError] on the stale
    id. *)
Theorem acquisition_after_idle_cleanup :
  exists r p1 p4,
    get_instance 0 (new_pool 2 0) = (Ok r, p1)
    /\ let p2 := release_instance false r p1 in
       let p3 := cleanup_instances 1801 (fun _ => false) p2 in
       available_instances p2 = [(0, 0%Z)]
       /\ instances p3 = ∅
       /\ size (instances p3) < max_instances p3
       /\ available_instances p3 = [(0, 0%Z)]
       /\ get_instance 1801 p3 = (Raise (KeyError "browser_0_0"), p4)
       /\ available_instances p4 = [].
Proof.
  do 3 eexists. split; [vm_compute; reflexivity|].
  cbv zeta. split; [vm_compute; reflexivity|].
  split; [vm_compute; reflexivity|].
  split; [vm_compute; lia|].
  split; [vm_compute; reflexivity|].
  split; vm_compute; reflexivity.
Qed.

End PoolFacts.

(** ** Recycling *)

Module RecycleFacts.
Import Pool PoolAux.
Local Open Scope list_scope.

(** Every release marks the object idle and counts one more use. *)
Lemma release_marks_idle close_fails r p instance :
  objects p !! r = Some instance ->
  objects (release_instance close_fails r p) !! r = Some (check_in instance)
  /\ in_use (check_in instance) = false
  /\ usage_count (check_in instance) = S (usage_count instance).
Proof.
  intros H. unfold release_instance. rewrite H.
  split; [|split; reflexivity].
  destruct (_ <=? _); [unfold _recycle_instance; destruct close_fails|];
    cbn; apply lookup_insert_eq.
Qed.

(** Below the threshold the id goes back to the idle queue. *)
Lemma release_requeues close_fails r p instance :
  objects p !! r = Some instance ->
  S (usage_count instance) < max_usage instance ->
  available_instances (release_instance close_fails r p)
  = available_instances p ++ [id instance]
  /\ instances (release_instance close_fails r p) = instances p.
Proof.
  intros H Hlt. unfold release_instance. rewrite H. cbn.
  apply Nat.leb_gt in Hlt. rewrite Hlt. cbn. auto.
Qed.

(** At the threshold the id is not queued again, and (when closing the
    browser does not fail) the instance is dropped from the pool. *)
Lemma release_recycles close_fails r p instance :
  objects p !! r = Some instance ->
  max_usage instance <= S (usage_count instance) ->
  available_instances (release_instance close_fails r p)
  = available_instances p
  /\ (close_fails = false ->
      instances (release_instance close_fails r p)
      = delete (id instance) (instances p)).
Proof.
  intros H Hle. unfold release_instance. rewrite H. cbn.
  apply Nat.leb_le in Hle. rewrite Hle.
  unfold _recycle_instance. destruct close_fails; cbn; split; auto.
  discriminate.
Qed.

(** The number of tracked instances never exceeds the capacity. *)
Lemma capacity_step op p :
  size (instances p) <= max_instances p ->
  size (instances (snd (step op p))) <= max_instances (snd (step op p))
  /\ max_instances (snd (step op p)) = max_instances p.
Proof.
  intros Hcap. destruct op as [now|close_fails r]; unfold step.
  - destruct (get_instance now p) as [a p'] eqn:G. cbn [snd].
    unfold get_instance in G.
    destruct (available_instances p) as [|iid rest].
    + destruct (size (instances p) <? max_instances p) eqn:E.
      * unfold _create_instance in G. injection G as _ <-.
        cbn [instances max_instances set_instances set_objects].
        apply Nat.ltb_lt in E. split; [|reflexivity].
        rewrite map_size_insert. destruct (instances p !! _); cbn; lia.
      * injection G as _ <-. auto.
    + cbn [instances set_available] in G.
      destruct (instances p !! iid); injection G as _ <-; cbn; auto.
  - cbn [snd]. unfold release_instance.
    destruct (objects p !! r) as [instance|]; [|auto].
    destruct (_ <=? _); [|cbn; auto].
    unfold _recycle_instance. destruct close_fails; [cbn; auto|].
    cbn [instances max_instances set_instances set_objects].
    split; [|reflexivity].
    pose proof (map_subseteq_size _ _ (delete_subseteq (instances p)
                                         (id (check_in instance)))).
    lia.
Qed.

Lemma capacity_run : forall ops p,
  size (instances p) <= max_instances p ->
  size (instances (snd (run ops p))) <= max_instances p.
Proof.
  induction ops as [|op ops IH]; intros p Hcap; cbn; [exact Hcap|].
  destruct (capacity_step op p Hcap) as [Hstep Hmax].
  destruct (step op p) as [a p1]. cbn in Hstep, Hmax.
  specialize (IH p1 Hstep). destruct (run ops p1) as [answers p2].
  cbn in *. lia.
Qed.

(** C8 fails on the code. Fifty rounds of acquire and release on a pool
    of capacity 1, all within clock second 1000, use one instance with
    id (0, 1000) ("browser_0_1000") and recycle it on the fiftieth
    release; the next acquisition in that same second creates a new
    instance and hands it out under the recycled id. *)
Theorem recycled_id_is_issued_again :
  exists p r p' instance,
    cycles 50 1000 (new_pool 1 1000) = (repeat (0, 1000%Z) 50, p)
    /\ instances p = ∅
    /\ available_instances p = []
    /\ get_instance 1000 p = (Ok r, p')
    /\ objects p' !! r = Some instance
    /\ usage_count instance = 0
    /\ id instance = (0, 1000%Z)
    /\ render_id (id instance) = "browser_0_1000".
Proof.
  do 4 eexists. split; [vm_compute; reflexivity|].
  repeat split; vm_compute; reflexivity.
Qed.

End RecycleFacts.
(** ** Task lifecycle *)

Module WorkerFacts.
Import Pool Worker WorkerAux.
Local Open Scope list_scope.

Lemma completions_app t c1 c2 :
  completions t (c1 ++ c2) = completions t c1 + completions t c2.
Proof. unfold completions. now rewrite List.filter_app, List.length_app. Qed.

Lemma releases_app r c1 c2 :
  releases r (c1 ++ c2) = releases r c1 + releases r c2.
Proof. unfold releases. now rewrite List.filter_app, List.length_app. Qed.

Lemma acquisitions_app r c1 c2 :
  acquisitions r (c1 ++ c2) = acquisitions r c1 + acquisitions r c2.
Proof. unfold acquisitions. now rewrite List.filter_app, List.length_app. Qed.

(** The calls of [_process_conversion_task]: nothing when no instance
    could be acquired, else one acquisition and one release of it. *)
Lemma process_calls env task pool :
  let calls := snd (_process_conversion_task env task pool) in
  calls = [] \/ exists r, calls = [GetInstance r; ReleaseInstance r].
Proof.
  unfold _process_conversion_task.
  destruct (get_instance _ _) as [[r|e] pool']; cbn; eauto.
Qed.

(** One pass over a non-empty queue. *)
Lemma worker_iteration_task env m task rest :
  queue (conversion_queue m) = task :: rest ->
  exists result pool calls,
    worker_iteration env m
    = ({| browser_pool := pool;
          conversion_queue :=
            complete_task (task_id task) result
              {| max_size := max_size (conversion_queue m);
                 queue := rest;
                 processing_tasks :=
                   <[task_id task := task]>
                     (processing_tasks (conversion_queue m));
                 completed_tasks := completed_tasks (conversion_queue m) |} |},
       calls ++ [CompleteTask (task_id task) result])
    /\ (calls = [] \/ exists r, calls = [GetInstance r; ReleaseInstance r]).
Proof.
  intros Hq. unfold worker_iteration, get_task. rewrite Hq.
  destruct (run_fails env) as [message|].
  - eexists _, _, []. split; [reflexivity | now left].
  - pose proof (process_calls (agent env) task (browser_pool m)) as Hcalls.
    destruct (_process_conversion_task _ _ _) as [[result pool] calls].
    cbn in Hcalls. eexists result, _, calls. split; [reflexivity | exact Hcalls].
Qed.

Lemma worker_iteration_idle env m :
  queue (conversion_queue m) = [] ->
  worker_iteration env m
  = ({| browser_pool := browser_pool m;
        conversion_queue := conversion_queue m |}, []).
Proof. intros Hq. unfold worker_iteration, get_task. now rewrite Hq. Qed.

Lemma pass_counts calls t task result :
  (calls = [] \/ exists r, calls = [GetInstance r; ReleaseInstance r]) ->
  completions t (calls ++ [CompleteTask task result])
  = (if String.eqb task t then 1 else 0)
  /\ forall r, releases r (calls ++ [CompleteTask task result])
               = acquisitions r (calls ++ [CompleteTask task result]).
Proof.
  intros [->|[r0 ->]]; cbn.
  - split; [|reflexivity]. unfold completions; cbn.
    now destruct (String.eqb task t).
  - split.
    + unfold completions; cbn. now destruct (String.eqb task t).
    + intros r. unfold releases, acquisitions; cbn.
      now destruct (Nat.eqb r0 r).
Qed.

Lemma worker_loop_spec : forall envs m,
  exists m' calls,
    _worker_loop envs m = (m', calls)
    /\ (forall t, completions t calls
                  = occurrences t (dequeued (length envs) (conversion_queue m)))
    /\ (forall r, releases r calls = acquisitions r calls)
    /\ (forall t, In t (dequeued (length envs) (conversion_queue m)) ->
          processing_tasks (conversion_queue m') !! t = None
          /\ is_Some (completed_tasks (conversion_queue m') !! t))
    /\ (forall t, ~ In t (dequeued (length envs) (conversion_queue m)) ->
          processing_tasks (conversion_queue m') !! t
          = processing_tasks (conversion_queue m) !! t
          /\ completed_tasks (conversion_queue m') !! t
             = completed_tasks (conversion_queue m) !! t).
Proof.
  induction envs as [|env envs IH]; intros m.
  - exists m, []. unfold dequeued; cbn.
    split; [reflexivity|]. split; [reflexivity|]. split; [reflexivity|].
    split; [intros t []|auto].
  - cbn [_worker_loop length].
    destruct (queue (conversion_queue m)) as [|task rest] eqn:Hq.
    + rewrite (worker_iteration_idle env m Hq).
      destruct (IH {| browser_pool := browser_pool m;
                      conversion_queue := conversion_queue m |})
        as (m' & calls & Hrun & Hcount & Hrel & Hdone & Hframe).
      rewrite Hrun. exists m', calls. cbn [app].
      unfold dequeued in *. cbn [conversion_queue] in *.
      rewrite Hq in *. rewrite List.firstn_nil in *. auto.
    + destruct (worker_iteration_task env m task rest Hq)
        as (result & pool & c1 & Hpass & Hc1).
      rewrite Hpass. set (m1 := Build_ParallelBrowserManager _ _).
      destruct (IH m1) as (m' & c2 & Hrun & Hcount & Hrel & Hdone & Hframe).
      rewrite Hrun. exists m', ((c1 ++ [CompleteTask (task_id task) result]) ++ c2).
      destruct (pass_counts c1 (task_id task) (task_id task) result Hc1)
        as [_ Hrel1].
      assert (dequeued (S (length envs)) (conversion_queue m)
              = task_id task :: dequeued (length envs) (conversion_queue m1))
        as Hdeq.
      { unfold dequeued. rewrite Hq. reflexivity. }
      rewrite Hdeq. split; [reflexivity|]. split; [|split; [|split]].
      * intros t. rewrite completions_app, Hcount.
        destruct (pass_counts c1 t (task_id task) result Hc1) as [-> _].
        unfold occurrences. cbn [List.filter].
        rewrite (String.eqb_sym t (task_id task)).
        now destruct (String.eqb (task_id task) t).
      * intros r. now rewrite releases_app, acquisitions_app, Hrel, Hrel1.
      * intros t Hin.
        destruct (in_dec string_dec t (dequeued (length envs) (conversion_queue m1)))
          as [Hlater|Hnot]; [now apply Hdone|].
        destruct Hin as [<-|Hin]; [|contradiction].
        destruct (Hframe _ Hnot) as [-> ->]. subst m1. cbn.
        rewrite lookup_delete_eq, lookup_insert_eq. eauto.
      * intros t Hnot.
        assert (t <> task_id task) as Hne by (intros ->; apply Hnot; now left).
        assert (~ In t (dequeued (length envs) (conversion_queue m1))) as Hnot'
            by (intros H; apply Hnot; now right).
        destruct (Hframe _ Hnot') as [-> ->]. subst m1. cbn.
        rewrite lookup_delete_ne, !lookup_insert_ne by congruence. auto.
Qed.

Lemma occurrences_absent t ids : ~ In t ids -> occurrences t ids = 0.
Proof.
  unfold occurrences. induction ids as [|x l IH]; intros Hnot; cbn; [reflexivity|].
  destruct (String.eqb t x) eqn:E.
  - apply String.eqb_eq in E. subst x. exfalso. apply Hnot. now left.
  - apply IH. intros H. apply Hnot. now right.
Qed.

Lemma occurrences_NoDup t ids :
  List.NoDup ids ->
  occurrences t ids <= 1 /\ (In t ids -> occurrences t ids = 1).
Proof.
  induction 1 as [|x l Hx Hl IH].
  - split; [unfold occurrences; cbn; lia | intros []].
  - assert (occurrences t (x :: l)
            = (if String.eqb t x then 1 else 0) + occurrences t l) as ->.
    { unfold occurrences. cbn. now destruct (String.eqb t x). }
    destruct (String.eqb t x) eqn:E.
    + apply String.eqb_eq in E. subst x.
      rewrite (occurrences_absent t l Hx). split; [lia | reflexivity].
    + apply String.eqb_neq in E. destruct IH as [IH1 IH2].
      split; [exact IH1|]. intros [->|Hin]; [congruence|auto].
Qed.

(** C9, as the code has it. A dequeued task is in the processing set;
    the pass that dequeued it makes exactly one [complete_task] call, for
    that task, whether the conversion succeeded or failed on any path,
    after which the task has left the processing set and has a stored
    result; every instance acquired in the pass is released in it. Over
    any number of passes the [complete_task] calls for an id are as many
    as the dequeued tasks carrying that id: once each when the dequeued
    ids are pairwise distinct. *)
Theorem task_lifecycle :
  (forall env m task q,
      get_task (conversion_queue m) = (Some task, q) ->
      processing_tasks q !! task_id task = Some task
      /\ exists m' calls,
           worker_iteration env m = (m', calls)
           /\ completions (task_id task) calls = 1
           /\ (forall t, t <> task_id task -> completions t calls = 0)
           /\ processing_tasks (conversion_queue m') !! task_id task = None
           /\ is_Some (completed_tasks (conversion_queue m') !! task_id task)
           /\ forall r, releases r calls = acquisitions r calls)
  /\ (forall envs m,
         exists m' calls,
           _worker_loop envs m = (m', calls)
           /\ (forall t,
                  completions t calls
                  = occurrences t (dequeued (length envs) (conversion_queue m)))
           /\ (forall r, releases r calls = acquisitions r calls)
           /\ (forall t,
                  In t (dequeued (length envs) (conversion_queue m)) ->
                  processing_tasks (conversion_queue m') !! t = None
                  /\ is_Some (completed_tasks (conversion_queue m') !! t))
           /\ (List.NoDup (dequeued (length envs) (conversion_queue m)) ->
               forall t,
                 completions t calls <= 1
                 /\ (In t (dequeued (length envs) (conversion_queue m)) ->
                     completions t calls = 1))).
Proof.
  split.
  - intros env m task q Hget. unfold get_task in Hget.
    destruct (queue (conversion_queue m)) as [|task' rest] eqn:Hq;
      [discriminate|].
    injection Hget as -> <-. cbn [processing_tasks].
    split; [apply lookup_insert_eq|].
    destruct (worker_iteration_task env m task rest Hq)
      as (result & pool & calls & Hpass & Hcalls).
    rewrite Hpass. eexists _, _. split; [reflexivity|].
    destruct (pass_counts calls (task_id task) (task_id task) result Hcalls)
      as [Hone Hrel].
    rewrite String.eqb_refl in Hone.
    split; [exact Hone|]. split; [|split; [|split]].
    + intros t Hne.
      destruct (pass_counts calls t (task_id task) result Hcalls) as [-> _].
      apply not_eq_sym, String.eqb_neq in Hne. now rewrite Hne.
    + cbn. apply lookup_delete_eq.
    + cbn. rewrite lookup_insert_eq. eauto.
    + exact Hrel.
  - intros envs m.
    destruct (worker_loop_spec envs m)
      as (m' & calls & Hrun & Hcount & Hrel & Hdone & _).
    exists m', calls. split; [exact Hrun|]. split; [exact Hcount|].
    split; [exact Hrel|]. split; [exact Hdone|].
    intros Hnodup t. rewrite Hcount. now apply occurrences_NoDup.
Qed.

Lemma task_lifecycle_witness :
  exists m' calls,
    worker_iteration failing_pass submitted_twice = (m', calls)
    /\ completions "task_1700000000_ABC123_bet9ja_sportybet" calls = 1
    /\ processing_tasks (conversion_queue m')
         !! "task_1700000000_ABC123_bet9ja_sportybet" = None.
Proof.
  destruct (proj1 task_lifecycle failing_pass submitted_twice
              {| task_id := "task_1700000000_ABC123_bet9ja_sportybet";
                 betslip_code := "ABC123"; source_bookmaker := "bet9ja";
                 destination_bookmaker := "sportybet"; priority := 0;
                 created_at := 1700000000 |}
              (snd (get_task (conversion_queue submitted_twice))))
    as [_ (m' & calls & Hpass & Hone & _ & Hgone & _)].
  - vm_compute. reflexivity.
  - exists m', calls. auto.
Defined.

(** C9 as stated fails: the queue accepts two tasks with one id (the
    same conversion submitted twice within a clock second), both are
    dequeued, and the id is completed twice. *)
Lemma task_lifecycle_counterexample :
  ~ no_task_id_completed_twice
  /\ List.map task_id (queue (conversion_queue submitted_twice))
     = [ "task_1700000000_ABC123_bet9ja_sportybet";
         "task_1700000000_ABC123_bet9ja_sportybet" ]
  /\ completions "task_1700000000_ABC123_bet9ja_sportybet"
       (snd (_worker_loop [failing_pass; failing_pass] submitted_twice)) = 2.
Proof.
  split; [|split; vm_compute; reflexivity].
  intros H.
  specialize (H [failing_pass; failing_pass] submitted_twice
                "task_1700000000_ABC123_bet9ja_sportybet").
  vm_compute in H. lia.
Qed.

End WorkerFacts.
(** ** The embedding passes the repository's own tests *)

Module TestSuite.
Import Matcher MatcherAux Pool Worker TestTables.
Local Open Scope Q_scope.

Example test_fuzzy_team_name_matching :
  forallb fuzzy_case_passes fuzzy_cases = true.
Proof. vm_compute. reflexivity. Qed.

Example test_odds_comparison : forallb odds_case_passes odds_cases = true.
Proof. vm_compute. reflexivity. Qed.

Example test_odds_comparison_edge_cases :
  forallb odds_case_passes odds_edge_cases = true.
Proof. vm_compute. reflexivity. Qed.

Example test_odds_validation :
  forallb validation_case_passes validation_cases = true.
Proof. vm_compute. reflexivity. Qed.

(** [Float64] reads literals and computes [abs(a - b)] as the kernel's
    binary64 arithmetic does: on the odds of these tests, on pairs far
    apart and close together, and on doubles in the subnormal range
    and at the top of the range. *)
Example differences_as_the_machine_computes_them :
  forallb same_literal
    (List.map fst literal_samples ++ List.map snd literal_samples) = true
  /\ forallb same_difference
       (List.map (fun '(a, b) => (machine_literal a, machine_literal b))
                 literal_samples) = true
  /\ forallb same_difference extreme_samples = true.
Proof. repeat split; vm_compute; reflexivity. Qed.

Example test_market_mapping :
  forallb mapping_case_passes mapping_cases = true.
Proof. vm_compute. reflexivity. Qed.

Example test_game_availability_checking :
  is_available (check_game_availability sample_selection "sportybet"
                  available_games) = Some true
  /\ is_available (check_game_availability sample_selection "sportybet" [])
     = Some false
  /\ is_available
       (check_game_availability sample_selection "sportybet"
          [ {| game_home := "Arsenal"; game_away := "Chelsea";
               game_markets := [] |} ]) = Some false.
Proof. repeat split; vm_compute; reflexivity. Qed.

Example test_complete_selection_matching :
  succeeded (match_selection (create_market_matcher (Float64.literal 0.05))
               sample_selection "sportybet" (sample_games 2.48) None)
  = Some true
  /\ succeeded (match_selection
                  (create_market_matcher (Float64.literal 0.05))
                  sample_selection "sportybet" (sample_games 2.80) None)
     = Some true
  /\ succeeded (match_selection
                  (create_market_matcher (Float64.literal 0.05))
                  sample_selection "sportybet" [] None) = Some false.
Proof. repeat split; vm_compute; reflexivity. Qed.

Example test_conversion_queue :
  let q0 := new_queue 5 in
  let '(added1, q1) := add_task (task "task1" "TEST123" "bet9ja" "sportybet") q0 in
  let '(added2, q2) := add_task (task "task2" "TEST456" "sportybet" "betway") q1 in
  let '(retrieved, q3) := get_task q2 in
  let q4 := complete_task "task1" (Failed "" "task1") q3 in
  added1 = true /\ added2 = true /\ get_queue_size q2 = 2%nat
  /\ option_map task_id retrieved = Some "task1"
  /\ get_processing_count q3 = 1%nat
  /\ get_result "task1" q4 = Some (Failed "" "task1").
Proof. vm_compute. repeat split; reflexivity. Qed.

Example test_queue_overflow :
  let q0 := new_queue 2 in
  let '(added1, q1) := add_task (task "task1" "CODE1" "bet9ja" "sportybet") q0 in
  let '(added2, q2) := add_task (task "task2" "CODE2" "bet9ja" "sportybet") q1 in
  let '(added3, q3) := add_task (task "task3" "CODE3" "bet9ja" "sportybet") q2 in
  added1 = true /\ added2 = true /\ added3 = false
  /\ get_queue_size q3 = 2%nat.
Proof. vm_compute. repeat split; reflexivity. Qed.

(** The three worked scenarios of the design notes: close odds, odds
    outside tolerance, and a game absent from the candidate list. *)
Example scenario_close_odds :
  exists r self',
    match_selection (create_market_matcher (Float64.literal 0.05))
      sample_selection "sportybet" (sample_games 2.48)
      (Some (Float64.literal 0.05)) = (Ok r, self')
    /\ success r = true /\ 0.7 < confidence r /\ warnings r = [].
Proof.
  eexists. eexists. split; [vm_compute; reflexivity|].
  repeat split; vm_compute; reflexivity.
Qed.

Example scenario_distant_odds :
  exists r self',
    match_selection (create_market_matcher (Float64.literal 0.05))
      sample_selection "sportybet" (sample_games 2.90)
      (Some (Float64.literal 0.05)) = (Ok r, self')
    /\ success r = true
    /\ warnings r = ["Odds difference too large: 0.400"]
    /\ confidence r < 1.
Proof.
  eexists. eexists. split; [vm_compute; reflexivity|].
  repeat split; vm_compute; reflexivity.
Qed.

Example scenario_absent_game :
  exists r self',
    match_selection (create_market_matcher (Float64.literal 0.05))
      sample_selection "sportybet"
      [ {| game_home := "Arsenal"; game_away := "Chelsea";
           game_markets := [] |};
        {| game_home := "Everton"; game_away := "Fulham";
           game_markets := [] |} ] None = (Ok r, self')
    /\ success r = false /\ confidence r < 0.7
    /\ Text.contains "not found" (Text.lower (List.hd "" (warnings r))) = true.
Proof.
  eexists. eexists. split; [vm_compute; reflexivity|].
  repeat split; vm_compute; reflexivity.
Qed.

(** The matcher on the pairs checked against CPython's [difflib]. *)
Example sequence_matcher_samples :
  Difflib.ratio "match result" "match results" == 24 # 25
  /\ Difflib.ratio "c palace" "crystal palace" == 8 # 11
  /\ Difflib.ratio "man utd" "manchester utd" == 2 # 3
  /\ Difflib.ratio "" "" == 1
  /\ Difflib.ratio "abc" "" == 0.
Proof. repeat split; vm_compute; reflexivity. Qed.

End TestSuite.

(** ** Facts about the text primitives *)

Module TextFacts.
Import Text AdapterTools.

Lemma rstrip_length s : String.length (rstrip s) <= String.length s.
Proof.
  induction s as [|c r IH]; simpl; [lia|].
  destruct (rstrip r); [destruct (isspace c)|]; simpl in *; lia.
Qed.

Lemma lstrip_length s : String.length (lstrip s) <= String.length s.
Proof.
  induction s as [|c r IH]; simpl; [lia|].
  destruct (isspace c); simpl; lia.
Qed.

Lemma rstrip_tail c r : rstrip (String c r) = String c r -> rstrip r = r.
Proof.
  simpl. destruct (rstrip r) as [|c' r'] eqn:E.
  - destruct (isspace c); [discriminate|]. now intros [= <-].
  - now intros [= <-].
Qed.

Lemma rstrip_idem s : rstrip (rstrip s) = rstrip s.
Proof.
  induction s as [|c r IH]; simpl; [reflexivity|].
  destruct (rstrip r) as [|c' r'] eqn:E.
  - destruct (isspace c) eqn:Ec; simpl; [reflexivity|]. now rewrite Ec.
  - simpl in *. now rewrite IH.
Qed.

Lemma rstrip_head c r :
  isspace c = false -> exists r', rstrip (String c r) = String c r'.
Proof.
  intros Hc. simpl. destruct (rstrip r); [rewrite Hc|]; eauto.
Qed.

Lemma lstrip_head s :
  lstrip s = EmptyString
  \/ exists c r, lstrip s = String c r /\ isspace c = false.
Proof.
  induction s as [|c r IH]; simpl; [now left|].
  destruct (isspace c) eqn:E; [exact IH|]. right. eauto.
Qed.

(** [strip] leaves a text with a blank neither at its start nor at its
    end, so stripping twice changes nothing more. *)
Lemma strip_idem s : strip (strip s) = strip s.
Proof.
  unfold strip. destruct (lstrip_head s) as [->|(c & r & -> & Hc)];
    [reflexivity|].
  destruct (rstrip_head c r Hc) as [r' E]. rewrite E.
  cbn [lstrip]. rewrite Hc, <- E. apply rstrip_idem.
Qed.

Lemma strip_fixed s : strip s = s -> lstrip s = s /\ rstrip s = s.
Proof.
  intros H. assert (lstrip s = s) as Hl.
  { destruct s as [|c r]; [reflexivity|]. simpl.
    destruct (isspace c) eqn:Ec; [|reflexivity]. exfalso.
    unfold strip in H. simpl in H. rewrite Ec in H.
    pose proof (rstrip_length (lstrip r)). pose proof (lstrip_length r).
    rewrite H in *. simpl in *. lia. }
  split; [exact Hl|]. unfold strip in H. now rewrite Hl in H.
Qed.

Lemma append_cons c s t : String c s +:+ t = String c (s +:+ t).
Proof. reflexivity. Qed.

Lemma append_nil t : EmptyString +:+ t = t.
Proof. reflexivity. Qed.

Lemma starts_with_split p s :
  starts_with p s = true -> s = p +:+ drop_chars (String.length p) s.
Proof.
  revert s. induction p as [|a p IH]; intros s H; simpl; [now destruct s|].
  destruct s as [|b s]; [discriminate|]. simpl in H.
  apply andb_prop in H as [Hab Hps]. apply Ascii.eqb_eq in Hab. subst b.
  cbn [String.length drop_chars]. rewrite append_cons. f_equal. now apply IH.
Qed.

(** [split_once] cuts the text at an occurrence of the separator. *)
Lemma split_once_parts sep s before after :
  split_once sep s = Some (before, after) ->
  s = before +:+ sep +:+ after.
Proof.
  revert before. induction s as [|c r IH]; intros before; simpl; [discriminate|].
  destruct sep as [|a sep].
  - simpl. intros [= <- <-]. reflexivity.
  - destruct (starts_with (String a sep) (String c r)) eqn:E.
    + intros [= <- <-]. now apply starts_with_split in E.
    + destruct (split_once (String a sep) r) as [[b0 a0]|]; [|discriminate].
      intros [= <- <-]. rewrite append_cons. f_equal. now apply IH.
Qed.

Lemma split_once_found sep s :
  sep <> EmptyString -> contains sep s = true ->
  exists before after, split_once sep s = Some (before, after).
Proof.
  intros Hsep. induction s as [|c r IH]; simpl.
  - destruct sep; [congruence|discriminate].
  - intros H. change (starts_with sep (String c r)
                      || contains sep r = true)%bool in H.
    destruct (starts_with sep (String c r)) eqn:E; [eauto|].
    simpl in H. destruct (IH H) as (b & a & ->). eauto.
Qed.

Lemma split_once_absent sep s :
  contains sep s = false -> split_once sep s = None.
Proof.
  induction s as [|c r IH]; simpl; [reflexivity|]. intros H.
  change (starts_with sep (String c r) || contains sep r = false)%bool in H.
  apply orb_false_elim in H as [-> H]. now rewrite IH.
Qed.

End TextFacts.

(** ** Search variations *)

Module VariationFacts.
Import Text Adapters AdapterTools.
Local Open Scope list_scope.

Lemma unique_loop_spec : forall vs seen acc,
  (forall v, v ∈ seen <-> In v acc) ->
  List.NoDup acc ->
  exists tail,
    unique_loop vs seen acc = acc ++ tail
    /\ List.NoDup (acc ++ tail)
    /\ (forall v, In v tail <-> In v vs /\ ~ In v acc)
    /\ sublist tail vs.
Proof.
  induction vs as [|x vs IH]; intros seen acc Hseen Hnodup; cbn [unique_loop].
  - exists []. rewrite List.app_nil_r.
    split; [reflexivity|]. split; [exact Hnodup|]. split; [|constructor].
    intros v. split; [intros [] | intros [[] _]].
  - destruct (bool_decide (x ∈ seen)) eqn:E.
    + apply bool_decide_eq_true in E. apply Hseen in E.
      destruct (IH seen acc Hseen Hnodup) as (tail & Hrun & Hnd & Hin & Hsub).
      exists tail. split; [exact Hrun|]. split; [exact Hnd|]. split.
      * intros v. rewrite Hin. cbn [In]. split; [tauto|].
        intros [[<-|Hv] Hnot]; [contradiction|tauto].
      * now constructor.
    + apply bool_decide_eq_false in E.
      assert (~ In x acc) as Hx by (intros H; apply E, Hseen, H).
      destruct (IH ({[x]} ∪ seen) (acc ++ [x])) as (tail & Hrun & Hnd & Hin & Hsub).
      * intros v. rewrite elem_of_union, elem_of_singleton, Hseen, List.in_app_iff.
        cbn. intuition congruence.
      * apply List.NoDup_app; [exact Hnodup | repeat constructor; intros [] |].
        intros v Hv [<-|[]]. contradiction.
      * exists (x :: tail). rewrite <- List.app_assoc in Hrun, Hnd.
        split; [exact Hrun|]. split; [exact Hnd|]. split.
        -- intros v. cbn. rewrite Hin, List.in_app_iff. cbn.
           split.
           ++ intros [<-|[Hv Hnot]]; [tauto|]. split; [tauto|]. tauto.
           ++ intros [[<-|Hv] Hnot]; [tauto|].
              destruct (string_dec x v) as [->|Hne]; [tauto|]. right.
              split; [exact Hv|]. intros [?|[?|[]]]; tauto.
        -- now constructor.
Qed.

Lemma unique_loop_head x vs :
  List.hd_error (unique_loop (x :: vs) ∅ []) = Some x.
Proof.
  cbn [unique_loop].
  rewrite bool_decide_eq_false_2 by apply not_elem_of_empty.
  destruct (unique_loop_spec vs ({[x]} ∪ ∅) ([] ++ [x]))
    as (tail & -> & _); [| |reflexivity].
  - intros v. rewrite elem_of_union, elem_of_singleton. cbn.
    split; [intros [->|H]; [now left | now apply not_elem_of_empty in H]
           | intros [->|[]]; now left].
  - repeat constructor. intros [].
Qed.

(** X1. [get_search_variations] returns the twelve candidate search
    terms with repetitions left out: no term occurs twice, every
    candidate occurs, the terms keep the order of the candidates, and
    the first one is always "home vs away" as given. *)
Theorem search_variations_distinct_and_complete :
  forall (config : BookmakerConfig) (home_team away_team : string),
    let found := get_search_variations config home_team away_team in
    let candidates := variations config home_team away_team in
    List.NoDup found
    /\ (forall v, In v found <-> In v candidates)
    /\ sublist found candidates
    /\ List.hd_error found = Some (home_team +:+ " vs " +:+ away_team)
    /\ (forall bookmaker,
           get_bookmaker_adapter bookmaker = Some config ->
           MatcherTools.get_search_variations home_team away_team bookmaker
           = Ok found)
    /\ (forall bookmaker,
           get_bookmaker_adapter bookmaker = None ->
           MatcherTools.get_search_variations home_team away_team bookmaker
           = Raise (unsupported_bookmaker bookmaker)).
Proof.
  intros config home_team away_team found candidates.
  destruct (unique_loop_spec candidates ∅ [])
    as (tail & Hrun & Hnd & Hin & Hsub).
  { intros v. split; [intros H; now apply not_elem_of_empty in H | intros []]. }
  { constructor. }
  cbn [app] in Hrun, Hnd.
  assert (found = tail) as Hfound by exact Hrun.
  split; [now rewrite Hfound|]. split; [|split; [now rewrite Hfound|split; [|split]]].
  - intros v. rewrite Hfound, Hin. cbn [In]. tauto.
  - exact (unique_loop_head _ _).
  - intros bookmaker H. unfold MatcherTools.get_search_variations.
    now rewrite H.
  - intros bookmaker H. unfold MatcherTools.get_search_variations.
    now rewrite H.
Qed.

End VariationFacts.

(** ** Team names read back from a game name *)

Module ExtractionFacts.
Import Text Adapters AdapterTools TextFacts ExtractionAux.
Local Open Scope list_scope.

Lemma split_once_vs away : forall home,
  rstrip home = home -> contains " vs" home = false ->
  split_once " vs " (home +:+ " vs " +:+ away) = Some (home, away).
Proof.
  induction home as [|c h IH]; intros Hr Hc; [reflexivity|].
  change (starts_with " vs" (String c h) || contains " vs" h = false)%bool in Hc.
  apply orb_false_elim in Hc as [Hstart Hc].
  rewrite append_cons. cbn [split_once].
  rewrite (IH (rstrip_tail _ _ Hr) Hc).
  destruct (starts_with " vs " (String c (h +:+ " vs " +:+ away))) eqn:E;
    [exfalso|reflexivity].
  cbn [starts_with] in E. apply andb_prop in E as [E1 E].
  apply Ascii.eqb_eq in E1. subst c.
  destruct h as [|c2 h]; [vm_compute in Hr; discriminate|].
  rewrite append_cons in E. cbn [starts_with] in E.
  apply andb_prop in E as [E2 E]. apply Ascii.eqb_eq in E2. subst c2.
  destruct h as [|c3 h]; [discriminate E|].
  rewrite append_cons in E. cbn [starts_with] in E.
  apply andb_prop in E as [E3 E]. apply Ascii.eqb_eq in E3. subst c3.
  discriminate Hstart.
Qed.

Lemma is_empty_strip s : is_empty s = false <-> s <> EmptyString.
Proof. destruct s; simpl; split; congruence. Qed.

(** X2. A game name written "home vs away" is read back into its two
    team names, when these carry no blank at either end and the home
    name does not itself contain " vs". *)
Theorem extract_teams_round_trip :
  forall home away : string,
    strip home = home -> strip away = away ->
    home <> EmptyString -> away <> EmptyString ->
    contains " vs" home = false ->
    extract_teams_from_game_name (home +:+ " vs " +:+ away)
    = (Some home, Some away).
Proof.
  intros home away Hh Ha Hhe Hae Hvs.
  unfold extract_teams_from_game_name, separators. cbn [separator_loop].
  rewrite (GameFacts.contains_append_r " vs " home (" vs " +:+ away)
             (GameFacts.contains_prefix " vs " away)).
  rewrite (split_once_vs away home (proj2 (strip_fixed _ Hh)) Hvs).
  rewrite Hh, Ha.
  apply is_empty_strip in Hhe, Hae. now rewrite Hhe, Hae.
Qed.

Lemma extract_teams_round_trip_witness :
  extract_teams_from_game_name "Manchester United vs Liverpool"
  = (Some "Manchester United", Some "Liverpool").
Proof.
  apply (extract_teams_round_trip "Manchester United" "Liverpool");
    vm_compute; congruence.
Defined.

Lemma separator_loop_spec game_name : forall seps,
  (forall s, In s seps -> s <> EmptyString) ->
  (exists skipped separator rest before after,
      seps = skipped ++ separator :: rest
      /\ (forall s, In s skipped -> unusable s game_name)
      /\ split_once separator game_name = Some (before, after)
      /\ strip before <> EmptyString /\ strip after <> EmptyString
      /\ separator_loop game_name seps
         = (Some (strip before), Some (strip after)))
  \/ ((forall s, In s seps -> unusable s game_name)
      /\ separator_loop game_name seps = (None, None)).
Proof.
  induction seps as [|sep seps IH]; intros Hne; cbn [separator_loop].
  - right. split; [intros s []|reflexivity].
  - specialize (IH (fun s Hs => Hne s (or_intror Hs))).
    assert (unusable sep game_name ->
            (exists skipped separator rest before after,
                sep :: seps = skipped ++ separator :: rest
                /\ (forall s, In s skipped -> unusable s game_name)
                /\ split_once separator game_name = Some (before, after)
                /\ strip before <> EmptyString /\ strip after <> EmptyString
                /\ separator_loop game_name seps
                   = (Some (strip before), Some (strip after)))
            \/ ((forall s, In s (sep :: seps) -> unusable s game_name)
                /\ separator_loop game_name seps = (None, None))) as Hskip.
    { intros Hsep.
      destruct IH as [(skipped & separator & rest & before & after
                       & -> & Hskipped & Hsplit & Hb & Ha & Hrun)
                     |[Hall Hrun]].
      - left. exists (sep :: skipped), separator, rest, before, after.
        split; [reflexivity|]. split; [|auto].
        intros s [<-|Hs]; auto.
      - right. split; [|exact Hrun]. intros s [<-|Hs]; auto. }
    destruct (contains sep game_name) eqn:Ec;
      [|apply Hskip; now left].
    destruct (split_once_found sep game_name (Hne sep (or_introl eq_refl)) Ec)
      as (before & after & Es).
    rewrite Es.
    destruct (is_empty (strip before)) eqn:Eb;
      [apply Hskip; right; exists before, after;
       split; [exact Es|left; now destruct (strip before)]|].
    destruct (is_empty (strip after)) eqn:Ea;
      [apply Hskip; right; exists before, after;
       split; [exact Es|right; now destruct (strip after)]|].
    cbn [negb andb]. left. exists [], sep, seps, before, after.
    apply is_empty_strip in Eb, Ea. repeat split; auto. intros s [].
Qed.

(** X3. [extract_teams_from_game_name] cuts the game name at the
    leftmost occurrence of the first separator among " vs ", " v ",
    " - ", " x " that leaves a non-blank text on both sides, and
    returns the two sides stripped; when no separator does, it returns
    (None, None). It never returns one team without the other, nor an
    empty team name. *)
Theorem extract_teams_first_usable_separator :
  forall game_name : string,
    (exists skipped separator rest before after,
        separators = skipped ++ separator :: rest
        /\ (forall s, In s skipped -> unusable s game_name)
        /\ split_once separator game_name = Some (before, after)
        /\ game_name = before +:+ separator +:+ after
        /\ strip before <> EmptyString /\ strip after <> EmptyString
        /\ extract_teams_from_game_name game_name
           = (Some (strip before), Some (strip after)))
    \/ ((forall s, In s separators -> unusable s game_name)
        /\ extract_teams_from_game_name game_name = (None, None)).
Proof.
  intros game_name. unfold extract_teams_from_game_name.
  destruct (separator_loop_spec game_name separators)
    as [(skipped & separator & rest & before & after
         & Hs & Hskipped & Hsplit & Hb & Ha & Hrun)|H].
  - intros s [<-|[<-|[<-|[<-|[]]]]]; discriminate.
  - left. exists skipped, separator, rest, before, after.
    repeat split; auto. now apply split_once_parts.
  - now right.
Qed.

End ExtractionFacts.

(** ** The two odds-range checks *)

Module OddsRangeFacts.
Import Matcher OddsFacts.
Local Open Scope Q_scope.

(** X4. The odds-range check of the matching engine and the one of the
    adapters agree whenever the tolerance is given, in either order of
    the odds: both answer true exactly when the two odds are positive
    and their difference, rounded to the nearest double as the code
    computes it, is at most the tolerance; odds whose exact difference
    is within a tolerance that is a double pass. Left to their defaults
    the two checks differ: the engine uses its own tolerance, the
    adapters 0.10. *)
Theorem validate_odds_range_agreement :
  forall (self : MarketMatcher) (odds expected_odds tolerance : Q),
    MatcherTools.validate_odds_range self odds expected_odds (Some tolerance)
    = AdapterTools.validate_odds_range odds expected_odds (Some tolerance)
    /\ AdapterTools.validate_odds_range odds expected_odds (Some tolerance)
       = AdapterTools.validate_odds_range expected_odds odds (Some tolerance)
    /\ (AdapterTools.validate_odds_range odds expected_odds (Some tolerance)
        = true
        <-> 0 < odds /\ 0 < expected_odds
            /\ Float64.abs (Float64.sub odds expected_odds) <= tolerance)
    /\ (0 < odds -> 0 < expected_odds -> Float64.is_float tolerance ->
        Qabs (odds - expected_odds) <= tolerance ->
        AdapterTools.validate_odds_range odds expected_odds (Some tolerance)
        = true)
    /\ MatcherTools.validate_odds_range self odds expected_odds None
       = AdapterTools.validate_odds_range odds expected_odds
           (Some (odds_tolerance self))
    /\ AdapterTools.validate_odds_range odds expected_odds None
       = AdapterTools.validate_odds_range odds expected_odds
           (Some (Float64.literal 0.10)).
Proof.
  intros self odds expected_odds tolerance.
  assert (forall t,
             MatcherTools.validate_odds_range self odds expected_odds (Some t)
             = AdapterTools.validate_odds_range odds expected_odds (Some t))
    as Hsame.
  { intros t. unfold MatcherTools.validate_odds_range, compare_odds,
      AdapterTools.validate_odds_range.
    rewrite (orb_comm (Qle_bool expected_odds 0)).
    destruct (Qle_bool odds 0 || Qle_bool expected_odds 0)%bool;
      [reflexivity|].
    now rewrite (Float64Facts.abs_sub_swap expected_odds odds). }
  assert (AdapterTools.validate_odds_range odds expected_odds (Some tolerance)
          = true
          <-> 0 < odds /\ 0 < expected_odds
              /\ Float64.abs (Float64.sub odds expected_odds) <= tolerance)
    as Hiff.
  { unfold AdapterTools.validate_odds_range.
    destruct (Qle_bool odds 0) eqn:E1; cbn [orb].
    { apply Qle_bool_iff in E1. split; [discriminate|]. intros [H _]. lra. }
    destruct (Qle_bool expected_odds 0) eqn:E2.
    { apply Qle_bool_iff in E2. split; [discriminate|].
      intros (_ & H & _). lra. }
    apply Qle_bool_false in E1, E2. rewrite Qle_bool_iff. tauto. }
  split; [apply Hsame|].
  split; [|split; [exact Hiff|split; [|split; [|reflexivity]]]].
  - unfold AdapterTools.validate_odds_range.
    rewrite (orb_comm (Qle_bool expected_odds 0)).
    destruct (Qle_bool odds 0 || Qle_bool expected_odds 0)%bool;
      [reflexivity|].
    now rewrite (Float64Facts.abs_sub_swap expected_odds odds).
  - intros Ho He Ht Hexact. apply Hiff.
    split; [exact Ho|]. split; [exact He|].
    now apply Float64Facts.abs_sub_le.
  - unfold MatcherTools.validate_odds_range. apply Hsame.
Qed.

End OddsRangeFacts.

(** ** Normalised team names *)

Module NormalizationFacts.
Import Text Adapters TextFacts.
Local Open Scope list_scope.

Lemma chars_lstrip c s :
  In c (list_ascii_of_string (lstrip s)) -> In c (list_ascii_of_string s).
Proof.
  induction s as [|a r IH]; simpl; [auto|].
  destruct (isspace a); simpl; auto.
Qed.

Lemma chars_rstrip c s :
  In c (list_ascii_of_string (rstrip s)) -> In c (list_ascii_of_string s).
Proof.
  induction s as [|a r IH]; simpl; [auto|].
  destruct (rstrip r) as [|a' r'].
  - destruct (isspace a); simpl; tauto.
  - simpl in *. tauto.
Qed.

Lemma chars_strip c s :
  In c (list_ascii_of_string (strip s)) -> In c (list_ascii_of_string s).
Proof. intros H. now apply chars_lstrip, chars_rstrip. Qed.

(** After [re.sub(r'\s+', ' ', s)] the only blank left is the space. *)
Lemma chars_collapse c : forall s in_ws,
  In c (list_ascii_of_string (collapse_go in_ws s)) ->
  isspace c = true -> c = " "%char.
Proof.
  induction s as [|a r IH]; intros in_ws; simpl; [intros []|].
  destruct (isspace a) eqn:Ea.
  - destruct in_ws; simpl; [apply IH|].
    intros [<-|H]; [reflexivity | exact (IH _ H)].
  - simpl. intros [<-|H]; [intros Hs; congruence | exact (IH _ H)].
Qed.

Lemma chars_drop_punct c s :
  In c (list_ascii_of_string (drop_punct s)) ->
  In c (list_ascii_of_string s) /\ (is_word c || isspace c)%bool = true.
Proof.
  induction s as [|a r IH]; simpl; [intros []|].
  destruct (is_word a || isspace a)%bool eqn:Ea; simpl.
  - intros [<-|H]; [auto|]. apply IH in H. tauto.
  - intros H. apply IH in H. tauto.
Qed.

(** X5. A normalised team name is made of word characters (letters,
    digits, underscore) and plain spaces only: punctuation is dropped
    and every tab, line break or other blank has become a space. *)
Theorem normalized_name_alphabet :
  forall (config : BookmakerConfig) (game_name : string) (c : ascii),
    In c (list_ascii_of_string (normalize_game_name config game_name)) ->
    is_word c = true \/ c = " "%char.
Proof.
  intros config game_name c H.
  unfold normalize_game_name, _apply_common_normalizations in H.
  apply chars_drop_punct in H as [H Hclass].
  apply chars_strip in H.
  apply orb_prop in Hclass as [Hw|Hs]; [now left|right].
  eapply chars_collapse; eauto.
Qed.

Lemma normalized_name_alphabet_witness :
  normalize_game_name SportybetAdapter "Paris  Saint-Germain"
  = "Paris SaintGermain"
  /\ (is_word "S"%char = true \/ "S"%char = " "%char).
Proof.
  split; [vm_compute; reflexivity|].
  apply (normalized_name_alphabet SportybetAdapter "Paris  Saint-Germain" "S").
  vm_compute. tauto.
Defined.

End NormalizationFacts.

(** ** Market names *)

Module MarketNameFacts.
Import Text Adapters Matcher.
Local Open Scope list_scope.

Lemma common_loop_range market market_lower : forall l,
  In (common_loop market market_lower l) (List.map fst l)
  \/ common_loop market market_lower l = market.
Proof.
  induction l as [|[standard_market variations] l IH]; cbn [common_loop];
    [now right|].
  destruct (_ || _)%bool; [left; now left|].
  destruct (contains standard_market market_lower); [left; now left|].
  destruct IH as [IH|IH]; [left; now right | now right].
Qed.

Lemma mapping_loop_range market market_lower : forall l,
  In (mapping_loop market market_lower l) (List.map snd l)
  \/ mapping_loop market market_lower l = _apply_common_market_mappings market.
Proof.
  induction l as [|[standard_market bookmaker_market] l IH];
    cbn [mapping_loop]; [now right|].
  destruct (String.eqb _ _); [left; now left|].
  destruct (_ || _)%bool; [left; now left|].
  destruct IH as [IH|IH]; [left; now right | now right].
Qed.

(** X6. [map_market_name] never invents a market name: its answer is
    one of the adapter's own market terms, one of the seven standard
    names of the common table, or the market exactly as it was given. *)
Theorem map_market_name_range :
  forall (config : BookmakerConfig) (market : string),
    In (map_market_name config market)
       (List.map snd (market_mappings config))
    \/ In (map_market_name config market) (List.map fst common_mappings)
    \/ map_market_name config market = market.
Proof.
  intros config market. unfold map_market_name.
  destruct (mapping_loop_range market (strip (lower market))
              (market_mappings config)) as [H| ->]; [now left|right].
  apply common_loop_range.
Qed.

(** X7. Every adapter maps each standard market name of its own table
    to the term listed for it, however the name is spelled in letter
    case and whatever blanks surround it. *)
Theorem standard_market_names_map_in_any_spelling :
  forall (bookmaker : string) (config : BookmakerConfig)
         (standard_market bookmaker_market market : string),
    get_bookmaker_adapter bookmaker = Some config ->
    In (standard_market, bookmaker_market) (market_mappings config) ->
    strip (lower market) = standard_market ->
    map_market_name config market = bookmaker_market.
Proof.
  intros bookmaker config standard_market bookmaker_market market
         Hconfig Hin Hmarket.
  unfold map_market_name. rewrite Hmarket. clear Hmarket.
  destruct (GameFacts.adapter_cases _ _ Hconfig) as [->|[->|[->| ->]]];
    cbn [market_mappings Bet9jaAdapter SportybetAdapter BetwayAdapter
         Bet365Adapter In] in Hin;
    repeat (destruct Hin as [[= <- <-]|Hin]; [vm_compute; reflexivity|]);
    destruct Hin.
Qed.

Lemma standard_market_names_map_in_any_spelling_witness :
  map_market_name Bet365Adapter "  Both Teams To SCORE " = "Both Teams to Score".
Proof.
  apply (standard_market_names_map_in_any_spelling
           "bet365" Bet365Adapter "both teams to score");
    [reflexivity | vm_compute; tauto | vm_compute; reflexivity].
Defined.

(** X8. The confidence of a market mapping is 0.6 when neither step
    changed the name, 0.9 when the final name differs from the given
    one, and 0.8 when it was changed and mapped back; the closing
    return of 0.7 is never reached. *)
Theorem mapping_confidence_values :
  forall original normalized mapped : string,
    let c := _calculate_market_mapping_confidence original normalized mapped in
    (original = normalized /\ normalized = mapped -> c = 0.6%Q)
    /\ (original <> mapped -> c = 0.9%Q)
    /\ (original = mapped /\ original <> normalized -> c = 0.8%Q)
    /\ (c = 0.6%Q \/ c = 0.8%Q \/ c = 0.9%Q)
    /\ c <> 0.7%Q.
Proof.
  intros original normalized mapped c. subst c.
  unfold _calculate_market_mapping_confidence.
  destruct (String.eqb_spec original normalized) as [E1|E1];
    destruct (String.eqb_spec normalized mapped) as [E2|E2];
    destruct (String.eqb_spec original mapped) as [E3|E3];
    cbn [andb negb];
    (split; [|split; [|split; [|split]]]);
    intros; try reflexivity; try discriminate;
    try (exfalso; intuition congruence);
    try (left; reflexivity); try (right; left; reflexivity);
    try (right; right; reflexivity).
Qed.

End MarketNameFacts.

(** ** Ranges and dead ends of the matching engine *)

Module EngineFacts.
Import Text Adapters Matcher MatcherAux EngineAux OddsFacts SimilarityFacts
       OrientationFacts GameFacts MarketFacts ScoringFacts.
Local Open Scope Q_scope.

(** X9. For supported bookmakers [fuzzy_match_team_names] returns a
    confidence between 0 and 1 for all team names; it raises
    [ValueError] exactly when one of the two bookmakers is not
    supported. *)
Theorem fuzzy_match_confidence_range :
  forall (source_home source_away target_home target_away : string)
         (source_bookmaker target_bookmaker : string),
    match fuzzy_match_team_names source_home source_away
            target_home target_away source_bookmaker target_bookmaker with
    | Ok (confidence, _) =>
        0 <= confidence <= 1
        /\ is_Some (get_bookmaker_adapter source_bookmaker)
        /\ is_Some (get_bookmaker_adapter target_bookmaker)
    | Raise e =>
        (get_bookmaker_adapter source_bookmaker = None
         \/ get_bookmaker_adapter target_bookmaker = None)
        /\ exists message, e = ValueError message
    end.
Proof.
  intros sh sa th ta source target. unfold fuzzy_match_team_names, adapter_of.
  destruct (get_bookmaker_adapter source) as [sc|];
    [|split; [now left | unfold unsupported; eauto]].
  destruct (get_bookmaker_adapter target) as [tc|];
    [|split; [now right | unfold unsupported; eauto]].
  set (nsh := normalize_game_name sc sh).
  set (nsa := normalize_game_name sc sa).
  set (nth := normalize_game_name tc th).
  set (nta := normalize_game_name tc ta).
  pose proof (similarity_range nsh nth) as [? ?].
  pose proof (similarity_range nsa nta) as [? ?].
  pose proof (similarity_range nsh nta) as [? ?].
  pose proof (similarity_range nsa nth) as [? ?].
  clearbody nsh nsa nth nta.
  destruct (Qle_bool _ _);
    (split; [unfold Qdiv; change (/ 2) with (1 # 2); lra | split; eauto]).
Qed.

Lemma map_market_sound self market source target mapped c self' :
  cache_sound self ->
  map_market_across_bookmakers self market source target
  = (Ok (mapped, c), self') ->
  0.6 <= c <= 0.9 /\ cache_sound self'.
Proof.
  intros Hsound. unfold map_market_across_bookmakers.
  destruct (_market_mapping_cache self !! _) as [cached|] eqn:Ehit.
  - intros [= -> <-]. split; [|exact Hsound]. exact (Hsound _ _ Ehit).
  - unfold compute_market_mapping.
    destruct (adapter_of source) as [sa|]; [|discriminate].
    destruct (adapter_of target) as [ta|]; [|discriminate].
    intros [= <- <- <-].
    assert (0.6 <= _calculate_market_mapping_confidence market
                      (map_market_name sa market)
                      (map_market_name ta (map_market_name sa market))
            <= 0.9) as Hc.
    { unfold _calculate_market_mapping_confidence.
      destruct (_ && _)%bool; [lra|].
      destruct (negb _); [lra|]. destruct (negb _); lra. }
    split; [exact Hc|]. intros key entry. cbn.
    destruct (decide (cache_key source target market = key)) as [<-|Hne].
    + rewrite lookup_insert_eq. now intros [= <-].
    + rewrite lookup_insert_ne by exact Hne. apply Hsound.
Qed.

Lemma check_market_sound self selection bookmaker names av mm c self' :
  cache_sound self ->
  check_market_availability self selection bookmaker names
  = (Ok (av, mm, c), self') ->
  0 <= c <= 1 /\ (av = true -> 0.48 <= c) /\ cache_sound self'.
Proof.
  intros Hsound. unfold check_market_availability.
  destruct names as [|n0 rest].
  { intros [= <- _ <- <-]. split; [lra|]. split; [discriminate|exact Hsound]. }
  destruct (map_market_across_bookmakers _ _ _ _) as [[[mapped mc]|e] s] eqn:Emap;
    [|discriminate].
  destruct (map_market_sound _ _ _ _ _ _ _ Hsound Emap) as [Hmc Hs].
  pose proof (market_loop_spec mapped (n0 :: rest) None 0) as Hloop.
  destruct (market_loop _ _ _) as [n|[bm bc]].
  - intros [= <- _ <- <-]. split; [lra|]. split; [intros _; lra|exact Hs].
  - destruct Hloop as (_ & Hlo & _ & Hsrc).
    assert (bc <= 1) as Hhi.
    { destruct Hsrc as [[_ ->]|(n & _ & _ & ->)]; [lra|].
      apply DifflibFacts.ratio_range. }
    intros [= <- _ <- <-]. split; [nra|]. split; [|exact Hs].
    intros Hav. apply Qle_bool_iff in Hav. nra.
Qed.

Lemma game_confidence_range selection bookmaker games ga :
  check_game_availability selection bookmaker games = Ok ga ->
  0 <= ga_confidence ga <= 1.
Proof.
  intros Hcheck.
  destruct (check_game_availability_spec _ _ _ _ Hcheck)
    as [[_ ->]|(cfg & bm & bc & Hcfg & Hrun & Hcase)]; [cbn; lra|].
  destruct (best_game_loop_spec selection bookmaker cfg Hcfg games None 0)
    as (bm' & bc' & Hrun' & Hlo & _ & Hsrc).
  rewrite Hrun in Hrun'. injection Hrun' as <- <-.
  assert (bc <= 1) as Hhi.
  { destruct Hsrc as [[_ ->]|(g & sw & _ & _ & Hs)]; [lra|].
    destruct (fuzzy_match_returns bookmaker cfg
                (home_team selection) (away_team selection)
                (game_home g) (game_away g) Hcfg)
      as (c0 & sw0 & Hf0 & [_ Hc0] & _).
    rewrite Hf0 in Hs. now injection Hs as <- _. }
  destruct Hcase as [[_ ->]|(game & _ & _ & ->)]; cbn; lra.
Qed.

(** X10. [match_selection] never answers "Could not find matching game
    data": once the game is reported available, the second pass over the
    candidates finds a game scoring at least 0.7. *)
Theorem matching_game_data_always_found :
  forall (self self' : MarketMatcher) (selection : Selection)
         (bookmaker : string) (games : list CandidateGame)
         (tolerance : option Q) (r : MatchResult),
    match_selection self selection bookmaker games tolerance = (Ok r, self') ->
    ~ In "Could not find matching game data" (warnings r).
Proof.
  intros self self' selection bookmaker games tolerance r.
  unfold match_selection.
  destruct (check_game_availability selection bookmaker games) as [ga|e] eqn:Hcheck;
    [|discriminate].
  destruct (available ga) eqn:Hav; cbn [negb].
  2:{ intros [= <- _]. cbn. intros [H|[]]. discriminate H. }
  destruct (find_matching_game_found _ _ _ _ Hcheck Hav) as (game & -> & _).
  destruct (check_market_availability _ _ _ _) as [[[[ma mm] mc]|e] s'];
    [|discriminate].
  destruct ma; cbn [negb].
  2:{ intros [= <- _]. cbn. intros [H|[]]. discriminate H. }
  destruct mm as [mapped|]; [|discriminate].
  destruct (find_odds _ _) as [o|].
  2:{ intros [= <- _]. cbn. intros [H|[]]. discriminate H. }
  destruct (Qle_bool o 0).
  { intros [= <- _]. cbn. intros [H|[]]. discriminate H. }
  destruct (compare_odds _ _ _ _) as [within d].
  intros [= <- _]. cbn. destruct within; [intros []|].
  intros [H|[]]. discriminate H.
Qed.

Lemma matching_game_data_always_found_witness :
  exists r self',
    match_selection (create_market_matcher (Float64.literal 0.05)) sample_selection
      "sportybet" reserves_first None = (Ok r, self')
    /\ ~ In "Could not find matching game data" (warnings r).
Proof.
  eexists. eexists. split; [vm_compute; reflexivity|].
  eapply (matching_game_data_always_found (create_market_matcher (Float64.literal 0.05)) _
            sample_selection "sportybet" reserves_first None).
  vm_compute. reflexivity.
Defined.

(** X11. On a matcher whose cache holds only confidences the engine
    itself computed, every result of [match_selection] has a confidence
    between 0 and 1, and every successful one a confidence of at least
    0.572 (0.4 x 0.7 for the game, 0.4 x 0.8 x 0.6 for the market, 0.2 x
    0.5 for the odds); the cache stays such a cache. *)
Theorem match_confidence_bounds :
  forall (self self' : MarketMatcher) (selection : Selection)
         (bookmaker : string) (games : list CandidateGame)
         (tolerance : option Q) (r : MatchResult),
    cache_sound self ->
    match_selection self selection bookmaker games tolerance = (Ok r, self') ->
    0 <= confidence r <= 1
    /\ (success r = true -> 0.572 <= confidence r)
    /\ cache_sound self'.
Proof.
  intros self self' selection bookmaker games tolerance r Hsound.
  unfold match_selection.
  destruct (check_game_availability selection bookmaker games) as [ga|e] eqn:Hcheck;
    [|discriminate].
  pose proof (game_confidence_range _ _ _ _ Hcheck) as [Hglo Hghi].
  destruct (game_availability_facts _ _ _ _ Hcheck) as (_ & Hav7 & _).
  destruct (available ga) eqn:Hav; cbn [negb].
  2:{ intros [= <- <-]. cbn. split; [lra|]. split; [discriminate|exact Hsound]. }
  assert (0.7 <= ga_confidence ga) as Hg7 by now apply Hav7.
  destruct (find_matching_game_found _ _ _ _ Hcheck Hav) as (game & -> & _).
  destruct (check_market_availability _ _ _ _) as [[[[ma mm] mc]|e] s'] eqn:Emarket;
    [|discriminate].
  destruct (check_market_sound _ _ _ _ _ _ _ _ Hsound Emarket)
    as (Hmc & Hm48 & Hs').
  destruct ma; cbn [negb].
  2:{ intros [= <- <-]. cbn. split; [lra|]. split; [discriminate|exact Hs']. }
  specialize (Hm48 eq_refl).
  destruct mm as [mapped|]; [|discriminate].
  destruct (find_odds _ _) as [o|].
  2:{ intros [= <- <-]. cbn. split; [lra|]. split; [discriminate|exact Hs']. }
  destruct (Qle_bool o 0).
  { intros [= <- <-]. cbn. split; [lra|]. split; [discriminate|exact Hs']. }
  destruct (compare_odds _ _ _ _) as [within d].
  intros [= <- <-]. cbn. unfold overall_confidence.
  split; [|split; [intros _|exact Hs']]; destruct within; lra.
Qed.

Lemma match_confidence_bounds_witness :
  exists r self',
    match_selection (create_market_matcher (Float64.literal 0.05)) sample_selection
      "sportybet" (sample_games 2.90) None = (Ok r, self')
    /\ success r = true
    /\ 0.572 <= confidence r <= 1.
Proof.
  eexists. eexists. split; [vm_compute; reflexivity|].
  split; [vm_compute; reflexivity|].
  destruct (match_confidence_bounds (create_market_matcher (Float64.literal 0.05)) _
              sample_selection "sportybet" (sample_games 2.90) None _
              ltac:(intros key entry H; exact (False_ind _ (lookup_empty_Some key entry H)))
              ltac:(vm_compute; reflexivity))
    as ([_ Hhi] & Hlo & _).
  split; [apply Hlo; vm_compute; reflexivity | exact Hhi].
Defined.

End EngineFacts.

(** ** The cache between calls, and candidates without a team name *)

Module StabilityFacts.
Import Text Adapters Matcher MatcherAux OddsFacts SimilarityFacts
       OrientationFacts GameFacts ScoringFacts.
Local Open Scope Q_scope.
Local Open Scope list_scope.

(** X12. A call of [map_market_across_bookmakers] never changes or
    drops an entry the cache already holds; after a call that returned a
    pair, the same call returns that pair again and leaves the cache as
    it is; a call that raises leaves the matcher untouched. *)
Theorem market_cache_is_stable :
  forall (self self' : MarketMatcher) (market source target : string)
         (answer : result (string * Q)),
    map_market_across_bookmakers self market source target = (answer, self') ->
    (forall key entry,
        _market_mapping_cache self !! key = Some entry ->
        _market_mapping_cache self' !! key = Some entry)
    /\ (forall key,
           key <> cache_key source target market ->
           _market_mapping_cache self' !! key = _market_mapping_cache self !! key)
    /\ (forall r,
           answer = Ok r ->
           _market_mapping_cache self' !! cache_key source target market = Some r
           /\ map_market_across_bookmakers self' market source target
              = (Ok r, self'))
    /\ (forall e, answer = Raise e -> self' = self).
Proof.
  intros self self' market source target answer.
  unfold map_market_across_bookmakers.
  destruct (_market_mapping_cache self !! cache_key source target market)
    as [cached|] eqn:Ehit.
  - intros [= <- <-]. split; [auto|]. split; [auto|]. split; [|discriminate].
    intros r [= <-]. split; [exact Ehit|]. now rewrite Ehit.
  - destruct (compute_market_mapping market source target) as [r|e].
    + intros [= <- <-]. cbn [_market_mapping_cache].
      split; [|split; [|split; [|discriminate]]].
      * intros key entry H. rewrite lookup_insert_ne; [exact H|].
        intros <-. congruence.
      * intros key Hne. now rewrite lookup_insert_ne.
      * intros r0 [= <-]. rewrite lookup_insert_eq. auto.
    + intros [= <- <-]. split; [auto|]. split; [auto|].
      split; [discriminate|reflexivity].
Qed.

Lemma market_cache_is_stable_witness :
  exists self',
    map_market_across_bookmakers (create_market_matcher (Float64.literal 0.05))
      "Over/Under 2.5" "bet9ja" "bet365" = (Ok ("Goals Over/Under", 0.9), self')
    /\ map_market_across_bookmakers self' "Over/Under 2.5" "bet9ja" "bet365"
       = (Ok ("Goals Over/Under", 0.9), self').
Proof.
  eexists. split; [vm_compute; reflexivity|].
  refine (proj2 (proj1 (proj2 (proj2
            (market_cache_is_stable (create_market_matcher (Float64.literal 0.05)) _
               "Over/Under 2.5" "bet9ja" "bet365" _ _))) _ eq_refl)).
  vm_compute. reflexivity.
Defined.

Lemma best_game_loop_skips_blank selection bookmaker game :
  game_home game = EmptyString \/ game_away game = EmptyString ->
  forall before after best,
    best_game_loop selection bookmaker (before ++ game :: after) best
    = best_game_loop selection bookmaker (before ++ after) best.
Proof.
  intros Hblank. induction before as [|g0 before IH]; intros after best.
  - cbn [app best_game_loop].
    assert ((is_empty (game_home game) || is_empty (game_away game))%bool = true)
      as ->; [|reflexivity].
    destruct Hblank as [-> | ->]; [reflexivity | apply orb_true_r].
  - cbn [app best_game_loop].
    destruct (_ || _)%bool; [apply IH|].
    destruct (fuzzy_match_team_names _ _ _ _ _ _) as [[c sw]|e];
      [apply IH | reflexivity].
Qed.

Lemma find_matching_game_skips_blank selection bookmaker cfg game :
  get_bookmaker_adapter bookmaker = Some cfg ->
  game_home game = EmptyString \/ game_away game = EmptyString ->
  forall before after,
    find_matching_game selection bookmaker (before ++ game :: after)
    = find_matching_game selection bookmaker (before ++ after).
Proof.
  intros Hcfg Hblank. induction before as [|g0 before IH]; intros after.
  - cbn [app find_matching_game].
    destruct (fuzzy_match_returns bookmaker cfg
                (home_team selection) (away_team selection)
                (game_home game) (game_away game) Hcfg)
      as (c & sw & -> & _ & Hhalf).
    specialize (Hhalf Hblank).
    assert (Qle_bool 0.7 c = false) as ->; [|reflexivity].
    apply Qle_bool_false. lra.
  - cbn [app find_matching_game].
    destruct (fuzzy_match_team_names _ _ _ _ _ _) as [[c sw]|e];
      [|reflexivity].
    destruct (Qle_bool 0.7 c); [reflexivity | apply IH].
Qed.

(** X13. A candidate game that lacks its home or its away team name
    never matches and never changes the answer: with it or without it
    among other candidates, [check_game_availability] and
    [match_selection] return the same. *)
Theorem blank_candidates_are_ignored :
  forall (self : MarketMatcher) (selection : Selection) (bookmaker : string)
         (before after : list CandidateGame) (game : CandidateGame)
         (tolerance : option Q),
    game_home game = EmptyString \/ game_away game = EmptyString ->
    before ++ after <> [] ->
    check_game_availability selection bookmaker (before ++ game :: after)
    = check_game_availability selection bookmaker (before ++ after)
    /\ match_selection self selection bookmaker (before ++ game :: after)
         tolerance
       = match_selection self selection bookmaker (before ++ after) tolerance.
Proof.
  intros self selection bookmaker before after game tolerance Hblank Hne.
  assert (check_game_availability selection bookmaker (before ++ game :: after)
          = check_game_availability selection bookmaker (before ++ after))
    as Hcheck.
  { unfold check_game_availability.
    rewrite (best_game_loop_skips_blank selection bookmaker game Hblank).
    destruct (before ++ after) eqn:E; [congruence|].
    destruct (before ++ game :: after) eqn:E'; [|reflexivity].
    destruct before; discriminate. }
  split; [exact Hcheck|]. unfold match_selection. rewrite Hcheck.
  destruct (check_game_availability selection bookmaker (before ++ after))
    as [ga|e] eqn:Hga; [|reflexivity].
  destruct (negb (available ga)); [reflexivity|].
  destruct (check_game_availability_spec _ _ _ _ Hga)
    as [[E _]|(cfg & _ & _ & Hcfg & _)]; [congruence|].
  now rewrite (find_matching_game_skips_blank selection bookmaker cfg game
                 Hcfg Hblank).
Qed.

Lemma blank_candidates_are_ignored_witness :
  match_selection (create_market_matcher (Float64.literal 0.05)) sample_selection "sportybet"
    ({| game_home := "Man Utd"; game_away := ""; game_markets := [] |}
       :: sample_games 2.48) None
  = match_selection (create_market_matcher (Float64.literal 0.05)) sample_selection "sportybet"
      (sample_games 2.48) None.
Proof.
  apply (blank_candidates_are_ignored (create_market_matcher (Float64.literal 0.05))
           sample_selection "sportybet" [] (sample_games 2.48)
           {| game_home := "Man Utd"; game_away := ""; game_markets := [] |}
           None); [now right | discriminate].
Defined.

End StabilityFacts.

(** ** The conversion queue under any sequence of operations *)

Module QueueFacts.
Import Worker QueueRuns QueueAux.
Local Open Scope list_scope.

Lemma queue_run_fifo : forall ops q,
  let answers := fst (queue_run ops q) in
  let q' := snd (queue_run ops q) in
  queue q ++ accepted ops answers = handed_out answers ++ queue q'
  /\ max_size q' = max_size q
  /\ ((0 < max_size q)%Z ->
      (Z.of_nat (length (queue q)) <= max_size q)%Z ->
      (Z.of_nat (length (queue q')) <= max_size q)%Z)
  /\ ((max_size q <= 0)%Z -> ~ In (Added false) answers).
Proof.
  induction ops as [|op ops IH]; intros q; cbn.
  - rewrite List.app_nil_r. split; [reflexivity|]. split; [reflexivity|].
    split; [auto|]. intros _ [].
  - destruct op as [task| |task result]; cbn [queue_step].
    + unfold add_task.
      destruct (_ && _)%bool eqn:Efull.
      * specialize (IH q). destruct (queue_run ops q) as [answers q'].
        cbn in *. destruct IH as (Hfifo & Hmax & Hbound & Hnever).
        split; [exact Hfifo|]. split; [exact Hmax|]. split; [exact Hbound|].
        intros Hle [H|H]; [|now apply Hnever].
        apply andb_prop in Efull as [Epos _]. apply Z.ltb_lt in Epos. lia.
      * set (q1 := Build_ConversionQueue _ _ _ _).
        specialize (IH q1). destruct (queue_run ops q1) as [answers q'].
        subst q1. cbn in *. destruct IH as (Hfifo & Hmax & Hbound & Hnever).
        split; [now rewrite <- Hfifo, <- List.app_assoc|].
        split; [exact Hmax|]. split.
        -- intros Hpos Hlen. apply Hbound; [exact Hpos|].
           rewrite List.length_app. cbn.
           apply andb_false_iff in Efull as [E|E];
             [apply Z.ltb_ge in E | apply Z.leb_gt in E]; lia.
        -- intros Hle [H|H]; [discriminate | now apply Hnever].
    + unfold get_task. destruct (queue q) as [|task rest] eqn:Eq.
      * specialize (IH q). destruct (queue_run ops q) as [answers q'].
        cbn in *. rewrite Eq in IH. cbn in IH.
        destruct IH as (Hfifo & Hmax & Hbound & Hnever).
        split; [exact Hfifo|]. split; [exact Hmax|]. split; [exact Hbound|].
        intros Hle [H|H]; [discriminate | now apply Hnever].
      * set (q1 := Build_ConversionQueue _ _ _ _).
        specialize (IH q1). destruct (queue_run ops q1) as [answers q'].
        subst q1. cbn in *. destruct IH as (Hfifo & Hmax & Hbound & Hnever).
        split; [now rewrite Hfifo|]. split; [exact Hmax|]. split.
        -- intros Hpos Hlen. apply Hbound; [exact Hpos | lia].
        -- intros Hle [H|H]; [discriminate | now apply Hnever].
    + set (q1 := complete_task task result q).
      specialize (IH q1). destruct (queue_run ops q1) as [answers q'].
      subst q1. cbn in *. destruct IH as (Hfifo & Hmax & Hbound & Hnever).
      split; [exact Hfifo|]. split; [exact Hmax|]. split; [exact Hbound|].
      intros Hle [H|H]; [discriminate | now apply Hnever].
Qed.

(** X14. The conversion queue is first in, first out, and loses or
    repeats nothing: under any sequence of [add_task], [get_task] and
    [complete_task] calls on a new queue, the tasks accepted so far are
    the tasks handed out so far followed by the tasks still waiting, in
    the same order. A queue of positive [max_size] never holds more
    than [max_size] tasks; one of [max_size] zero or less never refuses
    a task. *)
Theorem queue_is_first_in_first_out :
  forall (max_size : Z) (ops : list operation),
    let answers := fst (queue_run ops (new_queue max_size)) in
    let q := snd (queue_run ops (new_queue max_size)) in
    accepted ops answers = handed_out answers ++ queue q
    /\ ((0 < max_size)%Z -> (Z.of_nat (get_queue_size q) <= max_size)%Z)
    /\ ((max_size <= 0)%Z -> ~ In (Added false) answers).
Proof.
  intros max_size ops.
  destruct (queue_run_fifo ops (new_queue max_size))
    as (Hfifo & _ & Hbound & Hnever).
  cbn in *. split; [exact Hfifo|]. split; [|exact Hnever].
  intros Hpos. apply Hbound; [exact Hpos | lia].
Qed.

Lemma queue_run_results task : forall ops q,
  let answers := fst (queue_run ops q) in
  let q' := snd (queue_run ops q) in
  get_result task q' = last_result task ops (get_result task q)
  /\ processing_tasks q' !! task
     = in_progress task ops answers (processing_tasks q !! task).
Proof.
  induction ops as [|op ops IH]; intros q; cbn; [auto|].
  destruct op as [t| |t r]; cbn [queue_step].
  - unfold add_task. destruct (_ && _)%bool.
    + specialize (IH q). destruct (queue_run ops q) as [answers q'].
      exact IH.
    + set (q1 := Build_ConversionQueue _ _ _ _).
      specialize (IH q1). destruct (queue_run ops q1) as [answers q'].
      exact IH.
  - unfold get_task. destruct (queue q) as [|t rest].
    + specialize (IH q). destruct (queue_run ops q) as [answers q'].
      exact IH.
    + set (q1 := Build_ConversionQueue _ _ _ _).
      specialize (IH q1). destruct (queue_run ops q1) as [answers q'].
      cbn in *. destruct IH as [-> ->]. subst q1.
      unfold get_result. cbn. split; [reflexivity|]. f_equal.
      destruct (String.eqb_spec (task_id t) task) as [->|Hne].
      * apply lookup_insert_eq.
      * now apply lookup_insert_ne.
  - set (q1 := complete_task t r q).
    specialize (IH q1). destruct (queue_run ops q1) as [answers q'].
    cbn in *. destruct IH as [-> ->]. subst q1.
    unfold get_result, complete_task. cbn. split; f_equal.
    + destruct (String.eqb_spec t task) as [->|Hne].
      * apply lookup_insert_eq.
      * now apply lookup_insert_ne.
    + destruct (String.eqb_spec t task) as [->|Hne].
      * apply lookup_delete_eq.
      * now apply lookup_delete_ne.
Qed.

(** X15. Under any sequence of queue operations on a new queue,
    [get_result] returns for each id the result of the latest
    [complete_task] call for it ([None] if there was none: results are
    never dropped, a later completion replaces an earlier one), and the
    processing set holds under an id the task last handed out with it,
    unless a [complete_task] call for the id came after. *)
Theorem results_and_processing_follow_the_latest_call :
  forall (max_size : Z) (ops : list operation) (task : string),
    let answers := fst (queue_run ops (new_queue max_size)) in
    let q := snd (queue_run ops (new_queue max_size)) in
    get_result task q = last_result task ops None
    /\ processing_tasks q !! task = in_progress task ops answers None.
Proof.
  intros max_size ops task.
  destruct (queue_run_results task ops (new_queue max_size)) as [Hr Hp].
  cbn in *. rewrite Hr, Hp. unfold get_result. cbn.
  now rewrite !lookup_empty.
Qed.

End QueueFacts.

(** ** The pool and the holders of its instances *)

Module PoolClientFacts.
Import Pool PoolClients PoolClientsAux.
Local Open Scope list_scope.

Lemma consistent_new capacity start bound :
  consistent bound (new_pool capacity start) [].
Proof.
  constructor; cbn.
  - intros iid r H. now apply lookup_empty_Some in H.
  - intros iid r H. now apply lookup_empty_Some in H.
  - intros iid [].
  - constructor.
  - intros iid r [].
  - constructor.
  - intros r [].
  - intros iid r instance H. now apply lookup_empty_Some in H.
  - rewrite map_size_empty. lia.
Qed.

Lemma consistent_later bound bound' p held :
  (bound <= bound')%Z -> consistent bound p held -> consistent bound' p held.
Proof.
  intros Hle [H1 H2 H3 H4 H5 H6 H7 H8 H9].
  constructor; auto.
  - intros iid r H. specialize (H2 _ _ H). lia.
  - intros iid H. specialize (H3 _ H). lia.
Qed.

Lemma without_middle {A : Type} (x : A) l2 : forall l1,
  without (length l1) (l1 ++ x :: l2) = l1 ++ l2.
Proof.
  induction l1 as [|a l1 IH]; [reflexivity|].
  unfold without in *. cbn. f_equal. exact IH.
Qed.

Lemma without_split {A : Type} (l : list A) position x :
  List.nth_error l position = Some x ->
  exists l1 l2, l = l1 ++ x :: l2 /\ without position l = l1 ++ l2.
Proof.
  intros H. destruct (List.nth_error_split l position H) as (l1 & l2 & -> & <-).
  exists l1, l2. split; [reflexivity | apply without_middle].
Qed.

(** A queued id of a tracked instance is handed out: the instance is
    marked busy and joins the instances held. *)
Lemma consistent_reuse bound now p held iid rest r :
  consistent bound p held -> (bound <= now)%Z ->
  available_instances p = iid :: rest ->
  instances p !! iid = Some r ->
  consistent now
    (set_objects (alter (check_out now) r (objects p)) (set_available rest p))
    (held ++ [r]).
Proof.
  intros [Hown Htimes Hqtimes Hqnodup Hqidle Hnodup Hheld Hbusy Hcap]
         Hle Hq Hr.
  rewrite Hq in *. apply List.NoDup_cons_iff in Hqnodup as [Hfresh Hqnodup].
  assert (~ In r held) as Hnew by (eapply Hqidle; [now left | exact Hr]).
  destruct (Hown _ _ Hr) as (inst & Hobj & Hid).
  assert (forall iid' r', instances p !! iid' = Some r' -> r' = r -> iid' = iid)
    as Hinj.
  { intros iid' r' H' ->. destruct (Hown _ _ H') as (inst' & Hobj' & Hid').
    congruence. }
  constructor; cbn.
  - intros iid' r' H'. destruct (decide (r' = r)) as [->|Hne].
    + exists (check_out now inst). rewrite lookup_alter_eq, Hobj.
      split; [reflexivity|]. cbn. rewrite <- (Hinj _ _ H' eq_refl) in Hid.
      exact Hid.
    + rewrite lookup_alter_ne by congruence. eauto.
  - intros iid' r' H'. specialize (Htimes _ _ H'). lia.
  - intros iid' H'. specialize (Hqtimes iid' (or_intror H')). lia.
  - exact Hqnodup.
  - intros iid' r' Hin H' Hheld'. apply List.in_app_iff in Hheld' as [Hh|[->|[]]].
    + exact (Hqidle iid' r' (or_intror Hin) H' Hh).
    + apply Hfresh. now rewrite <- (Hinj _ _ H' eq_refl).
  - apply List.NoDup_app; [exact Hnodup | repeat constructor; intros [] |].
    intros x Hx [<-|[]]. contradiction.
  - intros r' Hin. apply List.in_app_iff in Hin as [Hh|[<-|[]]].
    + destruct (Hheld _ Hh) as (inst' & Hobj' & Huse & Htr & Hnq).
      exists inst'. rewrite lookup_alter_ne by (intros <-; contradiction).
      repeat split; auto. intros H. apply Hnq. now right.
    + exists (check_out now inst). rewrite lookup_alter_eq, Hobj. cbn.
      rewrite Hid. repeat split; auto.
  - intros iid' r' inst' H' Hobj' Huse. apply List.in_app_iff.
    destruct (decide (r' = r)) as [->|Hne]; [right; now left|left].
    rewrite lookup_alter_ne in Hobj' by congruence. eauto.
  - exact Hcap.
Qed.

(** A queued id that is no longer tracked is dropped from the queue. *)
Lemma consistent_dangling bound p held iid rest :
  consistent bound p held ->
  available_instances p = iid :: rest ->
  consistent bound (set_available rest p) held.
Proof.
  intros [Hown Htimes Hqtimes Hqnodup Hqidle Hnodup Hheld Hbusy Hcap] Hq.
  rewrite Hq in *. apply List.NoDup_cons_iff in Hqnodup as [Hfresh Hqnodup].
  constructor; cbn; auto.
  - intros iid' H'. apply Hqtimes. now right.
  - intros iid' r' Hin. apply Hqidle. now right.
  - intros r' Hin. destruct (Hheld _ Hin) as (inst' & Ho & Hu & Ht & Hnq).
    exists inst'. repeat split; auto. intros Hx. apply Hnq. now right.
Qed.

(** Below capacity, with an empty queue, a new instance is created and
    held; its id is new because its clock reading is. *)
Lemma consistent_create bound now p held :
  consistent bound p held -> (bound < now)%Z ->
  available_instances p = [] ->
  size (instances p) < max_instances p ->
  consistent now (snd (_create_instance now p))
             (held ++ [fst (_create_instance now p)]).
Proof.
  intros [Hown Htimes Hqtimes Hqnodup Hqidle Hnodup Hheld Hbusy Hcap]
         Hlt Hq Hsize.
  unfold _create_instance. cbn [fst snd].
  set (r := fresh (dom (objects p))).
  set (key := (size (instances p), now)).
  assert (objects p !! r = None) as Hr
      by (apply not_elem_of_dom; apply is_fresh).
  assert (instances p !! key = None) as Hkey.
  { destruct (instances p !! key) as [r0|] eqn:E; [|reflexivity].
    specialize (Htimes _ _ E). cbn in Htimes. lia. }
  assert (~ In r held) as Hnew.
  { intros H. destruct (Hheld _ H) as (inst & Hobj & _). congruence. }
  constructor; cbn.
  - intros iid' r' H'. destruct (decide (key = iid')) as [<-|Hne].
    + rewrite lookup_insert_eq in H'. injection H' as <-.
      eexists. rewrite lookup_insert_eq. split; reflexivity.
    + rewrite lookup_insert_ne in H' by exact Hne.
      destruct (Hown _ _ H') as (inst' & Hobj' & Hid').
      exists inst'. split; [|exact Hid'].
      rewrite lookup_insert_ne; [exact Hobj' | congruence].
  - intros iid' r' H'. destruct (decide (key = iid')) as [<-|Hne];
      [cbn; lia|].
    rewrite lookup_insert_ne in H' by exact Hne.
    specialize (Htimes _ _ H'). lia.
  - rewrite Hq. intros iid' [].
  - rewrite Hq. constructor.
  - rewrite Hq. intros iid' r' [].
  - apply List.NoDup_app; [exact Hnodup | repeat constructor; intros [] |].
    intros x Hx [<-|[]]. contradiction.
  - intros r' Hin. apply List.in_app_iff in Hin as [Hh|[<-|[]]].
    + destruct (Hheld _ Hh) as (inst' & Hobj' & Huse & Htr & Hnq).
      exists inst'. rewrite lookup_insert_ne by congruence.
      repeat split; auto.
      rewrite lookup_insert_ne; [exact Htr|].
      intros E. rewrite <- E in Htr. congruence.
    + exists (Build_BrowserInstance key true now now 0 50).
      rewrite lookup_insert_eq. cbn [id in_use].
      rewrite lookup_insert_eq, Hq. repeat split; auto.
  - intros iid' r' inst' H' Hobj' Huse. apply List.in_app_iff.
    destruct (decide (key = iid')) as [<-|Hne].
    + rewrite lookup_insert_eq in H'. injection H' as <-. right. now left.
    + rewrite lookup_insert_ne in H' by exact Hne. left.
      destruct (Hown _ _ H') as (inst0 & Hobj0 & _).
      rewrite lookup_insert_ne in Hobj' by congruence. eauto.
  - rewrite map_size_insert_None by exact Hkey. lia.
Qed.

Lemma consistent_acquire bound now p held :
  consistent bound p held -> (bound < now)%Z ->
  consistent now (fst (client_step (Acquires now) p held))
             (snd (client_step (Acquires now) p held)).
Proof.
  intros Hc Hlt. cbn [client_step]. unfold get_instance.
  destruct (available_instances p) as [|iid rest] eqn:Hq.
  - destruct (size (instances p) <? max_instances p) eqn:E.
    + apply Nat.ltb_lt in E.
      pose proof (consistent_create bound now p held Hc Hlt Hq E) as H.
      destruct (_create_instance now p) as [r p']. exact H.
    + cbn. eapply consistent_later; [|exact Hc]. lia.
  - cbn [instances set_available].
    destruct (instances p !! iid) as [r|] eqn:Hr; cbn [fst snd].
    + exact (consistent_reuse bound now p held iid rest r Hc
               ltac:(lia) Hq Hr).
    + apply (consistent_later bound now); [lia|].
      exact (consistent_dangling bound p held iid rest Hc Hq).
Qed.

(** A held instance is released: it leaves the instances held, and is
    queued again, kept out of the queue, or dropped from the pool. *)
Lemma consistent_release bound p held close_fails position r :
  consistent bound p held ->
  List.nth_error held position = Some r ->
  consistent bound (release_instance close_fails r p) (without position held).
Proof.
  intros [Hown Htimes Hqtimes Hqnodup Hqidle Hnodup Hheld Hbusy Hcap] Hpos.
  destruct (without_split held position r Hpos) as (l1 & l2 & Hsplit & ->).
  assert (In r held) as Hin by (rewrite Hsplit; apply List.in_elt).
  destruct (Hheld _ Hin) as (inst & Hobj & Huse & Htr & Hnq).
  rewrite Hsplit in Hnodup.
  pose proof (List.NoDup_remove_1 _ _ _ Hnodup) as Hnodup'.
  pose proof (List.NoDup_remove_2 _ _ _ Hnodup) as Hout.
  assert (forall x, In x (l1 ++ l2) -> In x held /\ x <> r) as Hsub.
  { intros x Hx. split; [|intros ->; contradiction].
    rewrite Hsplit. apply List.in_app_iff in Hx as [Hx|Hx];
      apply List.in_app_iff; [now left | right; now right]. }
  assert (forall x, In x held -> x <> r -> In x (l1 ++ l2)) as Hsup.
  { intros x Hx Hne. rewrite Hsplit in Hx.
    apply List.in_app_iff in Hx as [Hx|[Hx|Hx]];
      [apply List.in_app_iff; now left | congruence
       | apply List.in_app_iff; now right]. }
  assert (forall iid' r', instances p !! iid' = Some r' -> r' = r ->
                          iid' = id inst) as Hinj.
  { intros iid' r' H' ->. destruct (Hown _ _ H') as (inst' & Hobj' & Hid').
    congruence. }
  assert (forall iid' r', instances p !! iid' = Some r' ->
            exists instance,
              <[r := check_in inst]> (objects p) !! r' = Some instance
              /\ id instance = iid') as Hown'.
  { intros iid' r' H'. destruct (decide (r = r')) as [<-|Hne].
    - exists (check_in inst). rewrite lookup_insert_eq.
      split; [reflexivity|]. cbn. symmetry. now apply (Hinj _ _ H').
    - rewrite lookup_insert_ne by exact Hne. eauto. }
  assert (forall r', In r' (l1 ++ l2) ->
            exists instance,
              <[r := check_in inst]> (objects p) !! r' = Some instance
              /\ in_use instance = true
              /\ instances p !! id instance = Some r'
              /\ ~ In (id instance) (available_instances p)
              /\ id instance <> id inst) as Hheld'.
  { intros r' Hin'. destruct (Hsub _ Hin') as [Hh Hne].
    destruct (Hheld _ Hh) as (inst' & Hobj' & Huse' & Htr' & Hnq').
    exists inst'. rewrite lookup_insert_ne by congruence.
    repeat split; auto. intros E. rewrite E in Htr'. congruence. }
  assert (forall iid' r' instance,
            instances p !! iid' = Some r' ->
            <[r := check_in inst]> (objects p) !! r' = Some instance ->
            in_use instance = true -> In r' (l1 ++ l2)) as Hbusy'.
  { intros iid' r' instance H' Hobj' Huse'.
    destruct (decide (r = r')) as [<-|Hne].
    - rewrite lookup_insert_eq in Hobj'. injection Hobj' as <-. discriminate.
    - rewrite lookup_insert_ne in Hobj' by exact Hne.
      apply Hsup; [eauto | congruence]. }
  unfold release_instance. rewrite Hobj.
  destruct (max_usage (check_in inst) <=? usage_count (check_in inst)).
  - unfold _recycle_instance. destruct close_fails.
    + constructor; cbn; auto.
      * intros iid' r' Hq' H' Hx. destruct (Hsub _ Hx) as [Hh _].
        exact (Hqidle _ _ Hq' H' Hh).
      * intros r' Hin'.
        destruct (Hheld' _ Hin') as (i' & ? & ? & ? & ? & _). eauto.
    + constructor; cbn.
      * intros iid' r' H'. apply lookup_delete_Some in H' as [_ H']. auto.
      * intros iid' r' H'. apply lookup_delete_Some in H' as [_ H']. eauto.
      * exact Hqtimes.
      * exact Hqnodup.
      * intros iid' r' Hq' H' Hx. apply lookup_delete_Some in H' as [_ H'].
        destruct (Hsub _ Hx) as [Hh _]. exact (Hqidle _ _ Hq' H' Hh).
      * exact Hnodup'.
      * intros r' Hin'.
        destruct (Hheld' _ Hin') as (i' & Ho & Hu & Ht & Hn & Hd).
        exists i'. repeat split; auto.
        rewrite lookup_delete_ne; [exact Ht | congruence].
      * intros iid' r' instance H'. apply lookup_delete_Some in H' as [_ H'].
        eauto.
      * pose proof (map_subseteq_size _ _
                      (delete_subseteq (instances p) (id inst))). lia.
  - constructor; cbn; auto.
    + intros iid' Hq'. apply List.in_app_iff in Hq' as [Hq'|[<-|[]]]; eauto.
    + apply List.NoDup_app; [exact Hqnodup | repeat constructor; intros [] |].
      intros x Hx [<-|[]]. contradiction.
    + intros iid' r' Hq' H' Hx. destruct (Hsub _ Hx) as [Hh Hne].
      apply List.in_app_iff in Hq' as [Hq'|[<-|[]]].
      * exact (Hqidle _ _ Hq' H' Hh).
      * congruence.
    + intros r' Hin'.
      destruct (Hheld' _ Hin') as (i' & Ho & Hu & Ht & Hn & Hd).
      exists i'. repeat split; auto.
      intros Hq'. apply List.in_app_iff in Hq' as [Hq'|[E|[]]]; auto.
Qed.

(** The loop of [cleanup_instances] over the instances to remove only
    drops entries of [instances], and only under the ids of the
    objects it visits. *)
Lemma cleanup_loop close_fails : forall entries p,
  let p' :=
    fold_left
      (fun p (entry : nat * Z * nat) =>
         match objects p !! snd entry with
         | Some instance =>
             _recycle_instance (close_fails (fst entry)) instance p
         | None => p
         end) entries p in
  objects p' = objects p
  /\ available_instances p' = available_instances p
  /\ max_instances p' = max_instances p
  /\ instances p' ⊆ instances p
  /\ forall iid r,
       instances p !! iid = Some r ->
       (forall entry instance,
           In entry entries -> objects p !! snd entry = Some instance ->
           id instance <> iid) ->
       instances p' !! iid = Some r.
Proof.
  induction entries as [|entry entries IH]; intros p; cbn.
  - repeat split; auto.
  - set (p1 := match objects p !! snd entry with
               | Some instance =>
                   _recycle_instance (close_fails (fst entry)) instance p
               | None => p
               end).
    assert (objects p1 = objects p
            /\ available_instances p1 = available_instances p
            /\ max_instances p1 = max_instances p
            /\ instances p1 ⊆ instances p
            /\ forall iid r,
                 instances p !! iid = Some r ->
                 (forall instance, objects p !! snd entry = Some instance ->
                                   id instance <> iid) ->
                 instances p1 !! iid = Some r) as (Ho & Ha & Hm & Hs & Hk).
    { subst p1. destruct (objects p !! snd entry) as [instance|];
        [|repeat split; auto].
      unfold _recycle_instance. destruct (close_fails (fst entry));
        [repeat split; auto|]. cbn.
      repeat split; auto; [apply delete_subseteq|].
      intros iid r H Hne. rewrite lookup_delete_ne; [exact H|].
      now apply Hne. }
    destruct (IH p1) as (Ho' & Ha' & Hm' & Hs' & Hk').
    split; [congruence|]. split; [congruence|]. split; [congruence|].
    split; [etransitivity; eassumption|].
    intros iid r H Hne. apply Hk'.
    + apply Hk; [exact H|]. intros instance Hobj.
      apply (Hne entry); [now left | exact Hobj].
    + intros e instance Hin Hobj. rewrite Ho in Hobj.
      apply (Hne e); [now right | exact Hobj].
Qed.

(** A cleanup drops idle instances only; the instances held stay. *)
Lemma consistent_cleanup bound now close_fails p held :
  consistent bound p held ->
  consistent bound (cleanup_instances now close_fails p) held.
Proof.
  intros Hc. unfold cleanup_instances.
  destruct (now - last_cleanup p <? cleanup_interval p)%Z; [exact Hc|].
  destruct Hc as [Hown Htimes Hqtimes Hqnodup Hqidle Hnodup Hheld Hbusy Hcap].
  destruct (cleanup_loop close_fails
              (List.filter (stale now p) (map_to_list (instances p))) p)
    as (Ho & Ha & Hm & Hs & Hk).
  cbv zeta in *.
  set (p' := fold_left _ _ p) in *.
  assert (forall iid r, instances p' !! iid = Some r ->
                        instances p !! iid = Some r) as Hweak.
  { intros iid r H. eapply lookup_weaken; eassumption. }
  constructor; cbn; rewrite ?Ho, ?Ha, ?Hm.
  - intros iid r H. eauto.
  - intros iid r H. eauto.
  - exact Hqtimes.
  - exact Hqnodup.
  - intros iid r Hq H. eauto.
  - exact Hnodup.
  - intros r Hin. destruct (Hheld _ Hin) as (inst & Hobj & Huse & Htr & Hnq).
    exists inst. repeat split; auto. apply Hk; [exact Htr|].
    intros entry instance He Hobj' E.
    apply List.filter_In in He as [He Hstale].
    destruct entry as [iid' r']. apply list_elem_of_In in He.
    apply elem_of_map_to_list in He. cbn in *.
    unfold stale in Hstale. cbn in Hstale. rewrite Hobj' in Hstale.
    destruct (Hown _ _ He) as (inst' & Hobj'' & Hid').
    assert (inst' = instance) as -> by congruence.
    assert (r' = r) as -> by congruence.
    assert (instance = inst) as -> by congruence.
    rewrite Huse in Hstale. discriminate.
  - intros iid r instance H. eauto.
  - pose proof (map_subseteq_size _ _ Hs). lia.
Qed.

(** Every event keeps the pool and its holders consistent. *)
Lemma consistent_run : forall events bound p held,
  consistent bound p held -> increasing bound events ->
  consistent (latest bound events)
             (fst (client_run events p held))
             (snd (client_run events p held)).
Proof.
  induction events as [|e events IH]; intros bound p held Hc Hinc;
    [exact Hc|].
  cbn [client_run].
  destruct e as [now|close_fails position|now close_fails];
    cbn [increasing latest] in *.
  - destruct Hinc as [Hlt Hinc].
    pose proof (consistent_acquire bound now p held Hc Hlt) as H.
    destruct (client_step (Acquires now) p held) as [p' held'].
    now apply IH.
  - cbn [client_step].
    destruct (List.nth_error held position) as [r|] eqn:E; [|now apply IH].
    apply IH; [|exact Hinc]. now apply consistent_release.
  - cbn [client_step]. apply IH; [|exact Hinc]. now apply consistent_cleanup.
Qed.

Lemma client_run_capacity : forall events p held,
  max_instances (fst (client_run events p held)) = max_instances p.
Proof.
  induction events as [|e events IH]; intros p held; [reflexivity|].
  cbn [client_run].
  destruct (client_step e p held) as [p' held'] eqn:E.
  rewrite IH. destruct e as [now|close_fails position|now close_fails];
    cbn [client_step] in E.
  - unfold get_instance in E.
    destruct (available_instances p) as [|iid rest].
    + destruct (_ <? _); [|now injection E as <- _].
      unfold _create_instance in E. now injection E as <- _.
    + cbn in E. destruct (instances p !! iid); now injection E as <- _.
  - destruct (List.nth_error held position) as [r|];
      [|now injection E as <- _].
    injection E as <- _. unfold release_instance.
    destruct (objects p !! r) as [inst|]; [|reflexivity].
    destruct (_ <=? _); [|reflexivity].
    unfold _recycle_instance. now destruct close_fails.
  - injection E as <- _. unfold cleanup_instances.
    destruct (_ <? _)%Z; [reflexivity|].
    destruct (cleanup_loop close_fails
                (List.filter (stale now p) (map_to_list (instances p))) p)
      as (_ & _ & Hm & _).
    exact Hm.
Qed.

Lemma held_within_tracked bound p held :
  consistent bound p held -> length held <= size (instances p).
Proof.
  intros [Hown _ _ _ _ Hnodup Hheld _ _].
  set (key r := match objects p !! r with
                | Some instance => id instance
                | None => (0, 0%Z)
                end).
  assert (forall r, In r held -> instances p !! key r = Some r) as Hkey.
  { intros r Hin. destruct (Hheld _ Hin) as (inst & Hobj & _ & Htr & _).
    unfold key. now rewrite Hobj. }
  assert (NoDup (key <$> held)) as Hkeys.
  { apply NoDup_fmap_2_strong; [|now apply NoDup_ListNoDup].
    intros x y Hx Hy E. apply list_elem_of_In in Hx, Hy.
    pose proof (Hkey _ Hx) as H1. pose proof (Hkey _ Hy) as H2.
    rewrite E in H1. congruence. }
  rewrite <- (length_fmap key held).
  rewrite <- (size_list_to_set (C := gset (nat * Z)) _ Hkeys).
  rewrite <- (size_dom (instances p)).
  apply subseteq_size. intros k Hk. apply elem_of_list_to_set in Hk.
  apply list_elem_of_fmap in Hk as (r & -> & Hr).
  apply elem_of_dom. exists r. apply Hkey. now apply list_elem_of_In.
Qed.

(** X16. The pool never hands out an instance that is checked out.
    Whatever clients do in whatever order - acquire, release an
    instance they hold, run the idle cleanup - as long as the clock
    readings of the acquisitions increase strictly: the instances held
    are pairwise distinct, each is tracked by the pool under its own id,
    marked in use and absent from the idle queue, no more than
    [max_instances] are held, and a further acquisition returns an
    instance that nobody holds. *)
Theorem no_instance_is_held_twice :
  forall (capacity : nat) (start first : Z) (events : list event),
    increasing first events ->
    let p := fst (client_run events (new_pool capacity start) []) in
    let held := snd (client_run events (new_pool capacity start) []) in
    List.NoDup held
    /\ (forall r, In r held ->
          exists instance,
            objects p !! r = Some instance /\ in_use instance = true
            /\ instances p !! id instance = Some r
            /\ ~ In (id instance) (available_instances p))
    /\ length held <= capacity
    /\ forall now r p',
         (latest first events < now)%Z ->
         get_instance now p = (Ok r, p') ->
         ~ In r held
         /\ exists instance,
              objects p' !! r = Some instance /\ in_use instance = true.
Proof.
  intros capacity start first events Hinc p held.
  pose proof (consistent_run events first (new_pool capacity start) []
                (consistent_new capacity start first) Hinc) as Hc.
  fold p held in Hc.
  split; [apply (held_nodup _ _ _ Hc)|].
  split; [apply (held_tracked _ _ _ Hc)|]. split.
  - pose proof (held_within_tracked _ _ _ Hc).
    pose proof (within_capacity _ _ _ Hc).
    pose proof (client_run_capacity events (new_pool capacity start) [])
      as Hmax.
    fold p in Hmax. cbn in Hmax. lia.
  - intros now r p' Hlt Hget.
    pose proof (consistent_acquire _ now p held Hc Hlt) as Hc'.
    cbn [client_step] in Hc'. rewrite Hget in Hc'. cbn [fst snd] in Hc'.
    split.
    + pose proof (held_nodup _ _ _ Hc') as Hnd.
      apply List.NoDup_remove_2 in Hnd. now rewrite List.app_nil_r in Hnd.
    + destruct (held_tracked _ _ _ Hc' r) as (inst & Hobj & Huse & _);
        [apply List.in_app_iff; right; now left|]. eauto.
Qed.

Lemma no_instance_is_held_twice_witness :
  let events :=
    [ Acquires 1; Acquires 2; Releases false 0;
      CleansUp 5000 (fun _ => false); Acquires 5001; Acquires 5002 ] in
  List.NoDup (snd (client_run events (new_pool 2 0) []))
  /\ length (snd (client_run events (new_pool 2 0) [])) = 2.
Proof.
  split; [|vm_compute; reflexivity].
  apply (no_instance_is_held_twice 2 0 0
           [ Acquires 1; Acquires 2; Releases false 0;
             CleansUp 5000 (fun _ => false); Acquires 5001;
             Acquires 5002 ]).
  cbn. lia.
Defined.

Lemma busy_entries_are_held bound p held :
  consistent bound p held ->
  length (List.filter (Manager.busy p) (map_to_list (instances p)))
  = length held.
Proof.
  intros [Hown _ _ _ _ Hnodup Hheld Hbusy _].
  set (entries := List.filter (Manager.busy p) (map_to_list (instances p))).
  assert (forall iid r, In (iid, r) entries <->
                        instances p !! iid = Some r
                        /\ Manager.busy p (iid, r) = true) as Hentries.
  { intros iid r. unfold entries. rewrite List.filter_In.
    rewrite <- list_elem_of_In, elem_of_map_to_list. reflexivity. }
  assert (NoDup entries) as Hnd.
  { apply NoDup_ListNoDup, List.NoDup_filter, NoDup_ListNoDup,
      NoDup_map_to_list. }
  rewrite <- (length_fmap snd entries).
  apply Permutation_length. apply NoDup_Permutation.
  - apply NoDup_fmap_2_strong; [|exact Hnd].
    intros [iid1 r1] [iid2 r2] H1 H2 E. cbn in E. subst r2.
    apply list_elem_of_In, Hentries in H1 as [H1 _].
    apply list_elem_of_In, Hentries in H2 as [H2 _].
    destruct (Hown _ _ H1) as (i1 & Ho1 & Hi1).
    destruct (Hown _ _ H2) as (i2 & Ho2 & Hi2).
    f_equal. congruence.
  - now apply NoDup_ListNoDup.
  - intros r. rewrite list_elem_of_fmap. split.
    + intros ([iid r'] & -> & Hin). cbn.
      apply list_elem_of_In, Hentries in Hin as [Htr Hb].
      unfold Manager.busy in Hb. cbn in Hb.
      destruct (objects p !! r') as [inst|] eqn:Hobj; [|discriminate].
      apply list_elem_of_In. eauto.
    + intros Hin. apply list_elem_of_In in Hin.
      destruct (Hheld _ Hin) as (inst & Hobj & Huse & Htr & _).
      exists (id inst, r). split; [reflexivity|].
      apply list_elem_of_In, Hentries. split; [exact Htr|].
      unfold Manager.busy. cbn. now rewrite Hobj.
Qed.

(** X17. [get_queue_status] reports as active exactly the instances
    that clients hold: after any acquisitions, releases of held
    instances and cleanups on a new pool, the clock readings of the
    acquisitions increasing strictly, its [active_instances] is the
    number of instances checked out and not yet released, and never
    exceeds [total_instances], which never exceeds the pool's
    capacity. *)
Theorem status_counts_the_instances_held :
  forall (capacity : nat) (start first : Z) (events : list event)
         (q : Worker.ConversionQueue),
    increasing first events ->
    let p := fst (client_run events (new_pool capacity start) []) in
    let held := snd (client_run events (new_pool capacity start) []) in
    let status :=
      Manager.get_queue_status
        {| Worker.browser_pool := p; Worker.conversion_queue := q |} in
    Manager.active_instances status = length held
    /\ Manager.active_instances status <= Manager.total_instances status
    /\ Manager.total_instances status <= capacity.
Proof.
  intros capacity start first events q Hinc p held status.
  pose proof (consistent_run events first (new_pool capacity start) []
                (consistent_new capacity start first) Hinc) as Hc.
  fold p held in Hc.
  pose proof (busy_entries_are_held _ _ _ Hc) as Hactive.
  pose proof (held_within_tracked _ _ _ Hc) as Hheld.
  pose proof (within_capacity _ _ _ Hc) as Hcap.
  pose proof (client_run_capacity events (new_pool capacity start) [])
    as Hmax.
  fold p in Hmax. cbn in Hmax.
  subst status. cbn. rewrite Hactive. lia.
Qed.

Lemma status_counts_the_instances_held_witness :
  let events :=
    [ Acquires 1; Acquires 2; Releases false 0; Acquires 3 ] in
  Manager.active_instances
    (Manager.get_queue_status
       {| Worker.browser_pool :=
            fst (client_run events (new_pool 3 0) []);
          Worker.conversion_queue := Worker.new_queue 100 |})
  = length (snd (client_run events (new_pool 3 0) [])).
Proof.
  apply (status_counts_the_instances_held 3 0 0
           [ Acquires 1; Acquires 2; Releases false 0; Acquires 3 ]
           (Worker.new_queue 100)).
  cbn. lia.
Defined.

End PoolClientFacts.

(** ** The idle cleanup *)

Module CleanupFacts.
Import Pool PoolClients PoolClientsAux PoolClientFacts.
Local Open Scope list_scope.

(** An entry visited by the loop of [cleanup_instances] whose browser
    closes without error is gone afterwards. *)
Lemma cleanup_loop_removes close_fails : forall entries p entry instance,
  In entry entries ->
  objects p !! snd entry = Some instance ->
  close_fails (fst entry) = false ->
  instances
    (fold_left
       (fun p (entry : nat * Z * nat) =>
          match objects p !! snd entry with
          | Some instance =>
              _recycle_instance (close_fails (fst entry)) instance p
          | None => p
          end) entries p) !! id instance = None.
Proof.
  induction entries as [|e entries IH]; intros p entry instance Hin Hobj Hclose;
    [destruct Hin|].
  cbn [fold_left].
  set (p1 := match objects p !! snd e with
             | Some instance =>
                 _recycle_instance (close_fails (fst e)) instance p
             | None => p
             end).
  assert (objects p1 = objects p) as Ho.
  { subst p1. destruct (objects p !! snd e); [|reflexivity].
    unfold _recycle_instance. now destruct (close_fails (fst e)). }
  destruct Hin as [->|Hin].
  - destruct (cleanup_loop close_fails entries p1) as (_ & _ & _ & Hs & _).
    cbv zeta in Hs.
    assert (instances p1 !! id instance = None) as Hgone.
    { subst p1. rewrite Hobj. unfold _recycle_instance. rewrite Hclose.
      cbn. apply lookup_delete_eq. }
    destruct (instances (fold_left _ entries p1) !! id instance) as [r|] eqn:E;
      [|reflexivity].
    eapply lookup_weaken in E; [|exact Hs]. congruence.
  - apply (IH p1 entry); [exact Hin | now rewrite Ho | exact Hclose].
Qed.

(** X18. [cleanup_instances] does nothing within [cleanup_interval]
    seconds of the last cleanup. When it runs it never touches the idle
    queue or an instance that is in use; it drops from [instances] the
    idle instances whose idle time exceeds 1800 - the idle time being
    the seconds field of the time difference, which leaves whole days
    out, so an instance idle for a number of whole days and at most 30
    minutes is kept. *)
Theorem cleanup_drops_only_stale_idle_instances :
  forall (now : Z) (close_fails : nat * Z -> bool) (p : BrowserInstancePool),
    (forall iid r, instances p !! iid = Some r ->
       exists instance, objects p !! r = Some instance /\ id instance = iid) ->
    let p' := cleanup_instances now close_fails p in
    available_instances p' = available_instances p
    /\ objects p' = objects p
    /\ ((now - last_cleanup p < cleanup_interval p)%Z -> p' = p)
    /\ (forall iid r, instances p' !! iid = Some r ->
                      instances p !! iid = Some r)
    /\ (forall iid r instance,
           instances p !! iid = Some r -> objects p !! r = Some instance ->
           in_use instance = true
           \/ (exists days,
                  0 <= now - last_used instance - 86400 * days <= 1800)%Z ->
           instances p' !! iid = Some r)
    /\ ((cleanup_interval p <= now - last_cleanup p)%Z ->
        last_cleanup p' = now
        /\ forall iid r instance,
             instances p !! iid = Some r -> objects p !! r = Some instance ->
             in_use instance = false ->
             (1800 < (now - last_used instance) mod 86400)%Z ->
             close_fails iid = false ->
             instances p' !! iid = None).
Proof.
  intros now close_fails p Hown p'. subst p'. unfold cleanup_instances.
  destruct (now - last_cleanup p <? cleanup_interval p)%Z eqn:Eint.
  { apply Z.ltb_lt in Eint.
    split; [reflexivity|]. split; [reflexivity|]. split; [reflexivity|].
    split; [auto|]. split; [auto|]. intros Hle. lia. }
  apply Z.ltb_ge in Eint.
  destruct (cleanup_loop close_fails
              (List.filter (stale now p) (map_to_list (instances p))) p)
    as (Ho & Ha & Hm & Hs & Hk).
  cbv zeta in *. cbn.
  split; [exact Ha|]. split; [exact Ho|]. split; [intros Hlt; lia|].
  split; [|split].
  - intros iid r H. eapply lookup_weaken; eassumption.
  - intros iid r instance Htr Hobj Hkeep. apply Hk; [exact Htr|].
    intros [iid' r'] instance' He Hobj' E.
    apply List.filter_In in He as [He Hstale].
    apply list_elem_of_In, elem_of_map_to_list in He. cbn in *.
    destruct (Hown _ _ He) as (inst' & Hobj'' & Hid').
    assert (inst' = instance') as -> by congruence.
    assert (iid' = iid) as -> by congruence.
    assert (r' = r) as -> by congruence.
    assert (instance' = instance) as -> by congruence.
    unfold stale in Hstale. cbn in Hstale. rewrite Hobj in Hstale.
    apply andb_prop in Hstale as [Hidle Hlong].
    destruct Hkeep as [Huse|[days Hdays]].
    + rewrite Huse in Hidle. discriminate.
    + apply Z.ltb_lt in Hlong. unfold idle_seconds in Hlong.
      assert ((now - last_used instance) mod 86400
              = now - last_used instance - 86400 * days)%Z as Emod
          by (symmetry; apply (Z.mod_unique _ _ days); lia).
      lia.
  - intros _. split; [reflexivity|].
    intros iid r instance Htr Hobj Hidle Hlong Hclose.
    destruct (Hown _ _ Htr) as (inst' & Hobj' & Hid').
    assert (inst' = instance) as -> by congruence. subst iid.
    apply (cleanup_loop_removes close_fails _ p (id instance, r) instance);
      [|exact Hobj|exact Hclose].
    apply List.filter_In. split.
    + apply list_elem_of_In, elem_of_map_to_list. exact Htr.
    + unfold stale. cbn. rewrite Hobj, Hidle. cbn.
      apply Z.ltb_lt. exact Hlong.
Qed.

Lemma cleanup_drops_only_stale_idle_instances_witness :
  let p :=
    fst (client_run [Acquires 0; Releases false 0] (new_pool 2 0) []) in
  instances (cleanup_instances 87000 (fun _ => false) p) !! (0, 0%Z) = Some 0
  /\ instances (cleanup_instances 1801 (fun _ => false) p) !! (0, 0%Z) = None.
Proof.
  intros p.
  assert (forall iid r, instances p !! iid = Some r ->
            exists instance, objects p !! r = Some instance
                             /\ id instance = iid) as Hown.
  { apply (tracked_own_id 0 p []).
    apply (consistent_run [Acquires 0; Releases false 0] (-1)
             (new_pool 2 0) [] (consistent_new 2 0 (-1))).
    cbn. lia. }
  split.
  - refine (proj1 (proj2 (proj2 (proj2 (proj2
              (cleanup_drops_only_stale_idle_instances 87000
                 (fun _ => false) p Hown)))))
              (0, 0%Z) 0 (Build_BrowserInstance (0, 0%Z) false 0 0 1 50)
              _ _ _).
    + vm_compute. reflexivity.
    + vm_compute. reflexivity.
    + right. exists 1%Z. cbn. lia.
  - refine (proj2 (proj2 (proj2 (proj2 (proj2 (proj2
              (cleanup_drops_only_stale_idle_instances 1801
                 (fun _ => false) p Hown))))) _)
              (0, 0%Z) 0 (Build_BrowserInstance (0, 0%Z) false 0 0 1 50)
              _ _ _ _ _).
    + vm_compute. discriminate.
    + vm_compute. reflexivity.
    + vm_compute. reflexivity.
    + reflexivity.
    + vm_compute. reflexivity.
    + reflexivity.
Defined.

End CleanupFacts.

(** ** Selections processed in batches *)

Module BatchFacts.
Import Pool Worker Manager WorkerFacts.
Local Open Scope list_scope.

Section Selections.
Variable value : Type.
Variable no : value.

Lemma acquire_loop_extends : forall batch pool instances,
  exists new,
    snd (fst (acquire_loop value batch pool instances)) = instances ++ new
    /\ length new <= length batch
    /\ (fst (fst (acquire_loop value batch pool instances)) = None ->
        length new = length batch).
Proof.
  induction batch as [|[selection env] batch IH]; intros pool instances;
    cbn [acquire_loop].
  - exists []. rewrite List.app_nil_r. cbn. auto.
  - destruct (get_instance (acquired_at value env) pool) as [[r|e] pool'].
    + destruct (IH pool' (instances ++ [r])) as (new & Hnew & Hle & Hall).
      exists (r :: new). rewrite Hnew, <- List.app_assoc. cbn.
      split; [reflexivity|]. split; [lia|]. intros H. now rewrite Hall.
    + exists []. rewrite List.app_nil_r. cbn.
      split; [reflexivity|]. split; [lia|discriminate].
Qed.

Lemma balanced_calls (instances : list nat) r :
  releases r (List.map GetInstance instances
              ++ List.map ReleaseInstance instances)
  = acquisitions r (List.map GetInstance instances
                    ++ List.map ReleaseInstance instances).
Proof.
  rewrite releases_app, acquisitions_app.
  assert (releases r (List.map GetInstance instances) = 0) as ->.
  { induction instances as [|x l IH]; [reflexivity|exact IH]. }
  assert (acquisitions r (List.map ReleaseInstance instances) = 0) as ->.
  { induction instances as [|x l IH]; [reflexivity|exact IH]. }
  rewrite Nat.add_0_r. cbn [Nat.add].
  induction instances as [|x l IH]; [reflexivity|].
  unfold releases, acquisitions in *. cbn.
  destruct (Nat.eqb x r); cbn; now rewrite IH.
Qed.

Lemma process_batch_spec batch pool :
  let '(raised, batch_results, pool', calls) :=
    process_batch value no batch pool in
  (forall r, releases r calls = acquisitions r calls)
  /\ (raised = None ->
      batch_results
      = List.map (fun '(selection, env) => (selection, status value no env)) batch).
Proof.
  unfold process_batch.
  destruct (acquire_loop value batch pool []) as [[raised instances] pool'].
  destruct raised as [e|]; (split; [apply balanced_calls|]);
    [discriminate | reflexivity].
Qed.

Lemma batch_loop_spec : forall batches pool results,
  let '(answer, pool', calls) := batch_loop value no batches pool results in
  (forall r, releases r calls = acquisitions r calls)
  /\ (forall rs,
         answer = Ok rs ->
         rs = results
              ++ List.map (fun '(selection, env) => (selection, status value no env))
                          (List.concat batches)).
Proof.
  induction batches as [|batch batches IH]; intros pool results;
    cbn [batch_loop].
  - split; [reflexivity|]. intros rs [= <-]. cbn.
    now rewrite List.app_nil_r.
  - pose proof (process_batch_spec batch pool) as Hbatch.
    destruct (process_batch value no batch pool)
      as [[[raised batch_results] pool1] calls1].
    destruct Hbatch as [Hbal Hres].
    destruct raised as [e|]; [split; [exact Hbal|discriminate]|].
    specialize (IH pool1 (results ++ batch_results)).
    destruct (batch_loop value no batches pool1 (results ++ batch_results))
      as [[answer pool2] calls2].
    destruct IH as [Hbal2 Hres2]. split.
    + intros r. now rewrite releases_app, acquisitions_app, Hbal, Hbal2.
    + intros rs Hrs. rewrite (Hres2 rs Hrs), (Hres eq_refl).
      cbn [List.concat]. now rewrite List.map_app, List.app_assoc.
Qed.

Lemma batches_concat {A : Type} (batch_size : nat) :
  0 < batch_size ->
  forall fuel (selections : list A),
    length selections <= fuel ->
    List.concat (batches_of fuel batch_size selections) = selections.
Proof.
  intros Hpos. induction fuel as [|fuel IH]; intros selections Hlen.
  - destruct selections; [reflexivity|cbn in Hlen; lia].
  - cbn [batches_of]. destruct selections as [|x l]; [reflexivity|].
    cbn [List.concat]. rewrite IH.
    + apply List.firstn_skipn.
    + rewrite List.length_skipn. cbn [length] in *. lia.
Qed.

End Selections.

(** X19. [process_multiple_selections_parallel] releases every
    instance it acquired, on every way out - also when an acquisition
    fails in the middle of a batch. When it returns with a positive
    [max_concurrent], it returns one pair per selection, in the order
    of the selections, each carrying the status of that selection's
    task ([False] for a task that raised). For no selections it
    returns the empty list without touching the pool. *)
Theorem batches_release_what_they_acquire :
  forall (value : Type) (no : value) (max_concurrent : Z)
         (selections : list (Matcher.Selection * selection_run value))
         (pool : BrowserInstancePool),
    let answer :=
      fst (fst (process_multiple_selections_parallel value no
                  max_concurrent selections pool)) in
    let calls :=
      snd (process_multiple_selections_parallel value no
             max_concurrent selections pool) in
    (forall r, releases r calls = acquisitions r calls)
    /\ (forall results,
           (0 < max_concurrent)%Z -> answer = Ok results ->
           results
           = List.map (fun '(selection, env) => (selection, status value no env))
                      selections)
    /\ (selections = [] ->
        process_multiple_selections_parallel value no
          max_concurrent selections pool = (Ok [], pool, [])).
Proof.
  intros value no max_concurrent selections pool answer calls.
  subst answer calls. unfold process_multiple_selections_parallel.
  destruct selections as [|s0 rest].
  { split; [reflexivity|]. split; [|reflexivity].
    now intros results _ [= <-]. }
  set (selections := s0 :: rest).
  set (batch_size := Z.min (Z.of_nat (length selections)) max_concurrent).
  split; [|split; [|discriminate]].
  - destruct (batch_size =? 0)%Z; [reflexivity|].
    destruct (batch_size <? 0)%Z; [reflexivity|].
    pose proof (batch_loop_spec value no
                  (batches_of (length selections) (Z.to_nat batch_size)
                              selections) pool []) as H.
    destruct (batch_loop _ _ _ _ _) as [[answer pool'] calls].
    exact (proj1 H).
  - intros results Hpos.
    assert (0 < batch_size)%Z as Hsize by (subst batch_size selections; cbn [length]; lia).
    destruct (batch_size =? 0)%Z eqn:E0; [apply Z.eqb_eq in E0; lia|].
    destruct (batch_size <? 0)%Z eqn:E1; [apply Z.ltb_lt in E1; lia|].
    pose proof (batch_loop_spec value no
                  (batches_of (length selections) (Z.to_nat batch_size)
                              selections) pool []) as H.
    destruct (batch_loop _ _ _ _ _) as [[answer pool'] calls].
    cbn [fst]. intros Hanswer. rewrite (proj2 H results Hanswer).
    cbn [app]. rewrite batches_concat; [reflexivity | lia | lia].
Qed.


End BatchFacts.

(** ** From submission to result *)

Module SubmissionFacts.
Import Pool Worker Manager WorkerAux WorkerFacts.
Local Open Scope list_scope.

Lemma process_result_task env task pool :
  result_task (fst (fst (_process_conversion_task env task pool)))
  = task_id task.
Proof.
  unfold _process_conversion_task.
  destruct (get_instance _ _) as [[r|e] pool']; cbn; [|reflexivity].
  destruct (extraction env) as [[|s l]|msg]; cbn; try reflexivity;
    destruct (creation env); reflexivity.
Qed.

Lemma worker_iteration_result env m task rest :
  queue (conversion_queue m) = task :: rest ->
  exists result,
    result_task result = task_id task
    /\ queue (conversion_queue (fst (worker_iteration env m))) = rest
    /\ completed_tasks (conversion_queue (fst (worker_iteration env m)))
       = <[task_id task := result]> (completed_tasks (conversion_queue m)).
Proof.
  intros Hq. unfold worker_iteration, get_task. rewrite Hq.
  destruct (run_fails env) as [message|].
  - exists (Failed message (task_id task)). cbn.
    split; [|split]; reflexivity.
  - pose proof (process_result_task (agent env) task (browser_pool m)) as H.
    destruct (_process_conversion_task _ _ _) as [[result pool] calls].
    exists result. cbn in *. auto.
Qed.

Lemma worker_loop_results : forall envs m,
  let m' := fst (_worker_loop envs m) in
  queue (conversion_queue m')
  = List.skipn (length envs) (queue (conversion_queue m))
  /\ forall t r,
       In t (dequeued (length envs) (conversion_queue m)) ->
       completed_tasks (conversion_queue m') !! t = Some r ->
       result_task r = t.
Proof.
  induction envs as [|env envs IH]; intros m; cbn [_worker_loop length].
  - cbn. split; [reflexivity|]. intros t r [].
  - destruct (queue (conversion_queue m)) as [|task rest] eqn:Hq.
    + rewrite (worker_iteration_idle env m Hq).
      specialize (IH {| browser_pool := browser_pool m;
                        conversion_queue := conversion_queue m |}).
      destruct (_worker_loop envs _) as [m' calls]. cbn in *.
      rewrite Hq in IH. destruct IH as [IHq IHr].
      rewrite List.skipn_nil in IHq. split; [exact IHq|].
      unfold dequeued in *. rewrite Hq in *. rewrite List.firstn_nil in *.
      intros t r [].
    + destruct (worker_iteration_result env m task rest Hq)
        as (result & Hres & Hrest & Hdone).
      destruct (worker_loop_spec envs (fst (worker_iteration env m)))
        as (m2 & calls2 & Hrun & _ & _ & _ & Hframe).
      specialize (IH (fst (worker_iteration env m))).
      destruct (worker_iteration env m) as [m1 calls1]. cbn [fst] in *.
      rewrite Hrun in *. cbn [fst] in *. destruct IH as [IHq IHr].
      rewrite Hrest in IHq. split; [exact IHq|].
      intros t r Hin Hr.
      destruct (in_dec string_dec t (dequeued (length envs) (conversion_queue m1)))
        as [Hlater|Hnot]; [now apply IHr|].
      unfold dequeued in Hin. rewrite Hq in Hin. cbn in Hin.
      destruct Hin as [<-|Hin].
      * destruct (Hframe _ Hnot) as [_ Hsame]. rewrite Hsame, Hdone in Hr.
        rewrite lookup_insert_eq in Hr. now injection Hr as <-.
      * exfalso. apply Hnot. unfold dequeued. now rewrite Hrest.
Qed.

(** X20. A conversion accepted by [convert_betslip_parallel] gets its
    result: once a worker has made as many passes as there were tasks
    waiting, [get_conversion_result] returns, under the task id handed
    to the caller, a result that carries this id - a conversion or a
    failure, whatever the browser agent did - and the task is neither
    waiting nor in processing any more. A submission to a full queue
    raises and leaves the manager as it was. *)
Theorem accepted_conversion_gets_its_result :
  forall (now : Z) (betslip_code source_bookmaker destination_bookmaker : string)
         (m m1 : ParallelBrowserManager) (answer : result string),
    convert_betslip_parallel now betslip_code source_bookmaker
      destination_bookmaker m = (answer, m1) ->
    (forall e, answer = Raise e ->
               e = queue_full /\ m1 = m
               /\ (0 < max_size (conversion_queue m)
                   <= Z.of_nat (get_queue_size (conversion_queue m)))%Z)
    /\ (forall task (envs : list iteration),
           answer = Ok task ->
           get_queue_size (conversion_queue m1) <= length envs ->
           let m2 := fst (_worker_loop envs m1) in
           get_queue_size (conversion_queue m1)
           = S (get_queue_size (conversion_queue m))
           /\ get_conversion_result task m1 = get_conversion_result task m
           /\ get_queue_size (conversion_queue m2) = 0
           /\ processing_tasks (conversion_queue m2) !! task = None
           /\ exists result,
                get_conversion_result task m2 = Some result
                /\ result_task result = task).
Proof.
  intros now betslip_code source_bookmaker destination_bookmaker m m1 answer.
  unfold convert_betslip_parallel, add_task.
  destruct (_ && _)%bool eqn:Efull.
  - intros [= <- <-]. split; [|discriminate].
    intros e [= <-]. apply andb_prop in Efull as [E1 E2].
    apply Z.ltb_lt in E1. apply Z.leb_le in E2.
    unfold get_queue_size. auto.
  - intros [= <- <-]. split; [discriminate|].
    intros task envs [= <-] Hlen.
    set (task := "task_" +:+ pretty now +:+ "_" +:+ betslip_code +:+ "_"
                 +:+ source_bookmaker +:+ "_" +:+ destination_bookmaker) in *.
    set (m1 := Build_ParallelBrowserManager _ _) in *.
    set (m2 := fst (_worker_loop envs m1)).
    assert (queue (conversion_queue m1)
            = queue (conversion_queue m)
              ++ [Build_ConversionTask task betslip_code source_bookmaker
                    destination_bookmaker 0 now]) as Hq1 by reflexivity.
    unfold get_queue_size in *. rewrite Hq1 in *.
    rewrite List.length_app in *. cbn [length] in *.
    split; [lia|]. split; [reflexivity|].
    destruct (worker_loop_results envs m1) as [Hq Hr].
    destruct (worker_loop_spec envs m1) as (m' & calls & Hrun & _ & _ & Hdone & _).
    fold m2 in Hq, Hr. assert (m' = m2) as -> by (subst m2; now rewrite Hrun).
    assert (In task (dequeued (length envs) (conversion_queue m1))) as Hin.
    { unfold dequeued. rewrite Hq1.
      rewrite List.firstn_all2 by (rewrite List.length_app; cbn; lia).
      rewrite List.map_app. apply List.in_app_iff. right. now left. }
    split.
    + rewrite Hq, Hq1.
      rewrite List.skipn_all2; [reflexivity|].
      rewrite List.length_app. cbn. lia.
    + destruct (Hdone _ Hin) as [Hgone [result Hresult]].
      split; [exact Hgone|]. exists result. split; [exact Hresult|].
      now apply Hr.
Qed.

Lemma accepted_conversion_gets_its_result_witness :
  exists result,
    get_conversion_result "task_1700000000_ABC123_bet9ja_sportybet"
      (fst (_worker_loop [failing_pass]
              (snd (convert_betslip_parallel 1700000000 "ABC123" "bet9ja"
                      "sportybet" (new_manager 3 1700000000)))))
    = Some result
    /\ result_task result = "task_1700000000_ABC123_bet9ja_sportybet".
Proof.
  destruct (proj2 (accepted_conversion_gets_its_result 1700000000 "ABC123"
                     "bet9ja" "sportybet" (new_manager 3 1700000000) _ _
                     eq_refl)
              "task_1700000000_ABC123_bet9ja_sportybet" [failing_pass]
              eq_refl)
    as (_ & _ & _ & _ & result & H).
  - vm_compute. lia.
  - exists result. exact H.
Defined.

End SubmissionFacts.
